(** * LightRAG storage layer (lightrag/storage.py): shallow embedding

    The file follows the classes of [lightrag/storage.py]:
    - [JsonKVStorage], [DuckDBStorage]: the record stores;
    - [NanoVectorDBStorage], [ChromaDBStorage]: the vector stores and the
      batched embedding protocol;
    - [NetworkXStorage]: the graph store and the graph canonicalizer
      ([stable_largest_connected_component], [_stabilize_graph]).

    Python values are modelled as follows.  A [str] is the list of its code
    points; a [dict] whose iteration order is observable is an insertion
    ordered association list ([odict]); a [dict] used only as a finite map
    is a [gmap]; an exception is a value of [exn] returned on the left of a
    sum. *)

From Stdlib Require Import NArith ZArith Lia Bool String Ascii.
From stdpp Require Import base option list gmap sorting.

Open Scope N_scope.
Open Scope nat_scope.

(** ** Python strings *)

(** A Python [str]: the sequence of its Unicode code points. *)
Abbreviation pystr := (list N).

(** A literal: the code points of an ASCII string. *)
Definition py (s : string) : pystr :=
  map N_of_ascii (list_ascii_of_string s).

(** [s < t], [s == t], [s > t] on [str]: lexicographic on code points. *)
Fixpoint str_compare (s t : pystr) : comparison :=
  match s, t with
  | [], [] => Eq
  | [], _ :: _ => Lt
  | _ :: _, [] => Gt
  | a :: s', b :: t' =>
      match N.compare a b with
      | Eq => str_compare s' t'
      | c => c
      end
  end.

Definition str_ltb (s t : pystr) : bool :=
  match str_compare s t with Lt => true | _ => false end.

Definition str_gtb (s t : pystr) : bool := str_ltb t s.

Definition str_leb (s t : pystr) : bool := negb (str_ltb t s).

Definition str_eqb (s t : pystr) : bool := bool_decide (s = t).

(** ** Exceptions *)

Inductive exn : Type :=
  | ValueError
  | KeyError
  | IndexError
  | TypeError
  | EmbeddingFailure.

(** A computation that returns a value or raises. *)
Definition result (A : Type) : Type := exn + A.

Definition ret {A} (a : A) : result A := inr a.
Definition raise {A} (e : exn) : result A := inl e.

Definition bind {A B} (m : result A) (k : A -> result B) : result B :=
  match m with
  | inl e => inl e
  | inr a => k a
  end.

Notation "'let*' x ':=' m 'in' k" := (bind m (fun x => k))
  (at level 10, x name, m at level 100, k at level 200).

(** [[f(x) for x in l]] where [f] may raise: the first error in list order. *)
Fixpoint mapM {A B} (f : A -> result B) (l : list A) : result (list B) :=
  match l with
  | [] => ret []
  | x :: l' => let* y := f x in let* ys := mapM f l' in ret (y :: ys)
  end.

(** ** Insertion-ordered dictionaries *)

Section odict.
Context {K V : Type} `{EqDecision K}.

(** [d.get(k)] *)
Fixpoint odict_get (k : K) (d : list (K * V)) : option V :=
  match d with
  | [] => None
  | (k', v) :: d' => if decide (k' = k) then Some v else odict_get k d'
  end.

(** [k in d] *)
Definition odict_mem (k : K) (d : list (K * V)) : bool :=
  bool_decide (k ∈ d.*1).

(** [d[k] = v]: an existing key keeps its position, a new one goes last. *)
Fixpoint odict_set (k : K) (v : V) (d : list (K * V)) : list (K * V) :=
  match d with
  | [] => [(k, v)]
  | (k', v') :: d' =>
      if decide (k' = k) then (k, v) :: d' else (k', v') :: odict_set k v d'
  end.

(** [d.update(d')] *)
Definition odict_update (d d' : list (K * V)) : list (K * V) :=
  foldl (fun acc kv => odict_set kv.1 kv.2 acc) d d'.

(** [dict(items)]: later items win, position is that of the first. *)
Definition odict_of_items (l : list (K * V)) : list (K * V) :=
  odict_update [] l.
End odict.

Abbreviation odict K V := (list (K * V)).

(** ** Record stores *)

(** *** JsonKVStorage *)

Module JsonKVStorage.
Section JsonKVStorage.
(** The stored records, [dict[str, dict]]: only lookups are observed. *)
Context {V : Type}.

(** [self._data] *)
Abbreviation state := (gmap pystr V).

Definition all_keys (_data : state) : list pystr :=
  (map_to_list _data).*1.

Definition get_by_id (id : pystr) (_data : state) : option V :=
  _data !! id.

Definition filter_keys (data : list pystr) (_data : state) : gset pystr :=
  list_to_set (filter (fun s => s ∉ dom _data) data).

(** [upsert]: the new state and the returned [left_data]. *)
Definition upsert (data : gmap pystr V) (_data : state)
  : state * gmap pystr V :=
  let left_data := filter (fun kv => kv.1 ∉ dom _data) data in
  (left_data ∪ _data, left_data).

Definition drop (_data : state) : state := ∅.
End JsonKVStorage.

Section get_by_ids.
(** The records as dictionaries of fields. *)
Context {F : Type}.

(** [get_by_ids(ids, fields)]; [fields = None] is the default.  With
    [fields], a record is filtered when [self._data.get(id, None)] is
    true, which an empty dictionary is not; [k in fields] is membership in
    a collection of field names. *)
Definition get_by_ids (ids : list pystr) (fields : option (list pystr))
    (_data : gmap pystr (odict pystr F)) : list (option (odict pystr F)) :=
  match fields with
  | None => map (fun id => _data !! id) ids
  | Some fields =>
      map (fun id =>
             match _data !! id with
             | Some ((_ :: _) as record) =>
                 Some (filter (fun kv => kv.1 ∈ fields) record)
             | _ => None
             end) ids
  end.
End get_by_ids.
End JsonKVStorage.

(** *** DuckDBStorage *)

Module DuckDBStorage.
Section DuckDBStorage.
Context {V : Type}.

(** The table [kv_store] (primary key [key]) behind [self._conn], and
    [self._data], the rows [(key, value)] that [__post_init__] fetched
    once with [SELECT * FROM kv_store]. *)
Record state : Type := mk {
  kv_store : gmap pystr V;
  _data : list (pystr * V)
}.

(** [s == row] for a [str] and a row tuple: values of different types are
    never equal. *)
Definition str_eq_row (s : pystr) (row : pystr * V) : bool := false.

(** [s in self._data] *)
Definition in_data (s : pystr) (self : state) : bool :=
  existsb (str_eq_row s) (_data self).

Definition all_keys (self : state) : list pystr :=
  (map_to_list (kv_store self)).*1.

Definition get_by_id (id : pystr) (self : state) : option V :=
  kv_store self !! id.

Definition filter_keys (data : list pystr) (self : state) : gset pystr :=
  list_to_set (filter (fun s => negb (in_data s self) = true) data).

(** [INSERT INTO kv_store (key, value) VALUES (?, ?)
     ON CONFLICT(key) DO UPDATE SET value = excluded.value] *)
Definition insert_or_update (key : pystr) (value : V)
    (table : gmap pystr V) : gmap pystr V :=
  <[key := value]> table.

Definition upsert (data : gmap pystr V) (self : state)
  : state * gmap pystr V :=
  let table := map_fold insert_or_update (kv_store self) data in
  let self' := {| kv_store := table; _data := _data self |} in
  let existing_keys := filter_keys (map_to_list data).*1 self' in
  let left_data := filter (fun kv => kv.1 ∉ existing_keys) data in
  (self', left_data).
End DuckDBStorage.
End DuckDBStorage.

Arguments DuckDBStorage.state : clear implicits.

(** ** Vector stores *)

(** *** The batched embedding protocol

    What [NanoVectorDBStorage.upsert] and [ChromaDBStorage.upsert] share:
    the construction of [list_data], [contents] and [batches], the fan-out
    to the embedding function and the reassembly of its results. *)

Section BatchedEmbedder.
(** [F]: the value of a record field ([content] and the metadata fields);
    [vec]: one row of the matrix the embedding function returns. *)
Context {F vec : Type}.

(** The value of a key of a [list_data] dictionary. *)
Inductive dval : Type :=
  | DId (k : pystr)
  | DField (f : F)
  | DVector (v : vec).

(** [self.embedding_func]: one row per input string, or an exception. *)
Variable embedding_func : list F -> result (list vec).
(** [self.meta_fields] *)
Variable meta_fields : list pystr.
(** [self._max_batch_size = global_config["embedding_batch_num"]] *)
Variable _max_batch_size : Z.

(** [{"__id__": k, **{k1: v1 for k1, v1 in v.items()
                        if k1 in self.meta_fields}}] *)
Definition list_data_entry (k : pystr) (v : odict pystr F)
  : odict pystr dval :=
  odict_update [(py "__id__", DId k)]
    (map (fun kv => (kv.1, DField kv.2))
       (filter (fun kv => kv.1 ∈ meta_fields) v)).

Definition make_list_data (data : odict pystr (odict pystr F))
  : list (odict pystr dval) :=
  map (fun kv => list_data_entry kv.1 kv.2) data.

(** [[v["content"] for v in data.values()]] *)
Definition make_contents (data : odict pystr (odict pystr F))
  : result (list F) :=
  mapM (fun kv => match odict_get (py "content") kv.2 with
                  | Some c => ret c
                  | None => raise KeyError
                  end) data.

(** [range(0, stop, step)] *)
Definition py_range0 (stop : nat) (step : Z) : result (list nat) :=
  if bool_decide (step = 0)%Z then raise ValueError
  else if bool_decide (step < 0)%Z then ret []
  else
    let st := Z.to_nat step in
    ret (map (fun j => j * st) (seq 0 ((stop + st - 1) / st))).

(** [l[i : j]] for [0 <= i <= j] *)
Definition py_slice {A} (l : list A) (i j : nat) : list A :=
  take (j - i) (drop i l).

(** [[contents[i : i + self._max_batch_size]
      for i in range(0, len(contents), self._max_batch_size)]] *)
Definition make_batches (contents : list F) : result (list (list F)) :=
  let* starts := py_range0 (length contents) _max_batch_size in
  ret (map (fun i => py_slice contents i (i + Z.to_nat _max_batch_size))
         starts).

(** [await asyncio.gather( *[self.embedding_func(batch) for batch in
    batches])]: every batch is submitted; the results come back in the
    order of [batches]; an exception of a batch is raised to the caller
    (when several batches fail, the model reports the first in list
    order). *)
Definition gather_embeddings (batches : list (list F))
  : result (list (list vec)) :=
  mapM embedding_func batches.

(** [np.concatenate(arrays)]: the rows of the arrays, in order; an empty
    sequence of arrays is an error. *)
Definition np_concatenate (arrays : list (list vec)) : result (list vec) :=
  match arrays with
  | [] => raise ValueError
  | _ => ret (concat arrays)
  end.

(** [embeddings[i]] *)
Definition row (embeddings : list vec) (i : nat) : result vec :=
  match embeddings !! i with
  | Some e => ret e
  | None => raise IndexError
  end.

(** [for i, d in enumerate(list_data): d["__vector__"] = embeddings[i]],
    from index [i] on. *)
Fixpoint attach_vectors (i : nat) (list_data : list (odict pystr dval))
    (embeddings : list vec) : result (list (odict pystr dval)) :=
  match list_data with
  | [] => ret []
  | d :: ds =>
      let* e := row embeddings i in
      let* ds' := attach_vectors (S i) ds embeddings in
      ret (odict_set (py "__vector__") (DVector e) d :: ds')
  end.

(** [contents], [batches], [embeddings_list], [embeddings] in turn. *)
Definition embed_contents (data : odict pystr (odict pystr F))
  : result (list vec) :=
  let* contents := make_contents data in
  let* batches := make_batches contents in
  let* embeddings_list := gather_embeddings batches in
  np_concatenate embeddings_list.
End BatchedEmbedder.

Arguments dval : clear implicits.

(** *** NanoVectorDBStorage *)

Module NanoVectorDBStorage.
Section NanoVectorDBStorage.
Context {F vec : Type}.
Variable embedding_func : list F -> result (list vec).
Variable meta_fields : list pystr.
Variable _max_batch_size : Z.

(** [self._client], the NanoVectorDB index, and its [upsert(datas=...)]
    with the report it returns: an engine outside the repository. *)
Context {client report : Type}.
Variable client_upsert : list (odict pystr (dval F vec)) -> client ->
                         report * client.

(** What [upsert] returns: [[]] for an empty input, else the report of
    the client. *)
Inductive upsert_result : Type :=
  | Empty
  | Report (r : report).

(** The [list_data] handed to [self._client.upsert]. *)
Definition upsert_payload (data : odict pystr (odict pystr F))
  : result (list (odict pystr (dval F vec))) :=
  let list_data := make_list_data meta_fields data in
  let* embeddings := embed_contents embedding_func _max_batch_size data in
  attach_vectors 0 list_data embeddings.

Definition upsert (data : odict pystr (odict pystr F)) (_client : client)
  : result upsert_result * client :=
  if bool_decide (length data = 0) then (ret Empty, _client)
  else
    match upsert_payload data with
    | inl e => (raise e, _client)
    | inr list_data =>
        let '(results, _client') := client_upsert list_data _client in
        (ret (Report results), _client')
    end.

(** [self._client.query(query=..., top_k=..., better_than_threshold=...)]:
    the hits of the index, each a dictionary, best first; [J] is the type
    of their values, [threshold] that of
    [self.cosine_better_than_threshold]. *)
Context {J threshold : Type}.
Variable cosine_better_than_threshold : threshold.
Variable client_query : vec -> Z -> threshold -> client ->
                        list (odict pystr J).

(** [{**dp, "id": dp["__id__"], "distance": dp["__metrics__"]}] *)
Definition query_result (dp : odict pystr J) : result (odict pystr J) :=
  match odict_get (py "__id__") dp with
  | None => raise KeyError
  | Some i =>
      match odict_get (py "__metrics__") dp with
      | None => raise KeyError
      | Some m => ret (odict_set (py "distance") m (odict_set (py "id") i dp))
      end
  end.

Definition query (query : F) (top_k : Z) (_client : client)
  : result (list (odict pystr J)) :=
  let* embedding := embedding_func [query] in
  let* embedding := row embedding 0 in
  let results :=
    client_query embedding top_k cosine_better_than_threshold _client in
  mapM query_result results.
End NanoVectorDBStorage.
End NanoVectorDBStorage.

(** *** ChromaDBStorage *)

Module ChromaDBStorage.
Section ChromaDBStorage.
Context {F vec : Type}.
Variable embedding_func : list F -> result (list vec).
Variable meta_fields : list pystr.
Variable _max_batch_size : Z.

(** A stored document: [json.dumps(d)] of a [list_data] entry, or a
    content string. *)
Inductive document : Type :=
  | DocJson (d : odict pystr (dval F vec))
  | DocContent (c : F).

(** The collection of the namespace on the Chroma server: id to document
    and embedding.  [reachable] tells whether
    [get_or_create_collection] succeeds. *)
Record state : Type := mk {
  reachable : bool;
  collection : gmap pystr (document * vec)
}.

(** [collection.get()['ids']] *)
Definition existing_ids (c : gmap pystr (document * vec)) : list pystr :=
  (map_to_list c).*1.

(** [collection.upsert(ids=..., documents=..., embeddings=...)]: the three
    sequences must have one length; each id is then written, replacing
    what it held. *)
Definition collection_upsert (ids : list pystr) (documents : list document)
    (embeddings : list vec) (c : gmap pystr (document * vec))
  : result (gmap pystr (document * vec)) :=
  if bool_decide (length ids = length documents
                  ∧ length ids = length embeddings)
  then ret (foldl (fun c idv => <[idv.1 := idv.2]> c) c
              (zip ids (zip documents embeddings)))
  else raise ValueError.

(** [d.pop("__id__", None)] *)
Definition pop_id (d : odict pystr (dval F vec)) : odict pystr (dval F vec) :=
  filter (fun kv => kv.1 ≠ py "__id__") d.

(** The loop [for i, d in enumerate(list_data): ... collection.upsert(
    ids=[ids[i]], documents=[document], embeddings=[embeddings[i]])], from
    index [i] on.  The collection reached so far is returned with the
    outcome, since what was written before an exception stays written. *)
Fixpoint upsert_each (i : nat) (list_data : list (odict pystr (dval F vec)))
    (ids : list pystr) (embeddings : list vec)
    (c : gmap pystr (document * vec))
  : result unit * gmap pystr (document * vec) :=
  match list_data with
  | [] => (ret tt, c)
  | d :: ds =>
      let document := DocJson (pop_id d) in
      match ids !! i with
      | None => (raise IndexError, c)
      | Some id =>
          match row embeddings i with
          | inl e => (raise e, c)
          | inr emb =>
              match collection_upsert [id] [document] [emb] c with
              | inl e => (raise e, c)
              | inr c' => upsert_each (S i) ds ids embeddings c'
              end
          end
      end
  end.

(** The statements of [upsert] after the collection was obtained and
    before the [try] that writes. *)
Definition upsert_prepare (data : odict pystr (odict pystr F))
    (c : gmap pystr (document * vec))
  : result (list pystr + (list pystr * list F * list vec)) :=
  let ids := data.*1 in
  let* contents := make_contents data in
  let* batches := make_batches _max_batch_size contents in
  (* existing_docs = collection.get(): a dictionary that always has the
     key 'ids', so len(existing_docs) > 0 holds. *)
  let missing_ids :=
    filter (fun id => id ∉ existing_ids c) ids in
  if bool_decide (length missing_ids = 0) then ret (inl ids)
  else
    let ids := missing_ids in
    let* embeddings_list := gather_embeddings embedding_func batches in
    let* embeddings := np_concatenate embeddings_list in
    ret (inr (ids, contents, embeddings)).

Definition upsert (data : odict pystr (odict pystr F)) (self : state)
  : result (list pystr) * state :=
  if bool_decide (length data = 0) then (ret [], self)
  else if negb (reachable self) then (ret [], self)
  else
    let c := collection self in
    let list_data := make_list_data (vec := vec) meta_fields data in
    match upsert_prepare data c with
    | inl e => (raise e, self)
    | inr (inl ids) => (ret ids, self)
    | inr (inr (ids, contents, embeddings)) =>
        if bool_decide (0 < length meta_fields) then
          match upsert_each 0 list_data ids embeddings c with
          | (inl _, c') => (ret [], {| reachable := true; collection := c' |})
          | (inr _, c') => (ret ids, {| reachable := true; collection := c' |})
          end
        else
          match collection_upsert ids (map DocContent contents)
                  embeddings c with
          | inl _ => (ret [], self)
          | inr c' => (ret ids, {| reachable := true; collection := c' |})
          end
    end.
End ChromaDBStorage.
End ChromaDBStorage.

Arguments ChromaDBStorage.document : clear implicits.
Arguments ChromaDBStorage.state : clear implicits.

(** ** Python string functions used by the canonicalizer *)

(** The Unicode data and the hash order of the interpreter, which the
    source reaches through library calls:
    - [html5]: the table [html.entities.html5], entity name (with its
      [;] when the table has it) to replacement text;
    - [unicode_upper]: the full upper-case mapping of a code point outside
      ASCII, as [str.upper] applies it;
    - [set_iter]: the order in which a [set] of strings with the given
      members is iterated, some arrangement of the members;
    - [int_max_str_digits]: [sys.get_int_max_str_digits()], the longest
      string of decimal digits that [int] converts: 4300 unless the
      interpreter is configured otherwise, [0] when there is no limit (as
      in an interpreter older than the limit). *)
Record pyenv : Type := mk_pyenv {
  html5 : odict pystr pystr;
  unicode_upper : N -> pystr;
  set_iter : list pystr -> list pystr;
  set_iter_perm : ∀ s, set_iter s ≡ₚ s;
  int_max_str_digits : nat
}.

Module str.
(** [c.upper()] for one code point. *)
Definition upper_cp (E : pyenv) (c : N) : pystr :=
  if bool_decide (97 <= c <= 122)%N then [(c - 32)%N]
  else if bool_decide (c < 128)%N then [c]
  else unicode_upper E c.

(** [s.upper()] *)
Definition upper (E : pyenv) (s : pystr) : pystr :=
  flat_map (upper_cp E) s.

(** [c.isspace()]: the white-space code points of Unicode. *)
Definition isspace (c : N) : bool :=
  bool_decide (9 <= c <= 13 ∨ 28 <= c <= 32 ∨ c = 133 ∨ c = 160
               ∨ c = 5760 ∨ 8192 <= c <= 8202 ∨ c = 8232 ∨ c = 8233
               ∨ c = 8239 ∨ c = 8287 ∨ c = 12288)%N.

Fixpoint lstrip (s : pystr) : pystr :=
  match s with
  | [] => []
  | c :: s' => if isspace c then lstrip s' else s
  end.

Definition rstrip (s : pystr) : pystr := reverse (lstrip (reverse s)).

(** [s.strip()] *)
Definition strip (s : pystr) : pystr := rstrip (lstrip s).
End str.

Module html.
Definition is_digit (c : N) : bool := bool_decide (48 <= c <= 57)%N.

Definition is_hexdigit (c : N) : bool :=
  bool_decide (48 <= c <= 57 ∨ 65 <= c <= 70 ∨ 97 <= c <= 102)%N.

(** A character of [[^\t\n\f <&#;]]. *)
Definition is_name_char (c : N) : bool :=
  negb (bool_decide (c = 9 ∨ c = 10 ∨ c = 12 ∨ c = 32 ∨ c = 60 ∨ c = 38
                     ∨ c = 35 ∨ c = 59)%N).

(** The longest prefix of at most [n] characters that satisfy [p]. *)
Fixpoint span_upto (n : nat) (p : N -> bool) (s : pystr) : pystr :=
  match n, s with
  | S n', c :: s' => if p c then c :: span_upto n' p s' else []
  | _, _ => []
  end.

(** [;?] after a matched prefix [g] of [s]. *)
Definition with_semicolon (g s : pystr) : pystr :=
  match drop (length g) s with
  | 59%N :: _ => g ++ [59%N]
  | _ => g
  end.

(** The group that [_charref] captures when it matches at an [&] that is
    followed by [s]:
    [&(#[0-9]+;?|#[xX][0-9a-fA-F]+;?|[^\t\n\f <&#;]{1,32};?)]. *)
Definition match_charref (s : pystr) : option pystr :=
  match s with
  | 35%N :: s1 =>
      match span_upto (length s1) is_digit s1 with
      | (_ :: _) as ds => Some (with_semicolon (35%N :: ds) s)
      | [] =>
          match s1 with
          | x :: s2 =>
              if bool_decide (x = 120 ∨ x = 88)%N then
                match span_upto (length s2) is_hexdigit s2 with
                | (_ :: _) as hs => Some (with_semicolon (35%N :: x :: hs) s)
                | [] => None
                end
              else None
          | [] => None
          end
      end
  | _ =>
      match span_upto 32 is_name_char s with
      | (_ :: _) as nm => Some (with_semicolon nm s)
      | [] => None
      end
  end.

Definition digit_value (c : N) : N :=
  if bool_decide (48 <= c <= 57)%N then (c - 48)%N
  else if bool_decide (65 <= c <= 70)%N then (c - 55)%N
  else (c - 87)%N.

(** The number that the digits [digits] write in base [base]. *)
Definition int_of (base : N) (digits : pystr) : N :=
  foldl (fun acc c => (acc * base + digit_value c)%N) 0%N digits.

(** [int(digits)], base 10: CPython refuses, with [ValueError], a string of
    more than 640 digits that is longer than the limit of the interpreter
    (leading zeros count).  [int(digits, 16)] has no limit: 16 is a power
    of two. *)
Definition int_decimal (E : pyenv) (digits : pystr) : result N :=
  if bool_decide (640 < length digits ∧ 0 < int_max_str_digits E
                  ∧ int_max_str_digits E < length digits)
  then raise ValueError
  else ret (int_of 10 digits).

(** [s.rstrip(';')] for a group, which ends in at most one [;]. *)
Definition rstrip_semicolon (s : pystr) : pystr :=
  filter (fun c => c ≠ 59%N) s.

(** [html._invalid_charrefs] *)
Definition _invalid_charrefs (num : N) : option pystr :=
  match num with
  | 0x00 => Some [0xfffd] | 0x0d => Some [0x0d]
  | 0x80 => Some [0x20ac] | 0x81 => Some [0x81]
  | 0x82 => Some [0x201a] | 0x83 => Some [0x0192]
  | 0x84 => Some [0x201e] | 0x85 => Some [0x2026]
  | 0x86 => Some [0x2020] | 0x87 => Some [0x2021]
  | 0x88 => Some [0x02c6] | 0x89 => Some [0x2030]
  | 0x8a => Some [0x0160] | 0x8b => Some [0x2039]
  | 0x8c => Some [0x0152] | 0x8d => Some [0x8d]
  | 0x8e => Some [0x017d] | 0x8f => Some [0x8f]
  | 0x90 => Some [0x90] | 0x91 => Some [0x2018]
  | 0x92 => Some [0x2019] | 0x93 => Some [0x201c]
  | 0x94 => Some [0x201d] | 0x95 => Some [0x2022]
  | 0x96 => Some [0x2013] | 0x97 => Some [0x2014]
  | 0x98 => Some [0x02dc] | 0x99 => Some [0x2122]
  | 0x9a => Some [0x0161] | 0x9b => Some [0x203a]
  | 0x9c => Some [0x0153] | 0x9d => Some [0x9d]
  | 0x9e => Some [0x017e] | 0x9f => Some [0x0178]
  | _ => None
  end%N.

(** [num in html._invalid_codepoints] *)
Definition _invalid_codepoints (num : N) : bool :=
  bool_decide (0x1 <= num <= 0x8 ∨ 0xe <= num <= 0x1f
               ∨ 0x7f <= num <= 0x9f ∨ 0xfdd0 <= num <= 0xfdef
               ∨ num = 0xb
               ∨ (num <= 0x10ffff
                  ∧ (num mod 0x10000 = 0xfffe ∨ num mod 0x10000 = 0xffff)))%N.

(** The loop [for x in range(len(s)-1, 1, -1)] of [_replace_charref]:
    the longest proper prefix of [s], of at least two characters, that
    names an entity.  [x] counts down from [x0]. *)
Fixpoint longest_entity (E : pyenv) (s : pystr) (x0 : nat) : option pystr :=
  match x0 with
  | 0 => None
  | S x =>
      if bool_decide (1 < x0) then
        match odict_get (take x0 s) (html5 E) with
        | Some r => Some (r ++ drop x0 s)
        | None => longest_entity E s x
        end
      else None
  end.

(** [html._replace_charref], on the captured group; it raises what [int]
    raises. *)
Definition _replace_charref (E : pyenv) (s : pystr) : result pystr :=
  match s with
  | 35%N :: s1 =>
      let* num :=
        match s1 with
        | x :: s2 =>
            if bool_decide (x = 120 ∨ x = 88)%N
            then ret (int_of 16 (rstrip_semicolon s2))
            else int_decimal E (rstrip_semicolon s1)
        | [] => ret 0%N
        end in
      ret match _invalid_charrefs num with
          | Some r => r
          | None =>
              if bool_decide (0xD800 <= num <= 0xDFFF ∨ 0x10FFFF < num)%N
              then [0xFFFD%N]
              else if _invalid_codepoints num then []
              else [num]
          end
  | _ =>
      ret match odict_get s (html5 E) with
          | Some r => r
          | None =>
              match longest_entity E s (length s - 1) with
              | Some r => r
              | None => 38%N :: s
              end
          end
  end.

(** [_charref.sub(_replace_charref, s)], scanning [s] from the left;
    [skip] counts the characters of the last match still to pass.  The
    matches are replaced from left to right, and the first replacement
    that raises ends the call. *)
Fixpoint sub_charref (E : pyenv) (skip : nat) (s : pystr) : result pystr :=
  match s with
  | [] => ret []
  | c :: s' =>
      match skip with
      | S k => sub_charref E k s'
      | 0 =>
          if bool_decide (c = 38%N) then
            match match_charref s' with
            | Some g =>
                let* r := _replace_charref E g in
                let* rest := sub_charref E (length g) s' in
                ret (r ++ rest)
            | None =>
                let* rest := sub_charref E 0 s' in ret (c :: rest)
            end
          else let* rest := sub_charref E 0 s' in ret (c :: rest)
      end
  end.

(** [html.unescape(s)] *)
Definition unescape (E : pyenv) (s : pystr) : result pystr :=
  if bool_decide (38%N ∈ s) then sub_charref E 0 s else ret s.
End html.

(** ** The graph engine (networkx) *)

(** A property dictionary of a node or an edge: [dict[str, str]]. *)
Abbreviation attrs := (odict pystr pystr).

(** An item of [G.edges(data=True)]. *)
Abbreviation edge := (pystr * pystr * attrs)%type.

(** [sorted(l, key=key)] for string keys: a stable sort, so elements with
    equal keys keep their order. *)
Section sorted.
Context {A : Type} (key : A -> pystr).

Fixpoint sorted_insert (x : A) (l : list A) : list A :=
  match l with
  | [] => [x]
  | y :: l' =>
      if str_leb (key x) (key y) then x :: y :: l'
      else y :: sorted_insert x l'
  end.

Definition sorted (l : list A) : list A := foldr sorted_insert [] l.
End sorted.

(** The order in which [sorted(l, key=key)] puts two members. *)
Definition key_le {A} (key : A → pystr) (x y : A) : Prop :=
  str_leb (key x) (key y) = true.

(** A set of strings, kept without repetition. *)
Definition set_add (x : pystr) (s : list pystr) : list pystr :=
  if decide (x ∈ s) then s else s ++ [x].

(** [s.update(l)] *)
Definition set_update (s l : list pystr) : list pystr :=
  foldl (fun s x => set_add x s) s l.

Module nx.
(** [nx.Graph] ([directed = false]) and [nx.DiGraph] ([directed = true]),
    with the dictionaries of the class: [_node], node to properties;
    [_adj], node to neighbour to edge properties (the successors [_succ] of
    a [DiGraph]); [_pred], the predecessors of a [DiGraph] (unused and
    empty in a [Graph]).  In a [Graph] the two entries [_adj[u][v]] and
    [_adj[v][u]] are one shared dictionary; the model keeps them equal. *)
Record Graph : Type := mk {
  directed : bool;
  _node : odict pystr attrs;
  _adj : odict pystr (odict pystr attrs);
  _pred : odict pystr (odict pystr attrs)
}.

(** [nx.Graph()], [nx.DiGraph()] *)
Definition empty (dir : bool) : Graph := mk dir [] [] [].

Definition is_directed (G : Graph) : bool := directed G.

(** [n in G], [G.has_node(n)] *)
Definition has_node (n : pystr) (G : Graph) : bool := odict_mem n (_node G).

(** [G.nodes.get(n)] *)
Definition get_node (n : pystr) (G : Graph) : option attrs :=
  odict_get n (_node G).

(** [G.edges.get((u, v))] *)
Definition get_edge (u v : pystr) (G : Graph) : option attrs :=
  nbrs ← odict_get u (_adj G); odict_get v nbrs.

(** [G.has_edge(u, v)] *)
Definition has_edge (u v : pystr) (G : Graph) : bool :=
  bool_decide (is_Some (get_edge u v G)).

(** [list(G)], [G.nodes()] *)
Definition nodes (G : Graph) : list pystr := (_node G).*1.

(** [G.nodes(data=True)] *)
Definition nodes_data (G : Graph) : list (pystr * attrs) := _node G.

(** The first statements of [add_node] and [add_edge] for a node that is
    not in the graph: [self._adj[n] = {}; self._node[n] = {}] (and
    [self._pred[n] = {}] in a [DiGraph]). *)
Definition new_node (n : pystr) (G : Graph) : Graph :=
  if has_node n G then G
  else mk (directed G)
         (odict_set n [] (_node G))
         (odict_set n [] (_adj G))
         (if directed G then odict_set n [] (_pred G) else _pred G).

(** [G.add_node(n, **attr)] *)
Definition add_node (n : pystr) (attr : attrs) (G : Graph) : Graph :=
  let G := new_node n G in
  mk (directed G)
    (odict_set n (odict_update (default [] (odict_get n (_node G))) attr)
       (_node G))
    (_adj G) (_pred G).

(** [G.add_nodes_from(nodes)] for an iterable of plain nodes. *)
Definition add_nodes_from (ns : list pystr) (G : Graph) : Graph :=
  foldl (fun G n => add_node n [] G) G ns.

(** [G.add_nodes_from(nodes)] for an iterable of [(n, dict)] tuples. *)
Definition add_nodes_from_data (ns : list (pystr * attrs)) (G : Graph)
  : Graph :=
  foldl (fun G nd => add_node nd.1 nd.2 G) G ns.

(** [m[u][v] = dd] in a dictionary of dictionaries that has the key [u]. *)
Definition set2 (u v : pystr) (dd : attrs)
    (m : odict pystr (odict pystr attrs)) : odict pystr (odict pystr attrs) :=
  odict_set u (odict_set v dd (default [] (odict_get u m))) m.

(** [G.add_edge(u, v, **attr)]; one step of [G.add_edges_from] does the
    same with the dictionary of the triple. *)
Definition add_edge (u v : pystr) (attr : attrs) (G : Graph) : Graph :=
  let G := new_node v (new_node u G) in
  let datadict := odict_update (default [] (get_edge u v G)) attr in
  if directed G then
    mk true (_node G) (set2 u v datadict (_adj G))
      (set2 v u datadict (_pred G))
  else
    mk false (_node G) (set2 v u datadict (set2 u v datadict (_adj G)))
      (_pred G).

(** [G.add_edges_from(ebunch)] for triples [(u, v, dict)]. *)
Definition add_edges_from (es : list edge) (G : Graph) : Graph :=
  foldl (fun G e => add_edge e.1.1 e.1.2 e.2 G) G es.

(** [(u, v, dd) for u, nbrs in adj.items() for v, dd in nbrs.items()] *)
Definition adjacency_items (adj : odict pystr (odict pystr attrs))
  : list edge :=
  flat_map (fun un => map (fun vd => (un.1, vd.1, vd.2)) un.2) adj.

(** The iteration of [EdgeDataView] over [_adj] of a [Graph]: an edge is
    reported from the endpoint that comes first; [seen] holds the nodes
    already passed. *)
Fixpoint edges_undirected (seen : list pystr)
    (adj : odict pystr (odict pystr attrs)) : list edge :=
  match adj with
  | [] => []
  | (n, nbrs) :: adj' =>
      map (fun vd => (n, vd.1, vd.2))
        (filter (fun vd => vd.1 ∉ seen) nbrs)
      ++ edges_undirected (n :: seen) adj'
  end.

(** [G.edges(data=True)] *)
Definition edges_data (G : Graph) : list edge :=
  if directed G then adjacency_items (_adj G)
  else edges_undirected [] (_adj G).

(** [G.copy()] *)
Definition copy (G : Graph) : Graph :=
  add_edges_from (adjacency_items (_adj G))
    (add_nodes_from_data (_node G) (empty (directed G))).

(** The keys that a filtered view of [atlas] iterates, for the node
    filter [show_nodes(ns)] ([FilterAtlas.__iter__],
    [FilterAdjacency.__iter__]): when the node set is less than half of
    [atlas], the members of the set in the order of the set; else the keys
    of [atlas] in its own order. *)
Definition filtered_items {A} (E : pyenv) (ns : list pystr)
    (atlas : odict pystr A) : odict pystr A :=
  if bool_decide (2 * length ns < length atlas) then
    omap (fun n => pair n <$> odict_get n atlas) (set_iter E ns)
  else filter (fun kv => kv.1 ∈ ns) atlas.

(** [G.subgraph(ns).copy()]: [Graph.copy] run on the view induced by
    [ns]. *)
Definition subgraph_copy (E : pyenv) (ns : list pystr) (G : Graph) : Graph :=
  add_edges_from
    (adjacency_items
       (map (fun un => (un.1, filter (fun vd => vd.1 ∈ ns) un.2))
          (filtered_items E ns (_adj G))))
    (add_nodes_from_data (filtered_items E ns (_node G))
       (empty (directed G))).

(** [G.remove_node(n)] *)
Definition remove_node (n : pystr) (G : Graph) : Graph :=
  let drop_n (m : odict pystr (odict pystr attrs)) :=
    map (fun un => (un.1, filter (fun vd => vd.1 ≠ n) un.2))
      (filter (fun un => un.1 ≠ n) m) in
  mk (directed G) (filter (fun nd => nd.1 ≠ n) (_node G))
    (drop_n (_adj G)) (drop_n (_pred G)).

(** [G.remove_nodes_from(ns)] *)
Definition remove_nodes_from (ns : list pystr) (G : Graph) : Graph :=
  foldl (fun G n => remove_node n G) G ns.

(** The nodes one step from [v]: [G.adj[v]], and for a [DiGraph]
    [G.succ[v]] and [G.pred[v]]. *)
Definition neighbors (G : Graph) (v : pystr) : list pystr :=
  (default [] (odict_get v (_adj G))).*1
  ++ (if directed G then (default [] (odict_get v (_pred G))).*1 else []).

(** The body of the [for v in thislevel] loop of [_plain_bfs]. *)
Definition bfs_visit (G : Graph) (acc : list pystr * list pystr) (v : pystr)
  : list pystr * list pystr :=
  if decide (v ∈ acc.1) then acc
  else (set_add v acc.1, set_update acc.2 (neighbors G v)).

(** The [while nextlevel] loop of [_plain_bfs]. *)
Fixpoint bfs_levels (fuel : nat) (G : Graph) (seen nextlevel : list pystr)
  : list pystr :=
  match fuel with
  | 0 => seen
  | S fuel' =>
      match nextlevel with
      | [] => seen
      | _ =>
          let acc := foldl (bfs_visit G) (seen, []) nextlevel in
          bfs_levels fuel' G acc.1 acc.2
      end
  end.

(** [_plain_bfs(G, source)]: the set of nodes reachable from [source].
    Every round but the last adds a node, so the loop runs at most once
    more than there are nodes. *)
Definition _plain_bfs (G : Graph) (source : pystr) : list pystr :=
  bfs_levels (2 + length (_node G)) G [] [source].

(** The loop [for v in G: if v not in seen: ...] of
    [connected_components] and [weakly_connected_components]. *)
Fixpoint components_from (G : Graph) (seen : list pystr) (vs : list pystr)
  : list (list pystr) :=
  match vs with
  | [] => []
  | v :: vs' =>
      if decide (v ∈ seen) then components_from G seen vs'
      else
        let c := _plain_bfs G v in
        c :: components_from G (set_update seen c) vs'
  end.

(** [nx.connected_components(G)] for a [Graph],
    [nx.weakly_connected_components(G)] for a [DiGraph]: [neighbors]
    tells them apart. *)
Definition connected_components (G : Graph) : list (list pystr) :=
  components_from G [] (nodes G).

(** [G.degree[n]] for a node [n] ([DegreeView.__getitem__],
    [DiDegreeView.__getitem__]): [len(nbrs) + (n in nbrs)] in a [Graph],
    so that a self-loop counts twice; [len(succs) + len(preds)] in a
    [DiGraph]. *)
Definition degree_of (n : pystr) (G : Graph) : nat :=
  let nbrs := (default [] (odict_get n (_adj G))).*1 in
  if directed G then
    length nbrs + length (default [] (odict_get n (_pred G))).*1
  else length nbrs + (if decide (n ∈ nbrs) then 1 else 0).

(** What [G.degree(n)] gives for a string [n]: the degree, a number, when
    [n] is a node; else a view of the degrees of [nbunch_iter(n)], the
    one-character strings of [n] that are nodes. *)
Inductive degree_result : Type :=
  | Degree (d : nat)
  | DegreeView (nbunch : list pystr).

Definition degree (n : pystr) (G : Graph) : degree_result :=
  if odict_mem n (_adj G) then Degree (degree_of n G)
  else if has_node n G then DegreeView [n]
  else DegreeView (filter (fun c => odict_mem c (_adj G) = true)
                     (map (fun c => [c]) n)).

(** [list(G.edges(n))] for a node [n]: the pairs [(n, nbr)] in the order
    of [G._adj[n]]. *)
Definition edges_of (n : pystr) (G : Graph) : list (pystr * pystr) :=
  map (fun vd => (n, vd.1)) (default [] (odict_get n (_adj G))).

(** [nx.relabel_nodes(G, mapping)] with [copy=True]. *)
Definition relabel_nodes (mapping : odict pystr pystr) (G : Graph) : Graph :=
  let m n := default n (odict_get n mapping) in
  let H := add_nodes_from (map m (nodes G)) (empty (directed G)) in
  let H := mk (directed H)
             (odict_update (_node H)
                (map (fun nd => (m nd.1, nd.2)) (nodes_data G)))
             (_adj H) (_pred H) in
  add_edges_from
    (map (fun e => (m e.1.1, m e.1.2, e.2)) (edges_data G)) H.
End nx.

Module graspologic.
(** [max(components, key=len)]: the first component of maximal size. *)
Fixpoint max_by_len (best : list pystr) (l : list (list pystr))
  : list pystr :=
  match l with
  | [] => best
  | c :: l' =>
      if bool_decide (length best < length c) then max_by_len c l'
      else max_by_len best l'
  end.

Definition py_max_len (l : list (list pystr)) : result (list pystr) :=
  match l with
  | [] => raise ValueError
  | c :: l' => ret (max_by_len c l')
  end.

(** [graspologic.utils.largest_connected_component(graph)] *)
Definition largest_connected_component (E : pyenv) (graph : nx.Graph)
  : result nx.Graph :=
  let* lcc_nodes := py_max_len (nx.connected_components graph) in
  let lcc := nx.subgraph_copy E lcc_nodes graph in
  let lcc :=
    nx.remove_nodes_from
      (filter (fun n => n ∉ lcc_nodes) (nx.nodes lcc)) lcc in
  ret lcc.
End graspologic.

(** ** NetworkXStorage *)

Module NetworkXStorage.
(** [html.unescape(node.upper().strip())] *)
Definition normalize_id (E : pyenv) (node : pystr) : result pystr :=
  html.unescape E (str.strip (str.upper E node)).

Definition _sort_source_target (e : edge) : edge :=
  let '(source, target, edge_data) := e in
  if str_gtb source target then (target, source, edge_data)
  else (source, target, edge_data).

Definition _get_edge_key (source target : pystr) : pystr :=
  source ++ py " -> " ++ target.

(** [sorted_nodes] of [_stabilize_graph]. *)
Definition sorted_nodes (graph : nx.Graph) : list (pystr * attrs) :=
  sorted (fun x => x.1) (nx.nodes_data graph).

(** [edges] of [_stabilize_graph], as handed to [add_edges_from]. *)
Definition sorted_edges (graph : nx.Graph) : list edge :=
  let edges := nx.edges_data graph in
  let edges :=
    if negb (nx.is_directed graph) then map _sort_source_target edges
    else edges in
  sorted (fun x => _get_edge_key x.1.1 x.1.2) edges.

Definition _stabilize_graph (graph : nx.Graph) : nx.Graph :=
  let fixed_graph := nx.empty (nx.is_directed graph) in
  let fixed_graph :=
    nx.add_nodes_from_data (sorted_nodes graph) fixed_graph in
  nx.add_edges_from (sorted_edges graph) fixed_graph.

(** [node_mapping] of [stable_largest_connected_component]: the ids are
    normalized in the order of the nodes, and the first that raises ends
    the comprehension. *)
Definition node_mapping (E : pyenv) (graph : nx.Graph)
  : result (odict pystr pystr) :=
  let* items :=
    mapM (fun node => let* id := normalize_id E node in ret (node, id))
      (nx.nodes graph) in
  ret (odict_of_items items).

Definition stable_largest_connected_component (E : pyenv)
    (graph : nx.Graph) : result nx.Graph :=
  let graph := nx.copy graph in
  let* graph := graspologic.largest_connected_component E graph in
  let* node_mapping := node_mapping E graph in
  let graph := nx.relabel_nodes node_mapping graph in
  ret (_stabilize_graph graph).

(** The methods of a storage object, on [self._graph]. *)
Definition has_node (node_id : pystr) (_graph : nx.Graph) : bool :=
  nx.has_node node_id _graph.

Definition has_edge (source_node_id target_node_id : pystr)
    (_graph : nx.Graph) : bool :=
  nx.has_edge source_node_id target_node_id _graph.

Definition get_node (node_id : pystr) (_graph : nx.Graph) : option attrs :=
  nx.get_node node_id _graph.

Definition get_edge (source_node_id target_node_id : pystr)
    (_graph : nx.Graph) : option attrs :=
  nx.get_edge source_node_id target_node_id _graph.

(** [add_node(node_id, **node_data)] and
    [add_edge(source, target, **edge_data)]: the properties are passed as
    keyword arguments, and Python refuses, with [TypeError] and before the
    method runs, a keyword that names a parameter already given by
    position: [self] and [node_for_adding] for [add_node], [self],
    [u_of_edge] and [v_of_edge] for [add_edge].  [keyword_clash] is that
    test. *)
Definition keyword_clash (params : list pystr) (kwargs : attrs) : bool :=
  existsb (fun p => odict_mem p kwargs) params.

(** [upsert_node] and [upsert_edge] give the graph after the call; a call
    that raises leaves [self._graph] as it was. *)
Definition upsert_node (node_id : pystr) (node_data : attrs)
    (_graph : nx.Graph) : result nx.Graph :=
  if keyword_clash [py "self"; py "node_for_adding"] node_data
  then raise TypeError
  else ret (nx.add_node node_id node_data _graph).

Definition upsert_edge (source_node_id target_node_id : pystr)
    (edge_data : attrs) (_graph : nx.Graph) : result nx.Graph :=
  if keyword_clash [py "self"; py "u_of_edge"; py "v_of_edge"] edge_data
  then raise TypeError
  else ret (nx.add_edge source_node_id target_node_id edge_data _graph).

Definition node_degree (node_id : pystr) (_graph : nx.Graph)
  : nx.degree_result :=
  nx.degree node_id _graph.

(** [self._graph.degree(src_id) + self._graph.degree(tgt_id)]: [+] is
    defined for two numbers, not for a degree view. *)
Definition edge_degree (src_id tgt_id : pystr) (_graph : nx.Graph)
  : result nat :=
  match nx.degree src_id _graph, nx.degree tgt_id _graph with
  | nx.Degree d1, nx.Degree d2 => ret (d1 + d2)
  | _, _ => raise TypeError
  end.

Definition get_node_edges (source_node_id : pystr) (_graph : nx.Graph)
  : option (list (pystr * pystr)) :=
  if nx.has_node source_node_id _graph
  then Some (nx.edges_of source_node_id _graph)
  else None.

Section embed_nodes.
(** [graspologic.embed.node2vec_embed(graph, **node2vec_params)]: the
    matrix of embeddings and the list of the nodes it embedded; a library
    outside the repository. *)
Context {embeddings : Type}.
Variable node2vec_embed : nx.Graph -> result (embeddings * list pystr).

(** [self._graph.nodes[node_id]["id"]] *)
Definition node_id_property (_graph : nx.Graph) (node_id : pystr)
  : result pystr :=
  match nx.get_node node_id _graph with
  | None => raise KeyError
  | Some props =>
      match odict_get (py "id") props with
      | None => raise KeyError
      | Some id => ret id
      end
  end.

Definition _node2vec_embed (_graph : nx.Graph)
  : result (embeddings * list pystr) :=
  let* r := node2vec_embed _graph in
  let* nodes_ids := mapM (node_id_property _graph) r.2 in
  ret (r.1, nodes_ids).

(** [self._node_embed_algorithms] has the one key ["node2vec"]. *)
Definition embed_nodes (algorithm : pystr) (_graph : nx.Graph)
  : result (embeddings * list pystr) :=
  if bool_decide (algorithm ∉ [py "node2vec"]) then raise ValueError
  else _node2vec_embed _graph.
End embed_nodes.
End NetworkXStorage.


(** ** Inputs used in the examples below *)

Module examples.
(** Three records and an embedding function [embed(s) = len(s)]. *)
Definition records3 : odict pystr (odict pystr pystr) :=
  [(py "k1", [(py "content", py "a")]);
   (py "k2", [(py "content", py "bb")]);
   (py "k3", [(py "content", py "ccc")])].

Definition embed_len (batch : list pystr) : result (list nat) :=
  ret (map length batch).

(** An embedding function that fails on a batch of fewer than two
    strings. *)
Definition embed_pairs_only (batch : list pystr) : result (list nat) :=
  if bool_decide (length batch < 2) then raise EmbeddingFailure
  else ret (map length batch).

(** Two records, ["a"] with content ["x"] and ["b"] with content ["yy"]. *)
Definition records_ab : odict pystr (odict pystr pystr) :=
  [(py "a", [(py "content", py "x")]);
   (py "b", [(py "content", py "yy")])].

(** A record with two further fields, and a record without [content]. *)
Definition records_meta : odict pystr (odict pystr pystr) :=
  [(py "k1", [(py "content", py "a"); (py "entity_name", py "X");
              (py "source_id", py "s1")])].

Definition records_no_content : odict pystr (odict pystr pystr) :=
  [(py "k1", [(py "content", py "a")]);
   (py "k2", [(py "entity_name", py "X")])].

(** An embedding function that returns one row whatever the batch. *)
Definition embed_one_row (batch : list pystr) : result (list nat) :=
  ret [0].

(** A vector client that counts its [upsert] calls, and one whose [query]
    returns a fixed hit. *)
Definition counting_upsert (_ : list (odict pystr (dval pystr nat)))
    (c : nat) : unit * nat :=
  (tt, S c).

Definition one_hit (_ : nat) (_ : Z) (_ : unit) (_ : nat)
  : list (odict pystr pystr) :=
  [[(py "__id__", py "k1"); (py "entity_name", py "X");
    (py "__metrics__", py "0.9")]].

(** A Chroma collection that already holds the id ["a"]. *)
Definition chroma_with_a : ChromaDBStorage.state pystr nat :=
  ChromaDBStorage.mk true
    {[py "a" := (ChromaDBStorage.DocContent (py "x"), 1)]}.
End examples.

(** A call of [upsert_node] or [upsert_edge], and a sequence of such calls
    on a graph. *)
Inductive graph_update : Type :=
  | UpsertNode (node_id : pystr) (node_data : attrs)
  | UpsertEdge (source_node_id target_node_id : pystr) (edge_data : attrs).

Definition run_update (c : graph_update) (G : nx.Graph) : result nx.Graph :=
  match c with
  | UpsertNode n d => NetworkXStorage.upsert_node n d G
  | UpsertEdge u v d => NetworkXStorage.upsert_edge u v d G
  end.

(** [self._graph] after the call [c], whether it returned or raised. *)
Definition apply_update (G : nx.Graph) (c : graph_update) : nx.Graph :=
  match run_update c G with
  | inr G' => G'
  | inl _ => G
  end.

Definition apply_updates (cs : list graph_update) (G : nx.Graph) : nx.Graph :=
  foldl apply_update G cs.

(** The call [c] returns: its properties name no parameter of the networkx
    method. *)
Definition accepted (c : graph_update) : bool :=
  match c with
  | UpsertNode _ d =>
      negb (NetworkXStorage.keyword_clash [py "self"; py "node_for_adding"] d)
  | UpsertEdge _ _ d =>
      negb (NetworkXStorage.keyword_clash
              [py "self"; py "u_of_edge"; py "v_of_edge"] d)
  end.

(** The ids that a call names. *)
Definition update_ids (c : graph_update) : list pystr :=
  match c with
  | UpsertNode n _ => [n]
  | UpsertEdge u v _ => [u; v]
  end.

Module graphs.


(** Two components of four nodes each, a path [W - X - Y - Z] upserted
    before a path [A - B - C - D]. *)
Definition wxyz_then_abcd : nx.Graph :=
  apply_updates
    [UpsertEdge (py "W") (py "X") []; UpsertEdge (py "X") (py "Y") [];
     UpsertEdge (py "Y") (py "Z") []; UpsertEdge (py "A") (py "B") [];
     UpsertEdge (py "B") (py "C") []; UpsertEdge (py "C") (py "D") []]
    (nx.empty false).

(** One node, whose id is a numeric character reference of [a]. *)
Definition charref_node : nx.Graph :=
  apply_updates [UpsertNode (py "&#97;") []] (nx.empty false).

(** A weighted edge [a - b] and an isolated node [z]: the edge upserted
    first in [ab_then_z], the node first in [z_then_ab]. *)
Definition ab_then_z : nx.Graph :=
  apply_updates
    [UpsertEdge (py "a") (py "b") [(py "weight", py "1")];
     UpsertNode (py "z") []]
    (nx.empty false).

Definition z_then_ab : nx.Graph :=
  apply_updates
    [UpsertNode (py "z") [];
     UpsertEdge (py "a") (py "b") [(py "weight", py "1")]]
    (nx.empty false).


(** The graph of the single weighted edge [A - B], nodes and neighbours in
    ascending order. *)
Definition AB_weighted : nx.Graph :=
  nx.mk false
    [(py "A", []); (py "B", [])]
    [(py "A", [(py "B", [(py "weight", py "1")])]);
     (py "B", [(py "A", [(py "weight", py "1")])])]
    [].
End graphs.

(** ** The normalization as the specification words it *)

(** "HTML-unescape, then uppercase, then strip surrounding whitespace":
    [strip(uppercase(html_unescape(id)))], to compare with [normalize_id]. *)
Definition normalized_as_specified (E : pyenv) (id : pystr)
  : result pystr :=
  let* id := html.unescape E id in
  ret (str.strip (str.upper E id)).

(** ** Graphs as networkx holds them, and what they hold *)

(** [m[u][v]] when both keys are there. *)
Definition adj_get (m : odict pystr (odict pystr attrs)) (u v : pystr)
  : option attrs :=
  nbrs ← odict_get u m; odict_get v nbrs.

(** The invariants of the dictionaries of a [Graph] or [DiGraph] object:
    every dictionary has each key once; [_adj] (and [_pred] of a [DiGraph])
    has the keys of [_node], in the same order; a neighbour is a node; an
    undirected edge is stored under both endpoints with the same
    properties; the predecessors of a [DiGraph] mirror its successors. *)
Record wf (G : nx.Graph) : Prop := mk_wf {
  wf_nodes : NoDup (nx.nodes G);
  wf_adj_keys : (nx._adj G).*1 = nx.nodes G;
  wf_adj_inner : ∀ u nbrs, odict_get u (nx._adj G) = Some nbrs → NoDup nbrs.*1;
  wf_adj_closed : ∀ u v, is_Some (nx.get_edge u v G) → v ∈ nx.nodes G;
  wf_undirected :
    nx.directed G = false →
    (∀ u v, nx.get_edge v u G = nx.get_edge u v G) ∧ nx._pred G = [];
  wf_directed :
    nx.directed G = true →
    (nx._pred G).*1 = nx.nodes G
    ∧ (∀ u nbrs, odict_get u (nx._pred G) = Some nbrs → NoDup nbrs.*1)
    ∧ (∀ u v, adj_get (nx._pred G) v u = nx.get_edge u v G);
  wf_node_attrs : ∀ n a, nx.get_node n G = Some a → NoDup a.*1;
  wf_edge_attrs : ∀ u v d, nx.get_edge u v G = Some d → NoDup d.*1
}.

(** Two graphs hold the same nodes and edges with the same properties,
    whatever the order in which they were inserted. *)
Definition same_content (G G' : nx.Graph) : Prop :=
  nx.directed G = nx.directed G'
  ∧ (∀ n, nx.get_node n G = nx.get_node n G')
  ∧ (∀ u v, nx.get_edge u v G = nx.get_edge u v G').

(** [same_content] as a test over the nodes of the two graphs. *)
Definition same_content_b (G G' : nx.Graph) : bool :=
  let ns := nx.nodes G ++ nx.nodes G' in
  bool_decide (nx.directed G = nx.directed G')
  && forallb (fun n => bool_decide (nx.get_node n G = nx.get_node n G')) ns
  && forallb (fun u =>
       forallb (fun v => bool_decide (nx.get_edge u v G = nx.get_edge u v G'))
         ns) ns.

(** [v] is one step from [u]; [connected]: some path leads from [u] to
    [v]. *)
Definition adjacent (G : nx.Graph) (u v : pystr) : Prop :=
  v ∈ nx.neighbors G u.

Definition connected (G : nx.Graph) : pystr → pystr → Prop :=
  rtc (adjacent G).

(** [v] comes before [u] in the list [l]. *)
Definition comes_before (l : list pystr) (v u : pystr) : Prop :=
  ∃ pre post, l = pre ++ u :: post ∧ v ∈ pre.

(** The edges of [_stabilize_graph] before they are sorted. *)
Definition oriented_edges (graph : nx.Graph) : list edge :=
  if negb (nx.is_directed graph)
  then map NetworkXStorage._sort_source_target (nx.edges_data graph)
  else nx.edges_data graph.

(** The sort key of an edge in [_stabilize_graph]. *)
Definition edge_key (e : edge) : pystr :=
  NetworkXStorage._get_edge_key e.1.1 e.1.2.

(** [s <= t] on [str]. *)
Definition str_le (s t : pystr) : Prop := str_leb s t = true.

(** The neighbours of [u] in the order in which [m[u]] holds them. *)
Definition nbr_keys (m : odict pystr (odict pystr attrs)) (u : pystr)
  : list pystr :=
  (default [] (odict_get u m)).*1.

(** In a graph whose nodes are in ascending order, the neighbours [v] of
    [u] for which [G.edges] reports the edge as [(u, v)]: all of them in a
    [DiGraph], those not below [u] in a [Graph]. *)
Definition reported (dir : bool) (u v : pystr) : bool := dir || str_leb u v.

(** While the edges [es] are being inserted: the neighbours of [u] from
    which edges are reported are in ascending order, and none is above the
    target of an edge from [u] still to be inserted. *)
Definition node_inv (dir : bool) (u : pystr) (l : list pystr)
    (es : list edge) : Prop :=
  StronglySorted str_le (filter (fun v => reported dir u v = true) l)
  ∧ ∀ v e, v ∈ l → reported dir u v = true → e ∈ es → e.1.1 = u →
           str_le v e.1.2.

Definition adj_inv (dir : bool) (m : odict pystr (odict pystr attrs))
    (es : list edge) : Prop :=
  ∀ u, node_inv dir u (nbr_keys m u) es.

(** Edges in ascending order of source, and of target for one source. *)
Definition edge_le (e e' : edge) : Prop :=
  str_le e.1.1 e'.1.1 ∧ (e.1.1 = e'.1.1 → str_le e.1.2 e'.1.2).

(** Two graphs read the same: [G.nodes(data=True)] and
    [G.edges(data=True)] give the same sequences. *)
Definition same_sequences (G G' : nx.Graph) : Prop :=
  nx.directed G = nx.directed G'
  ∧ nx.nodes_data G = nx.nodes_data G'
  ∧ nx.edges_data G = nx.edges_data G'.

(** A string of ASCII characters without [&]. *)
Definition plain_ascii (s : pystr) : Prop :=
  Forall (fun c => (c < 128)%N ∧ c ≠ 38%N) s.

(** A string of ASCII characters without [&] and without lower-case
    letters. *)
Definition upper_plain (s : pystr) : Prop :=
  Forall (fun c => (c < 128)%N ∧ c ≠ 38%N ∧ ¬ (97 ≤ c ≤ 122)%N) s.

(** [mapping.get(n, n)] *)
Definition mapping_get (mapping : odict pystr pystr) (n : pystr) : pystr :=
  default n (odict_get n mapping).

Module env.
(** An interpreter whose sets iterate in the reverse of the order in which
    the model lists their members, with a few entries of the entity table,
    no case mapping outside ASCII, and the limit of 4300 digits that
    [int] has by default. *)
Definition reversed : pyenv :=
  mk_pyenv
    [(py "amp;", py "&"); (py "amp", py "&"); (py "AMP;", py "&");
     (py "AMP", py "&"); (py "lt;", py "<"); (py "LT;", py "<");
     (py "gt;", py ">"); (py "GT;", py ">"); (py "quot;", [34%N]);
     (py "QUOT;", [34%N])]
    (fun c => [c])
    reverse
    reverse_Permutation
    4300.
End env.

(** * Properties *)


(** ** Record stores *)

Section record_stores.
Context {V : Type}.
Implicit Types data _data : gmap pystr V.

Lemma json_upsert_returned data _data k :
  (JsonKVStorage.upsert data _data).2 !! k
  = if decide (k ∈ dom _data) then None else data !! k.
Proof.
  unfold JsonKVStorage.upsert; simpl.
  destruct (decide (k ∈ dom _data)) as [Hin|Hout].
  - apply map_lookup_filter_None. right. intros x _ Hx. by apply Hx.
  - destruct (data !! k) as [v|] eqn:Hk.
    + apply map_lookup_filter_Some. done.
    + apply map_lookup_filter_None. by left.
Qed.

Lemma json_upsert_stored data _data k :
  (JsonKVStorage.upsert data _data).1 !! k
  = match _data !! k with Some v => Some v | None => data !! k end.
Proof.
  pose proof (json_upsert_returned data _data k) as Hret.
  unfold JsonKVStorage.upsert in *; simpl in *.
  rewrite lookup_union, Hret.
  destruct (decide (k ∈ dom _data)) as [Hin|Hout].
  - apply elem_of_dom in Hin as [v ->]. done.
  - apply not_elem_of_dom in Hout. rewrite Hout.
    by destruct (data !! k).
Qed.

Lemma json_upsert_dom data _data :
  dom (JsonKVStorage.upsert data _data).2 = dom data ∖ dom _data.
Proof.
  apply set_eq. intros k. split.
  - intros Hk. apply elem_of_dom in Hk as [v Hv].
    rewrite json_upsert_returned in Hv.
    destruct (decide (k ∈ dom _data)); [done|].
    apply elem_of_difference. split; [|done]. apply elem_of_dom. by exists v.
  - intros [Hd Hn]%elem_of_difference. apply elem_of_dom in Hd as [v Hv].
    apply elem_of_dom. exists v. rewrite json_upsert_returned.
    by destruct (decide (k ∈ dom _data)).
Qed.

Lemma duckdb_table_after data table k :
  map_fold DuckDBStorage.insert_or_update table data !! k
  = match data !! k with Some v => Some v | None => table !! k end.
Proof.
  revert k.
  apply (map_fold_weak_ind
           (fun r (m : gmap pystr V) => ∀ k, r !! k
              = match m !! k with Some v => Some v | None => table !! k end)).
  - intros k. by rewrite lookup_empty.
  - intros i x m r Hi IH k. unfold DuckDBStorage.insert_or_update.
    destruct (decide (i = k)) as [->|Hne].
    + by rewrite !lookup_insert_eq.
    + rewrite !lookup_insert_ne by done. apply IH.
Qed.

Lemma duckdb_filter_keys_all (l : list pystr) (s : DuckDBStorage.state V) :
  DuckDBStorage.filter_keys l s = list_to_set l.
Proof.
  unfold DuckDBStorage.filter_keys. f_equal.
  assert (Hno : ∀ x, DuckDBStorage.in_data x s = false).
  { intros x. unfold DuckDBStorage.in_data.
    induction (DuckDBStorage._data s) as [|r rs IH]; simpl; [done|exact IH]. }
  induction l as [|x l IH]; [done|].
  rewrite filter_cons. rewrite Hno. simpl.
  destruct (decide (true = true)); [|done]. by rewrite IH.
Qed.

Lemma duckdb_upsert_returned data (s : DuckDBStorage.state V) :
  (DuckDBStorage.upsert data s).2 = ∅.
Proof.
  unfold DuckDBStorage.upsert; simpl.
  rewrite duckdb_filter_keys_all.
  apply map_eq. intros k. rewrite lookup_empty.
  apply map_lookup_filter_None.
  destruct (data !! k) as [v|] eqn:Hk; [right|by left].
  intros x Hx Hnot. apply Hnot. simpl.
  apply elem_of_list_to_set, list_elem_of_fmap.
  exists (k, x). split; [done|]. apply elem_of_map_to_list. congruence.
Qed.
End record_stores.

(** C2, the claim as amended.  [JsonKVStorage.upsert] is insert-only: a key
    that was stored keeps its value, a key that was not is stored with the
    value of the call, and the returned mapping holds exactly the entries of
    the call whose keys were not stored; so after upserting [K1] and then
    [K2] the second call returns the keys of [K2] that are neither in [K1]
    nor were stored before, and the keys of both keep what the first call
    left.  [DuckDBStorage.upsert] inserts or updates: afterwards every key
    of the call holds the value of the call, and every other key holds what
    it held. *)
Theorem C2_record_store_upsert {V : Type} (data _data K1 K2 : gmap pystr V)
    (s : DuckDBStorage.state V) :
  (∀ k v, _data !! k = Some v →
          (JsonKVStorage.upsert data _data).1 !! k = Some v)
  ∧ (∀ k, _data !! k = None →
          (JsonKVStorage.upsert data _data).1 !! k = data !! k)
  ∧ dom (JsonKVStorage.upsert data _data).2 = dom data ∖ dom _data
  ∧ (JsonKVStorage.upsert data _data).2 ⊆ data
  ∧ dom (JsonKVStorage.upsert K2 (JsonKVStorage.upsert K1 _data).1).2
    = dom K2 ∖ (dom K1 ∪ dom _data)
  ∧ (∀ k, k ∈ dom K1 → k ∈ dom K2 →
          (JsonKVStorage.upsert K2 (JsonKVStorage.upsert K1 _data).1).1 !! k
          = (JsonKVStorage.upsert K1 _data).1 !! k)
  ∧ (∀ k v, data !! k = Some v →
            DuckDBStorage.kv_store (DuckDBStorage.upsert data s).1 !! k
            = Some v)
  ∧ (∀ k, data !! k = None →
          DuckDBStorage.kv_store (DuckDBStorage.upsert data s).1 !! k
          = DuckDBStorage.kv_store s !! k).
Proof.
  repeat split.
  - intros k v Hk. by rewrite json_upsert_stored, Hk.
  - intros k Hk. by rewrite json_upsert_stored, Hk.
  - apply json_upsert_dom.
  - apply map_filter_subseteq.
  - rewrite json_upsert_dom. f_equal.
    apply set_eq. intros k. rewrite elem_of_union. split.
    + intros Hk. apply elem_of_dom in Hk as [v Hv].
      rewrite json_upsert_stored in Hv.
      destruct (_data !! k) eqn:Hd.
      * right. apply elem_of_dom. by eexists.
      * left. apply elem_of_dom. by eexists.
    + intros Hk. apply elem_of_dom. rewrite json_upsert_stored.
      destruct (_data !! k) eqn:Hd; [by eexists|].
      destruct Hk as [Hk|Hk]; apply elem_of_dom in Hk as [v Hv];
        [by exists v|congruence].
  - intros k Hk1 Hk2. rewrite (json_upsert_stored K2).
    destruct ((JsonKVStorage.upsert K1 _data).1 !! k) eqn:Hst; [done|].
    rewrite json_upsert_stored in Hst.
    apply elem_of_dom in Hk1 as [v Hv]. rewrite Hv in Hst.
    by destruct (_data !! k).
  - intros k v Hk. unfold DuckDBStorage.upsert; simpl.
    by rewrite duckdb_table_after, Hk.
  - intros k Hk. unfold DuckDBStorage.upsert; simpl.
    by rewrite duckdb_table_after, Hk.
Qed.

(** C2 as stated fails for [DuckDBStorage]: with ["k"] stored as ["old"], an
    upsert of ["k"] as ["new"] and of the new key ["n"] leaves ["k"] stored as
    ["new"], and returns a mapping without ["n"]. *)
Lemma C2_duckdb_overwrites_counterexample :
  DuckDBStorage.kv_store
    (DuckDBStorage.upsert
       (<[py "k" := py "new"]> {[py "n" := py "x"]})
       (DuckDBStorage.mk {[py "k" := py "old"]} [(py "k", py "old")])).1
    !! py "k" = Some (py "new")
  ∧ (DuckDBStorage.upsert
       (<[py "k" := py "new"]> {[py "n" := py "x"]})
       (DuckDBStorage.mk {[py "k" := py "old"]} [(py "k", py "old")])).2
    !! py "n" = None.
Proof.
  split.
  - unfold DuckDBStorage.upsert; simpl.
    rewrite duckdb_table_after. by rewrite lookup_insert_eq.
  - by rewrite duckdb_upsert_returned.
Qed.

(** ** Insertion-ordered dictionaries *)

Section odict_facts.
Context {K V : Type} `{EqDecision K}.
Implicit Types d : odict K V.

Lemma odict_get_set_eq k v d : odict_get k (odict_set k v d) = Some v.
Proof.
  induction d as [|[k' v'] d IH]; simpl.
  - by destruct (decide (k = k)).
  - destruct (decide (k' = k)) as [->|Hne]; simpl.
    + by destruct (decide (k = k)).
    + by destruct (decide (k' = k)).
Qed.

Lemma odict_get_set_ne k k' v d :
  k ≠ k' → odict_get k' (odict_set k v d) = odict_get k' d.
Proof.
  intros Hne. induction d as [|[k1 v1] d IH]; simpl.
  - by destruct (decide (k = k')).
  - destruct (decide (k1 = k)) as [->|Hne1]; simpl.
    + by destruct (decide (k = k')).
    + destruct (decide (k1 = k')); [done|apply IH].
Qed.

Lemma odict_get_Some_elem k v d : odict_get k d = Some v → (k, v) ∈ d.
Proof.
  induction d as [|[k1 v1] d IH]; simpl; [done|].
  destruct (decide (k1 = k)) as [->|Hne].
  - intros [= ->]. left.
  - intros H. right. by apply IH.
Qed.

Lemma odict_get_None k d : odict_get k d = None ↔ k ∉ d.*1.
Proof.
  induction d as [|[k1 v1] d IH]; simpl.
  - split; [intros _; apply not_elem_of_nil|done].
  - destruct (decide (k1 = k)) as [->|Hne].
    + split; [done|]. intros H. exfalso. apply H. left.
    + rewrite IH, not_elem_of_cons. split; [by split|by intros [_ ?]].
Qed.

Lemma odict_get_is_Some k d : is_Some (odict_get k d) ↔ k ∈ d.*1.
Proof.
  destruct (odict_get k d) eqn:Hg.
  - split; [intros _|by eauto].
    apply odict_get_Some_elem in Hg.
    apply list_elem_of_fmap. by exists (k, v).
  - split; [by intros [? ?]|]. intros Hin.
    by apply odict_get_None in Hg.
Qed.

Lemma odict_mem_true k d : odict_mem k d = true ↔ k ∈ d.*1.
Proof. unfold odict_mem. by rewrite bool_decide_eq_true. Qed.

Lemma odict_mem_false k d : odict_mem k d = false ↔ k ∉ d.*1.
Proof. unfold odict_mem. by rewrite bool_decide_eq_false. Qed.
End odict_facts.

(** ** The batched embedding protocol *)

Section mapM_facts.
Context {A B : Type}.

Lemma mapM_ret (f : A → result B) (g : A → B) l :
  (∀ x, x ∈ l → f x = ret (g x)) → mapM f l = ret (map g l).
Proof.
  induction l as [|x l IH]; intros Hf; simpl; [done|].
  rewrite (Hf x) by left. simpl.
  rewrite IH; [done|]. intros y Hy. apply Hf. by right.
Qed.

Lemma mapM_raise (f : A → result B) l x e :
  x ∈ l → f x = raise e → ∃ e', mapM f l = raise e'.
Proof.
  induction l as [|y l IH]; intros Hin Hx; [by apply elem_of_nil in Hin|].
  simpl. destruct (f y) as [e1|b] eqn:Hy; [by exists e1|].
  apply elem_of_cons in Hin as [->|Hin]; [unfold raise in Hx; congruence|].
  destruct (IH Hin Hx) as [e' He']. exists e'. simpl. by rewrite He'.
Qed.
End mapM_facts.

Lemma mapM_total {A B} (f : A → result B) (l : list A) :
  Forall (fun x => ∃ y, f x = ret y) l →
  ∃ out, mapM f l = ret out ∧ length out = length l
         ∧ ∀ i x, l !! i = Some x → ∃ y, out !! i = Some y ∧ f x = ret y.
Proof.
  induction 1 as [|x l [y Hy] _ (out & Hout & Hl & Hi)]; simpl.
  - exists []. split; [done|]. split; [done|]. by intros i x ?.
  - rewrite Hy, Hout. simpl. exists (y :: out). split; [done|].
    split; [simpl; lia|]. intros [|i] x' Hx; simpl in *.
    + injection Hx as <-. by exists y.
    + by apply Hi.
Qed.

Lemma mapM_first_error {A B} (f : A → result B) (l : list A) x ex :
  x ∈ l → f x = raise ex → (∀ x' ex', f x' = raise ex' → ex' = ex) →
  mapM f l = raise ex.
Proof.
  intros Hin Hx Hall. induction l as [|x' l IH]; [by apply elem_of_nil in Hin|].
  simpl. destruct (f x') as [ex'|y] eqn:Hf; simpl.
  - unfold raise. f_equal. by apply (Hall x').
  - apply elem_of_cons in Hin as [->|Hin].
    + unfold raise, ret in *. congruence.
    + by rewrite IH.
Qed.

Lemma mapM_ret_inv {A B} (f : A → result B) (l : list A) out :
  mapM f l = ret out → Forall2 (fun x y => f x = ret y) l out.
Proof.
  revert out. induction l as [|x l IH]; intros out; simpl.
  - intros [= <-]. constructor.
  - destruct (f x) as [e|y] eqn:Hx; [done|]. simpl.
    destruct (mapM f l) as [e|ys]; [done|]. simpl. intros [= <-].
    constructor; [done|]. by apply IH.
Qed.

Lemma mapM_raise_inv {A B} (f : A → result B) (l : list A) ex :
  mapM f l = raise ex → ∃ x, x ∈ l ∧ f x = raise ex.
Proof.
  induction l as [|x l IH]; simpl; [done|].
  destruct (f x) as [e|y] eqn:Hx; simpl.
  - intros [= ->]. exists x. split; [left|done].
  - destruct (mapM f l) as [e|ys]; simpl; [|done].
    intros [= ->]. destruct IH as (x' & Hin & Hx'); [done|].
    exists x'. split; [by right|done].
Qed.

Section batches.
Context {F : Type}.

Lemma chunks_concat (st : nat) (l : list F) k :
  concat (map (fun i => py_slice l i (i + st))
            (map (fun j => j * st) (seq 0 k)))
  = take (k * st) l.
Proof.
  induction k as [|k IH]; [done|].
  rewrite seq_S, !map_app, concat_app, IH. simpl.
  unfold py_slice. rewrite app_nil_r.
  replace (k * st + st - k * st) with st by lia.
  rewrite take_take_drop. f_equal. lia.
Qed.

Lemma chunks_cover (st n : nat) : 0 < st → n ≤ (n + st - 1) / st * st.
Proof.
  intros Hst.
  pose proof (Nat.div_mod_eq (n + st - 1) st) as Hdm.
  pose proof (Nat.mod_upper_bound (n + st - 1) st) as Hub.
  lia.
Qed.

Lemma make_batches_ok (bs : Z) (contents : list F) :
  (0 < bs)%Z →
  make_batches bs contents
  = ret (map (fun j => take (Z.to_nat bs) (drop (j * Z.to_nat bs) contents))
           (seq 0 ((length contents + Z.to_nat bs - 1) / Z.to_nat bs))).
Proof.
  intros Hbs. unfold make_batches, py_range0.
  rewrite bool_decide_eq_false_2 by lia.
  rewrite bool_decide_eq_false_2 by lia.
  simpl. unfold ret. f_equal. rewrite map_map.
  apply map_ext. intros j. unfold py_slice. f_equal. lia.
Qed.

Lemma make_batches_concat (bs : Z) (contents : list F) bl :
  (0 < bs)%Z → make_batches bs contents = ret bl → concat bl = contents.
Proof.
  intros Hbs. unfold make_batches, py_range0.
  rewrite bool_decide_eq_false_2 by lia.
  rewrite bool_decide_eq_false_2 by lia.
  simpl. intros [= <-]. rewrite chunks_concat.
  apply take_ge, chunks_cover. lia.
Qed.
End batches.

Section vector_upsert.
Context {F vec : Type}.
Implicit Types data : odict pystr (odict pystr F).

Lemma make_contents_Forall2 data contents :
  make_contents data = ret contents ↔
  Forall2 (fun kv c => odict_get (py "content") kv.2 = Some c) data contents.
Proof.
  revert contents. induction data as [|[k v] data IH]; intros contents.
  - simpl. split.
    + intros [= <-]. constructor.
    + intros H. by inversion H.
  - unfold make_contents in *. simpl.
    destruct (odict_get (py "content") v) as [c|] eqn:Hc; simpl.
    + destruct (mapM _ data) as [e|cs] eqn:Hm; simpl.
      * split; [done|]. intros H. inversion H as [|? ? ? ? ? Hf]; subst.
        apply IH in Hf. done.
      * split.
        -- intros [= <-]. constructor; [done|]. by apply IH.
        -- intros H. inversion H as [|? ? ? ? Hx Hf]; subst.
           apply IH in Hf. simpl in Hx. unfold ret in *. congruence.
    + split; [done|]. intros H. inversion H as [|? ? ? ? Hx Hf]; subst.
      simpl in Hx. congruence.
Qed.

Lemma make_contents_total data :
  Forall (fun kv => is_Some (odict_get (py "content") kv.2)) data →
  ∃ contents, make_contents data = ret contents.
Proof.
  induction 1 as [|[k v] data [c Hc] _ [cs IH]].
  - by exists [].
  - exists (c :: cs). apply make_contents_Forall2. constructor; [done|].
    by apply make_contents_Forall2.
Qed.

Lemma attach_vectors_ok i (list_data : list (odict pystr (dval F vec)))
    (embeddings : list vec) :
  i + length list_data ≤ length embeddings →
  ∃ out, attach_vectors i list_data embeddings = ret out
    ∧ length out = length list_data
    ∧ ∀ j d, list_data !! j = Some d →
        ∃ e, embeddings !! (i + j) = Some e
          ∧ out !! j = Some (odict_set (py "__vector__") (DVector e) d).
Proof.
  revert i. induction list_data as [|d ds IH]; intros i Hlen.
  - exists []. by repeat split.
  - simpl in *. unfold row.
    destruct (lookup_lt_is_Some_2 embeddings i) as [e He]; [lia|].
    rewrite He. simpl.
    destruct (IH (S i)) as (out & Hout & Hl & Hj); [lia|].
    rewrite Hout. simpl. eexists. split; [done|]. split; [simpl; lia|].
    intros [|j] d' Hd; simpl in *.
    + injection Hd as <-. exists e. by rewrite Nat.add_0_r.
    + destruct (Hj j d' Hd) as (e' & He' & Ho).
      exists e'. split; [|done]. by replace (i + S j) with (S i + j) by lia.
Qed.

Lemma embed_contents_ok (e : F → vec) embedding_func bs data contents :
  (0 < bs)%Z → data ≠ [] →
  (∀ batch, embedding_func batch = ret (map e batch)) →
  make_contents data = ret contents →
  embed_contents embedding_func bs data = ret (map e contents).
Proof.
  intros Hbs Hne He Hc. unfold embed_contents. rewrite Hc. simpl.
  rewrite make_batches_ok by done. simpl.
  unfold gather_embeddings.
  rewrite (mapM_ret _ (map e)) by (intros; apply He). simpl.
  pose proof (make_batches_concat bs contents _ Hbs
                (make_batches_ok bs contents Hbs)) as Hcat.
  set (batches := map _ (seq 0 _)) in *.
  unfold np_concatenate.
  destruct batches as [|b batches'] eqn:Hb.
  - simpl in Hcat. subst contents.
    apply make_contents_Forall2 in Hc. inversion Hc. congruence.
  - rewrite <- Hb in *. destruct (map (map e) batches) eqn:Hm.
    + rewrite Hb in Hm. done.
    + rewrite <- Hm. unfold ret. f_equal.
      by rewrite <- concat_map, Hcat.
Qed.
End vector_upsert.



(** C8.  When the embedding function fails on one of the batches of a
    call, [NanoVectorDBStorage.upsert] raises and leaves its client as it
    was; [ChromaDBStorage.upsert] leaves its collection as it was, and
    raises whenever it reaches the embedding step, that is when the
    collection is reachable and some id of the call is not yet in it. *)
Theorem C8_embedding_failure_aborts {F vec : Type}
    (embedding_func : list F → result (list vec)) (meta_fields : list pystr)
    (bs : Z) (data : odict pystr (odict pystr F))
    (contents : list F) (batches : list (list F)) :
  data ≠ [] →
  make_contents data = ret contents →
  make_batches bs contents = ret batches →
  (∃ batch e, batch ∈ batches ∧ embedding_func batch = raise e) →
  (∀ (client report : Type)
     (client_upsert : list (odict pystr (dval F vec)) → client →
                      report * client) (_client : client),
     ∃ e', NanoVectorDBStorage.upsert embedding_func meta_fields bs
             client_upsert data _client = (raise e', _client))
  ∧ (∀ self : ChromaDBStorage.state F vec,
       (ChromaDBStorage.upsert embedding_func meta_fields bs data self).2
       = self)
  ∧ (∀ self : ChromaDBStorage.state F vec,
       ChromaDBStorage.reachable self = true →
       (∃ id, id ∈ data.*1
              ∧ id ∉ ChromaDBStorage.existing_ids
                       (ChromaDBStorage.collection self)) →
       ∃ e', ChromaDBStorage.upsert embedding_func meta_fields bs data self
             = (raise e', self)).
Proof.
  intros Hne Hc Hb (batch & e & Hin & Hfail).
  destruct (mapM_raise embedding_func batches batch e Hin Hfail) as [e' He'].
  assert (Hprep : ∀ c : gmap pystr (ChromaDBStorage.document F vec * vec),
            ChromaDBStorage.upsert_prepare embedding_func bs data c
            = (if bool_decide
                    (length (filter (fun id => id ∉ ChromaDBStorage.existing_ids c)
                               data.*1) = 0)
               then ret (inl data.*1) else raise e')).
  { intros c. unfold ChromaDBStorage.upsert_prepare. rewrite Hc. simpl.
    rewrite Hb. simpl. destruct (bool_decide _); [done|].
    unfold gather_embeddings. rewrite He'. done. }
  split; [|split].
  - intros client report client_upsert _client. exists e'.
    unfold NanoVectorDBStorage.upsert.
    rewrite bool_decide_eq_false_2 by (by destruct data).
    unfold NanoVectorDBStorage.upsert_payload, embed_contents.
    rewrite Hc. simpl. rewrite Hb. simpl.
    unfold gather_embeddings. rewrite He'. done.
  - intros self. unfold ChromaDBStorage.upsert.
    destruct (bool_decide (length data = 0)); [done|].
    destruct (negb (ChromaDBStorage.reachable self)); [done|].
    rewrite Hprep. by destruct (bool_decide _).
  - intros self Hr (id & Hid & Hnew). exists e'.
    unfold ChromaDBStorage.upsert.
    rewrite bool_decide_eq_false_2 by (by destruct data).
    rewrite Hr. simpl. rewrite Hprep.
    rewrite bool_decide_eq_false_2; [done|].
    intros Hlen. apply length_zero_iff_nil in Hlen.
    assert (Hf : id ∈ filter
              (fun id => id ∉ ChromaDBStorage.existing_ids
                                (ChromaDBStorage.collection self)) data.*1)
      by (by apply list_elem_of_filter).
    rewrite Hlen in Hf. by apply elem_of_nil in Hf.
Qed.

(** C8 on three records in batches of two, where the second batch, of a
    single string, fails. *)
Lemma C8_embedding_failure_aborts_witness :
  ∃ e', NanoVectorDBStorage.upsert examples.embed_pairs_only [] 2
          (fun (_ : list (odict pystr (dval pystr nat))) (c : nat) => (tt, S c))
          examples.records3 0
        = (raise e', 0).
Proof.
  refine (proj1 (C8_embedding_failure_aborts examples.embed_pairs_only [] 2
                   examples.records3
                   [py "a"; py "bb"; py "ccc"]
                   [[py "a"; py "bb"]; [py "ccc"]] _ _ _ _) nat unit _ 0).
  - done.
  - reflexivity.
  - reflexivity.
  - exists [py "ccc"], EmbeddingFailure. split; [|reflexivity].
    right. left.
Defined.

(** C9, the code at a failing input.  The collection holds ["a"]; the call
    brings ["a"] (content ["x"]) and ["b"] (content ["yy"]), the embedding of
    a string is its length, and [meta_fields] is not empty.  The call
    returns [[]], and ["b"] is stored with the embedding [1] of ["x"] and the
    document of ["a"], not with the embedding [2] of its own content.  With
    an empty [meta_fields] the same call returns [[]] and stores nothing. *)
Lemma C9_chroma_misaligned_vectors :
  (ChromaDBStorage.upsert examples.embed_len [py "entity_name"] 32
     examples.records_ab examples.chroma_with_a).1 = ret []
  ∧ ChromaDBStorage.collection
      (ChromaDBStorage.upsert examples.embed_len [py "entity_name"] 32
         examples.records_ab examples.chroma_with_a).2 !! py "b"
    = Some (ChromaDBStorage.DocJson [], 1)
  ∧ embed_contents examples.embed_len 32 examples.records_ab = ret [1; 2]
  ∧ ChromaDBStorage.upsert examples.embed_len [] 32
      examples.records_ab examples.chroma_with_a
    = (ret [], examples.chroma_with_a).
Proof. split; [|split; [|split]]; vm_compute; reflexivity. Qed.

Section odict_more.
Context {K V : Type} `{EqDecision K}.
Implicit Types d : odict K V.

Lemma odict_set_fst k v d :
  (odict_set k v d).*1 = if decide (k ∈ d.*1) then d.*1 else d.*1 ++ [k].
Proof.
  induction d as [|[k1 v1] d IH]; csimpl.
  - destruct (decide (k ∈ [])) as [Hin|_]; [by apply elem_of_nil in Hin|done].
  - destruct (decide (k1 = k)) as [->|Hne]; csimpl.
    + rewrite decide_True by left. done.
    + rewrite IH. destruct (decide (k ∈ d.*1)) as [Hin|Hout].
      * rewrite decide_True by (by right). done.
      * rewrite decide_False; [done|].
        rewrite elem_of_cons. intros [?|?]; congruence.
Qed.

Lemma odict_set_elem_fst k k' v d :
  k' ∈ (odict_set k v d).*1 ↔ k' = k ∨ k' ∈ d.*1.
Proof.
  rewrite odict_set_fst. destruct (decide (k ∈ d.*1)).
  - naive_solver.
  - rewrite elem_of_app, list_elem_of_singleton. naive_solver.
Qed.

Lemma odict_set_NoDup k v d : NoDup d.*1 → NoDup (odict_set k v d).*1.
Proof.
  intros Hnd. rewrite odict_set_fst. destruct (decide (k ∈ d.*1)); [done|].
  apply NoDup_app. split; [done|]. split; [|apply NoDup_singleton].
  intros x Hx Hk. apply list_elem_of_singleton in Hk. by subst.
Qed.

Lemma odict_set_new k v d : k ∉ d.*1 → odict_set k v d = d ++ [(k, v)].
Proof.
  induction d as [|[k1 v1] d IH]; simpl; [done|].
  rewrite not_elem_of_cons. intros [Hne Hout].
  rewrite decide_False by done. by rewrite IH.
Qed.

Lemma odict_set_same k v d : odict_get k d = Some v → odict_set k v d = d.
Proof.
  induction d as [|[k1 v1] d IH]; simpl; [done|].
  destruct (decide (k1 = k)) as [->|Hne].
  - by intros [= ->].
  - intros H. by rewrite IH.
Qed.

Lemma odict_get_Some k v d : NoDup d.*1 → odict_get k d = Some v ↔ (k, v) ∈ d.
Proof.
  intros Hnd. split; [apply odict_get_Some_elem|].
  induction d as [|[k1 v1] d IH]; simpl; [by intros ?%elem_of_nil|].
  apply NoDup_cons in Hnd as [Hk1 Hnd].
  intros [Heq|Hin]%elem_of_cons.
  - injection Heq as -> ->. by rewrite decide_True.
  - destruct (decide (k1 = k)) as [->|Hne]; [|by apply IH].
    exfalso. apply Hk1. apply list_elem_of_fmap. by exists (k, v).
Qed.

Lemma odict_get_app k d d' :
  odict_get k (d ++ d')
  = match odict_get k d with Some v => Some v | None => odict_get k d' end.
Proof.
  induction d as [|[k1 v1] d IH]; simpl; [done|].
  by destruct (decide (k1 = k)).
Qed.

Lemma odict_update_nil d : NoDup d.*1 → odict_update [] d = d.
Proof.
  unfold odict_update.
  assert (Hgen : ∀ acc, NoDup (acc ++ d).*1 →
            foldl (fun a kv => odict_set kv.1 kv.2 a) acc d = acc ++ d).
  { induction d as [|[k v] d IH]; intros acc Hnd; simpl.
    - by rewrite app_nil_r.
    - rewrite odict_set_new.
      + rewrite IH; rewrite <- app_assoc; done.
      + rewrite fmap_app in Hnd. apply NoDup_app in Hnd as (_ & Hd & _).
        intros Hin. apply (Hd k Hin). simpl. left. }
  intros Hnd. by apply (Hgen []).
Qed.

Lemma odict_update_NoDup d d' : NoDup d.*1 → NoDup (odict_update d d').*1.
Proof.
  unfold odict_update. revert d. induction d' as [|[k v] d' IH]; intros d Hd.
  - done.
  - simpl. apply IH. by apply odict_set_NoDup.
Qed.

(** Two dictionaries with the same entries hold the same items. *)
Lemma odict_ext_Permutation d d' :
  NoDup d.*1 → NoDup d'.*1 →
  (∀ k, odict_get k d = odict_get k d') → d ≡ₚ d'.
Proof.
  intros Hd Hd' Hext. apply NoDup_Permutation.
  - by eapply NoDup_fmap_1.
  - by eapply NoDup_fmap_1.
  - intros [k v]. rewrite <- !odict_get_Some by done. by rewrite Hext.
Qed.
End odict_more.

(** ** The graph store *)

Section graph_basics.
Implicit Types G : nx.Graph.

Lemma has_node_true n G : nx.has_node n G = true ↔ n ∈ nx.nodes G.
Proof. apply odict_mem_true. Qed.

Lemma has_node_false n G : nx.has_node n G = false ↔ n ∉ nx.nodes G.
Proof. apply odict_mem_false. Qed.

Lemma new_node_directed n G : nx.directed (nx.new_node n G) = nx.directed G.
Proof. unfold nx.new_node. by destruct (nx.has_node n G). Qed.

Lemma new_node_nodes n G :
  nx.nodes (nx.new_node n G)
  = if decide (n ∈ nx.nodes G) then nx.nodes G else nx.nodes G ++ [n].
Proof.
  unfold nx.new_node. destruct (nx.has_node n G) eqn:Hn.
  - apply has_node_true in Hn. by rewrite decide_True.
  - apply has_node_false in Hn. rewrite decide_False by done.
    unfold nx.nodes at 1. simpl. rewrite odict_set_fst.
    by rewrite decide_False.
Qed.

Lemma new_node_has n G : nx.has_node n (nx.new_node n G) = true.
Proof.
  apply has_node_true. rewrite new_node_nodes.
  destruct (decide _); [done|]. apply elem_of_app. right. left.
Qed.

Lemma new_node_keeps n m G :
  nx.has_node m G = true → nx.has_node m (nx.new_node n G) = true.
Proof.
  rewrite !has_node_true, new_node_nodes. intros Hm.
  destruct (decide _); [done|]. apply elem_of_app. by left.
Qed.

Lemma new_node_get_new n G :
  nx.has_node n G = false → nx.get_node n (nx.new_node n G) = Some [].
Proof.
  intros Hn. unfold nx.new_node, nx.get_node. rewrite Hn. simpl.
  apply odict_get_set_eq.
Qed.

Lemma new_node_get_other n m G :
  n ≠ m → nx.get_node m (nx.new_node n G) = nx.get_node m G.
Proof.
  intros Hne. unfold nx.new_node, nx.get_node.
  destruct (nx.has_node n G); [done|]. simpl. by apply odict_get_set_ne.
Qed.

Lemma new_node_get_old n m a G :
  nx.get_node m G = Some a → nx.get_node m (nx.new_node n G) = Some a.
Proof.
  intros Hm. destruct (decide (n = m)) as [->|Hne].
  - unfold nx.new_node. destruct (nx.has_node m G) eqn:Hh; [done|].
    apply has_node_false in Hh. unfold nx.get_node in Hm.
    exfalso. apply Hh. apply odict_get_is_Some. by eexists.
  - by rewrite new_node_get_other.
Qed.

Lemma add_edge_node (u v : pystr) (attr : attrs) G :
  nx._node (nx.add_edge u v attr G) = nx._node (nx.new_node v (nx.new_node u G)).
Proof. unfold nx.add_edge. by destruct (nx.directed _). Qed.

Lemma set2_get u v dd (m : odict pystr (odict pystr attrs)) x y :
  (nbrs ← odict_get x (nx.set2 u v dd m); odict_get y nbrs)
  = if decide (x = u ∧ y = v) then Some dd
    else nbrs ← odict_get x m; odict_get y nbrs.
Proof.
  unfold nx.set2. destruct (decide (u = x)) as [->|Hne].
  - rewrite odict_get_set_eq. simpl.
    destruct (decide (v = y)) as [->|Hne'].
    + rewrite odict_get_set_eq. by rewrite decide_True.
    + rewrite odict_get_set_ne by done.
      rewrite decide_False by (intros [_ ?]; congruence).
      by destruct (odict_get x m).
  - rewrite odict_get_set_ne by done.
    rewrite decide_False by (intros [? _]; congruence). done.
Qed.
End graph_basics.

(** ** The calls of the graph store *)

Lemma upsert_node_accepted n d G :
  NetworkXStorage.keyword_clash [py "self"; py "node_for_adding"] d = false →
  NetworkXStorage.upsert_node n d G = ret (nx.add_node n d G).
Proof. intros Hk. unfold NetworkXStorage.upsert_node. by rewrite Hk. Qed.

Lemma upsert_node_refused n d G :
  NetworkXStorage.keyword_clash [py "self"; py "node_for_adding"] d = true →
  NetworkXStorage.upsert_node n d G = raise TypeError.
Proof. intros Hk. unfold NetworkXStorage.upsert_node. by rewrite Hk. Qed.

Lemma upsert_edge_accepted u v d G :
  NetworkXStorage.keyword_clash [py "self"; py "u_of_edge"; py "v_of_edge"] d
  = false →
  NetworkXStorage.upsert_edge u v d G = ret (nx.add_edge u v d G).
Proof. intros Hk. unfold NetworkXStorage.upsert_edge. by rewrite Hk. Qed.

Lemma upsert_edge_refused u v d G :
  NetworkXStorage.keyword_clash [py "self"; py "u_of_edge"; py "v_of_edge"] d
  = true →
  NetworkXStorage.upsert_edge u v d G = raise TypeError.
Proof. intros Hk. unfold NetworkXStorage.upsert_edge. by rewrite Hk. Qed.

Lemma keyword_clash_true params d :
  NetworkXStorage.keyword_clash params d = true
  ↔ ∃ p, p ∈ params ∧ p ∈ d.*1.
Proof.
  unfold NetworkXStorage.keyword_clash. rewrite existsb_exists.
  split; intros (p & Hp & Hd); exists p.
  - split; [by apply list_elem_of_In|by apply odict_mem_true].
  - split; [by apply list_elem_of_In|by apply odict_mem_true].
Qed.

Lemma keyword_clash_false params d :
  NetworkXStorage.keyword_clash params d = false
  ↔ ∀ k, k ∈ params → k ∉ d.*1.
Proof.
  rewrite <- not_true_iff_false, keyword_clash_true. naive_solver.
Qed.

Lemma apply_update_accepted G c :
  accepted c = true →
  apply_update G c
  = match c with
    | UpsertNode n d => nx.add_node n d G
    | UpsertEdge u v d => nx.add_edge u v d G
    end.
Proof.
  unfold accepted, apply_update, run_update.
  destruct c as [n d|u v d]; intros Hk%negb_true_iff.
  - by rewrite upsert_node_accepted.
  - by rewrite upsert_edge_accepted.
Qed.

Lemma apply_update_refused G c :
  accepted c = false → apply_update G c = G ∧ run_update c G = raise TypeError.
Proof.
  unfold accepted, apply_update, run_update.
  destruct c as [n d|u v d]; intros Hk%negb_false_iff.
  - by rewrite upsert_node_refused.
  - by rewrite upsert_edge_refused.
Qed.

Lemma add_edge_endpoints (a b : pystr) (properties : attrs) (G : nx.Graph) :
  nx.has_node a (nx.add_edge a b properties G) = true
  ∧ nx.has_node b (nx.add_edge a b properties G) = true
  ∧ nx.has_edge a b (nx.add_edge a b properties G) = true
  ∧ (nx.has_node a G = false →
     nx.get_node a (nx.add_edge a b properties G) = Some [])
  ∧ (nx.has_node b G = false →
     nx.get_node b (nx.add_edge a b properties G) = Some [])
  ∧ (∀ n p, nx.get_node n G = Some p →
     nx.get_node n (nx.add_edge a b properties G) = Some p).
Proof.
  assert (Hnode : ∀ n, nx.get_node n (nx.add_edge a b properties G)
                       = nx.get_node n (nx.new_node b (nx.new_node a G))).
  { intros n. unfold nx.get_node. by rewrite add_edge_node. }
  assert (Hhas : ∀ n, nx.has_node n (nx.add_edge a b properties G)
                      = nx.has_node n (nx.new_node b (nx.new_node a G))).
  { intros n. unfold nx.has_node. by rewrite add_edge_node. }
  repeat split.
  - rewrite Hhas. apply new_node_keeps, new_node_has.
  - rewrite Hhas. apply new_node_has.
  - unfold nx.has_edge. apply bool_decide_eq_true.
    unfold nx.get_edge, nx.add_edge.
    destruct (nx.directed _); simpl.
    + rewrite set2_get. rewrite decide_True by done. by eexists.
    + rewrite set2_get. destruct (decide (a = b ∧ b = a)); [by eexists|].
      rewrite set2_get. rewrite decide_True by done. by eexists.
  - intros Ha. rewrite Hnode. apply new_node_get_old.
    by apply new_node_get_new.
  - intros Hb. rewrite Hnode. destruct (decide (a = b)) as [->|Hne].
    + apply new_node_get_old. by apply new_node_get_new.
    + apply new_node_get_new. apply has_node_false.
      rewrite new_node_nodes. apply has_node_false in Hb.
      destruct (decide _); [done|]. rewrite elem_of_app.
      intros [?|?%list_elem_of_singleton]; [done|congruence].
  - intros n p Hn. rewrite Hnode. by do 2 apply new_node_get_old.
Qed.

(** C10.  [upsert_edge] hands the properties to [add_edge] as keyword
    arguments.  With properties named neither [self], [u_of_edge] nor
    [v_of_edge] it returns whatever nodes the graph holds: the edge is
    stored, both endpoints are nodes afterwards, and an endpoint that was
    not a node before is a node with no properties.  With a property of
    one of these names it raises [TypeError]: on a new graph,
    [upsert_edge("a", "b", {"u_of_edge": "x"})] raises and neither
    endpoint is a node afterwards. *)
Theorem C10_upsert_edge_fails_on_reserved_property_names (a b : pystr)
    (properties : attrs) (G : nx.Graph) :
  ((∀ k, k ∈ [py "self"; py "u_of_edge"; py "v_of_edge"] →
         k ∉ properties.*1) →
   ∃ G', NetworkXStorage.upsert_edge a b properties G = ret G'
     ∧ NetworkXStorage.has_node a G' = true
     ∧ NetworkXStorage.has_node b G' = true
     ∧ NetworkXStorage.has_edge a b G' = true
     ∧ (NetworkXStorage.has_node a G = false →
        NetworkXStorage.get_node a G' = Some [])
     ∧ (NetworkXStorage.has_node b G = false →
        NetworkXStorage.get_node b G' = Some [])
     ∧ (∀ n p, NetworkXStorage.get_node n G = Some p →
               NetworkXStorage.get_node n G' = Some p))
  ∧ ((∃ k, k ∈ [py "self"; py "u_of_edge"; py "v_of_edge"]
           ∧ k ∈ properties.*1) →
     NetworkXStorage.upsert_edge a b properties G = raise TypeError)
  ∧ NetworkXStorage.upsert_edge (py "a") (py "b") [(py "u_of_edge", py "x")]
      (nx.empty false) = raise TypeError
  ∧ NetworkXStorage.has_node (py "a")
      (apply_update (nx.empty false)
         (UpsertEdge (py "a") (py "b") [(py "u_of_edge", py "x")])) = false
  ∧ NetworkXStorage.has_node (py "b")
      (apply_update (nx.empty false)
         (UpsertEdge (py "a") (py "b") [(py "u_of_edge", py "x")])) = false.
Proof.
  split; [|split; [|by vm_compute]].
  - intros Hfree. exists (nx.add_edge a b properties G). split.
    + apply upsert_edge_accepted. apply not_true_is_false.
      intros (k & Hk & Hin)%keyword_clash_true. by apply (Hfree k).
    + apply add_edge_endpoints.
  - intros Hk. by apply upsert_edge_refused, keyword_clash_true.
Qed.

(** ** The order of strings *)

Section str_order.
Implicit Types s t u : pystr.

Lemma str_compare_eq s t : str_compare s t = Eq ↔ s = t.
Proof.
  revert t. induction s as [|a s IH]; intros [|b t]; simpl; try done.
  destruct (N.compare_spec a b) as [->|Hlt|Hgt].
  - rewrite IH. split; [by intros ->|by intros [= ->]].
  - split; [done|]. intros [= -> _]. lia.
  - split; [done|]. intros [= -> _]. lia.
Qed.

Lemma str_compare_antisym s t : str_compare t s = CompOpp (str_compare s t).
Proof.
  revert t. induction s as [|a s IH]; intros [|b t]; simpl; try done.
  rewrite (N.compare_antisym a b).
  destruct (N.compare a b); simpl; [apply IH|done|done].
Qed.

Lemma str_compare_lt_trans s t u :
  str_compare s t = Lt → str_compare t u = Lt → str_compare s u = Lt.
Proof.
  revert t u. induction s as [|a s IH]; intros [|b t] [|c u]; simpl;
    try done.
  destruct (N.compare_spec a b) as [->|Hab|Hab]; [| |done].
  - destruct (N.compare_spec b c) as [->|Hbc|Hbc]; [|done|done].
    apply IH.
  - intros _. destruct (N.compare_spec b c) as [->|Hbc|Hbc]; [| |done].
    + intros _. destruct (N.compare_spec a c); [lia|done|lia].
    + intros _. destruct (N.compare_spec a c); [lia|done|lia].
Qed.

Lemma str_ltb_lt s t : str_ltb s t = true ↔ str_compare s t = Lt.
Proof. unfold str_ltb. by destruct (str_compare s t). Qed.

Lemma str_leb_total s t : str_leb s t = true ∨ str_leb t s = true.
Proof.
  unfold str_leb, str_ltb. rewrite (str_compare_antisym s t).
  destruct (str_compare s t); simpl; auto.
Qed.

Lemma str_leb_refl s : str_leb s s = true.
Proof.
  unfold str_leb, str_ltb.
  by rewrite (proj2 (str_compare_eq s s) eq_refl).
Qed.

Lemma str_leb_cases s t :
  str_leb s t = true ↔ str_compare s t = Lt ∨ s = t.
Proof.
  unfold str_leb, str_ltb. rewrite (str_compare_antisym s t).
  rewrite <- str_compare_eq.
  destruct (str_compare s t); simpl; naive_solver.
Qed.

Lemma str_leb_trans s t u :
  str_leb s t = true → str_leb t u = true → str_leb s u = true.
Proof.
  rewrite !str_leb_cases. intros [H1| ->] [H2| ->]; auto.
  left. by eapply str_compare_lt_trans.
Qed.

Lemma str_leb_antisym s t :
  str_leb s t = true → str_leb t s = true → s = t.
Proof.
  rewrite !str_leb_cases. intros [H1| ->] [H2|H2]; auto.
  rewrite (str_compare_antisym s t), H1 in H2. done.
Qed.

Lemma str_gtb_false_leb s t : str_gtb s t = false ↔ str_leb s t = true.
Proof. unfold str_gtb, str_leb. by destruct (str_ltb t s). Qed.

Lemma str_gtb_true_leb s t : str_gtb s t = true → str_leb t s = true.
Proof.
  unfold str_gtb. rewrite str_ltb_lt, str_leb_cases. auto.
Qed.
End str_order.

(** ** [sorted] *)

Section sorted_facts.
Context {A : Type} (key : A → pystr).

Lemma sorted_insert_Permutation x l : sorted_insert key x l ≡ₚ x :: l.
Proof.
  induction l as [|y l IH]; simpl; [done|].
  destruct (str_leb (key x) (key y)); [done|].
  rewrite IH. apply Permutation_swap.
Qed.

Lemma sorted_Permutation l : sorted key l ≡ₚ l.
Proof.
  induction l as [|x l IH]; simpl; [done|].
  by rewrite sorted_insert_Permutation, IH.
Qed.

Lemma sorted_insert_StronglySorted x l :
  StronglySorted (key_le key) l →
  StronglySorted (key_le key) (sorted_insert key x l).
Proof.
  induction 1 as [|y l Hl IH Hy]; simpl.
  - repeat constructor.
  - destruct (str_leb (key x) (key y)) eqn:Hxy.
    + constructor; [by constructor|].
      constructor; [done|].
      eapply Forall_impl; [exact Hy|]. intros z Hz.
      unfold key_le in *. by eapply str_leb_trans.
    + constructor; [done|].
      rewrite sorted_insert_Permutation. constructor; [|done].
      unfold key_le. destruct (str_leb_total (key x) (key y)); congruence.
Qed.

Lemma sorted_StronglySorted l : StronglySorted (key_le key) (sorted key l).
Proof.
  induction l as [|x l IH]; simpl; [constructor|].
  by apply sorted_insert_StronglySorted.
Qed.

Lemma sorted_elem x l : x ∈ sorted key l ↔ x ∈ l.
Proof. by rewrite sorted_Permutation. Qed.

(** Permutations whose keys are pairwise distinct sort to one list. *)
Lemma sorted_unique l l' :
  l ≡ₚ l' → NoDup (key <$> l) → sorted key l = sorted key l'.
Proof.
  intros Hp Hnd.
  apply (StronglySorted_unique_strong (key_le key));
    [|apply sorted_StronglySorted..|by rewrite !sorted_Permutation].
  intros x y Hx Hy Hxy Hyx.
  apply (proj1 (sorted_elem _ _)) in Hx. apply (proj1 (sorted_elem _ _)) in Hy.
  rewrite <- Hp in Hy.
  assert (Hk : key x = key y) by (by apply str_leb_antisym).
  apply list_elem_of_lookup in Hx as [i Hi], Hy as [j Hj].
  assert (i = j) as ->.
  { eapply NoDup_lookup; [exact Hnd|..];
      rewrite list_lookup_fmap; [by rewrite Hi|by rewrite Hj, Hk]. }
  congruence.
Qed.
End sorted_facts.


(** C4 as stated fails on a tie.  [wxyz_then_abcd] has two components of
    four nodes; the one that holds the smallest id, ["A"], is not the one
    retained: the result holds [W, X, Y, Z]. *)
Lemma C4_tie_counterexample :
  map length (nx.connected_components (nx.copy graphs.wxyz_then_abcd)) = [4; 4]
  ∧ ¬ ∃ E R,
        NetworkXStorage.stable_largest_connected_component E
          graphs.wxyz_then_abcd = ret R
        ∧ py "A" ∈ nx.nodes R.
Proof.
  split; [vm_compute; reflexivity|].
  intros (E & R & H & Hin). vm_compute in H. injection H as <-.
  vm_compute in Hin. set_solver.
Qed.

(** C5 as stated fails.  The node ["&#97;"] is renamed to ["a"]: the code
    unescapes last, after [upper] and [strip], so the letter that the
    reference stands for is not upper-cased; [strip(upper(unescape(id)))]
    is ["A"]. *)
Lemma C5_normalization_order_counterexample :
  ¬ ∃ E R,
      NetworkXStorage.stable_largest_connected_component E graphs.charref_node
      = ret R
      ∧ mapM (normalized_as_specified E) (nx.nodes graphs.charref_node)
        = ret (nx.nodes R).
Proof.
  intros (E & R & H & Hn). vm_compute in H. injection H as <-.
  vm_compute in Hn. discriminate.
Qed.

(** C7 as stated fails.  The canonical form of the one-node graph
    ["&#97;"] has the node ["a"], and the canonical form of that has the
    node ["A"]. *)
Lemma C7_idempotence_counterexample :
  ¬ ∃ E R R',
      NetworkXStorage.stable_largest_connected_component E graphs.charref_node
      = ret R
      ∧ NetworkXStorage.stable_largest_connected_component E R = ret R'
      ∧ nx.nodes_data R' = nx.nodes_data R.
Proof.
  intros (E & R & R' & H & H' & Hn). vm_compute in H. injection H as <-.
  vm_compute in H'. injection H' as <-. vm_compute in Hn. discriminate.
Qed.

(** ** Graphs built by the engine are well formed *)

Section adj_facts.
Implicit Types m : odict pystr (odict pystr attrs).

Lemma adj_get_set_new n m x y :
  n ∉ m.*1 → adj_get (odict_set n [] m) x y = adj_get m x y.
Proof.
  intros Hn. unfold adj_get. destruct (decide (n = x)) as [->|Hne].
  - rewrite odict_get_set_eq. simpl.
    apply odict_get_None in Hn. by rewrite Hn.
  - by rewrite odict_get_set_ne.
Qed.

Lemma set2_fst u v dd m : u ∈ m.*1 → (nx.set2 u v dd m).*1 = m.*1.
Proof.
  intros Hu. unfold nx.set2. rewrite odict_set_fst. by rewrite decide_True.
Qed.

Lemma set2_inner u v dd m :
  (∀ x nbrs, odict_get x m = Some nbrs → NoDup nbrs.*1) →
  ∀ x nbrs, odict_get x (nx.set2 u v dd m) = Some nbrs → NoDup nbrs.*1.
Proof.
  intros Hm x nbrs. unfold nx.set2. destruct (decide (u = x)) as [->|Hne].
  - rewrite odict_get_set_eq. intros [= <-]. apply odict_set_NoDup.
    destruct (odict_get x m) eqn:Hx; simpl; [by eapply Hm|constructor].
  - rewrite odict_get_set_ne by done. apply Hm.
Qed.

Lemma set2_adj_get u v dd m x y :
  adj_get (nx.set2 u v dd m) x y
  = if decide (x = u ∧ y = v) then Some dd else adj_get m x y.
Proof. apply set2_get. Qed.
End adj_facts.

Section construction.
Implicit Types G : nx.Graph.

Lemma wf_empty dir : wf (nx.empty dir).
Proof.
  split; simpl; try done.
  - constructor.
  - intros u v [d Hd]. done.
Qed.

Lemma new_node_get_edge n G x y :
  wf G → nx.get_edge x y (nx.new_node n G) = nx.get_edge x y G.
Proof.
  intros Hwf. unfold nx.new_node.
  destruct (nx.has_node n G) eqn:Hn; [done|].
  apply has_node_false in Hn. unfold nx.get_edge. simpl.
  apply (adj_get_set_new n (nx._adj G) x y).
  by rewrite (wf_adj_keys G Hwf).
Qed.

Lemma new_node_get_node n m G :
  nx.get_node m (nx.new_node n G)
  = if decide (m = n ∧ n ∉ nx.nodes G) then Some [] else nx.get_node m G.
Proof.
  unfold nx.new_node. destruct (nx.has_node n G) eqn:Hn.
  - apply has_node_true in Hn. rewrite decide_False; [done|]. by intros [_ ?].
  - apply has_node_false in Hn. unfold nx.get_node. simpl.
    destruct (decide (n = m)) as [->|Hne].
    + rewrite odict_get_set_eq. by rewrite decide_True.
    + rewrite odict_get_set_ne by done.
      rewrite decide_False; [done|]. intros [? _]. congruence.
Qed.

Lemma new_node_elem n m G :
  m ∈ nx.nodes (nx.new_node n G) ↔ m = n ∨ m ∈ nx.nodes G.
Proof.
  rewrite new_node_nodes. destruct (decide (n ∈ nx.nodes G)).
  - naive_solver.
  - rewrite elem_of_app, list_elem_of_singleton. naive_solver.
Qed.

Lemma new_node_wf n G : wf G → wf (nx.new_node n G).
Proof.
  intros Hwf. pose proof (new_node_get_edge n G) as Hedge.
  destruct (nx.has_node n G) eqn:Hn.
  { unfold nx.new_node. by rewrite Hn. }
  apply has_node_false in Hn.
  assert (Hnodes : nx.nodes (nx.new_node n G) = nx.nodes G ++ [n]).
  { rewrite new_node_nodes. by rewrite decide_False. }
  assert (Hadj : nx._adj (nx.new_node n G) = odict_set n [] (nx._adj G)).
  { unfold nx.new_node. apply has_node_false in Hn. by rewrite Hn. }
  assert (Hpred : nx._pred (nx.new_node n G)
                  = if nx.directed G then odict_set n [] (nx._pred G)
                    else nx._pred G).
  { unfold nx.new_node. apply has_node_false in Hn. by rewrite Hn. }
  split.
  - rewrite Hnodes. apply NoDup_app. split; [apply Hwf|].
    split; [|apply NoDup_singleton].
    intros x Hx Hx'. apply list_elem_of_singleton in Hx'. by subst.
  - rewrite Hadj, Hnodes, odict_set_fst, (wf_adj_keys G Hwf).
    by rewrite decide_False.
  - intros u nbrs. rewrite Hadj. destruct (decide (n = u)) as [->|Hne].
    + rewrite odict_get_set_eq. intros [= <-]. constructor.
    + rewrite odict_get_set_ne by done. apply Hwf.
  - intros u v. rewrite Hedge by done. intros Hs.
    apply new_node_elem. right. exact (wf_adj_closed G Hwf u v Hs).
  - rewrite new_node_directed. intros Hd. split.
    + intros u v. rewrite !Hedge by done. by apply (wf_undirected G Hwf).
    + rewrite Hpred, Hd. by apply (wf_undirected G Hwf).
  - rewrite new_node_directed. intros Hd.
    destruct (wf_directed G Hwf Hd) as (Hk & Hin & Hmir).
    rewrite Hpred, Hd. split; [|split].
    + rewrite Hnodes, odict_set_fst, Hk. by rewrite decide_False.
    + intros u nbrs. destruct (decide (n = u)) as [->|Hne].
      * rewrite odict_get_set_eq. intros [= <-]. constructor.
      * rewrite odict_get_set_ne by done. apply Hin.
    + intros u v. rewrite Hedge by done.
      rewrite adj_get_set_new by (by rewrite Hk). apply Hmir.
  - intros m a. rewrite new_node_get_node.
    destruct (decide _); [intros [= <-]; constructor|apply Hwf].
  - intros u v d. rewrite Hedge by done. apply Hwf.
Qed.

Lemma add_node_nodes n attr G :
  nx.nodes (nx.add_node n attr G) = nx.nodes (nx.new_node n G).
Proof.
  unfold nx.add_node, nx.nodes at 1. simpl. rewrite odict_set_fst.
  rewrite decide_True; [done|]. apply has_node_true, new_node_has.
Qed.

Lemma add_node_get_edge n attr G x y :
  wf G → nx.get_edge x y (nx.add_node n attr G) = nx.get_edge x y G.
Proof. intros Hwf. rewrite <- (new_node_get_edge n G x y Hwf). done. Qed.

Lemma add_node_get_node n attr G m :
  nx.get_node m (nx.add_node n attr G)
  = if decide (m = n)
    then Some (odict_update (default [] (nx.get_node n G)) attr)
    else nx.get_node m G.
Proof.
  unfold nx.add_node, nx.get_node at 1. simpl.
  destruct (decide (m = n)) as [->|Hne].
  - rewrite odict_get_set_eq. f_equal. f_equal.
    fold (nx.get_node n (nx.new_node n G)). rewrite new_node_get_node.
    destruct (decide _) as [[_ Hn]|Hn]; [|done].
    apply (odict_get_None (V := attrs)) in Hn. unfold nx.get_node.
    by rewrite Hn.
  - rewrite odict_get_set_ne by done.
    fold (nx.get_node m (nx.new_node n G)). rewrite new_node_get_node.
    rewrite decide_False; [done|]. by intros [? _].
Qed.

Lemma add_node_directed n attr G :
  nx.directed (nx.add_node n attr G) = nx.directed G.
Proof. unfold nx.add_node. simpl. apply new_node_directed. Qed.

Lemma add_node_wf n attr G : wf G → wf (nx.add_node n attr G).
Proof.
  intros Hwf. pose proof (new_node_wf n G Hwf) as H1.
  split.
  - rewrite add_node_nodes. apply H1.
  - rewrite add_node_nodes. apply H1.
  - apply H1.
  - intros u v. rewrite add_node_nodes. apply H1.
  - apply H1.
  - rewrite add_node_nodes. apply H1.
  - intros m a. rewrite add_node_get_node. destruct (decide (m = n)).
    + intros [= <-]. apply odict_update_NoDup.
      destruct (nx.get_node n G) eqn:Hg; simpl; [|constructor].
      exact (wf_node_attrs G Hwf n _ Hg).
    + apply Hwf.
  - intros u v d. rewrite add_node_get_edge by done. apply Hwf.
Qed.

Lemma add_edge_directed u v attr G :
  nx.directed (nx.add_edge u v attr G) = nx.directed G.
Proof.
  unfold nx.add_edge.
  destruct (nx.directed (nx.new_node v (nx.new_node u G))) eqn:Hd;
    rewrite !new_node_directed in Hd; by rewrite Hd.
Qed.

Lemma add_edge_nodes u v attr G :
  nx.nodes (nx.add_edge u v attr G) = nx.nodes (nx.new_node v (nx.new_node u G)).
Proof. unfold nx.nodes. by rewrite add_edge_node. Qed.

Lemma add_edge_get_node u v attr G m :
  nx.get_node m (nx.add_edge u v attr G)
  = nx.get_node m (nx.new_node v (nx.new_node u G)).
Proof. unfold nx.get_node. by rewrite add_edge_node. Qed.

Lemma add_edge_get_edge u v attr G x y :
  wf G →
  nx.get_edge x y (nx.add_edge u v attr G)
  = if decide ((x = u ∧ y = v) ∨ (nx.directed G = false ∧ x = v ∧ y = u))
    then Some (odict_update (default [] (nx.get_edge u v G)) attr)
    else nx.get_edge x y G.
Proof.
  intros Hwf.
  pose proof (new_node_wf u G Hwf) as H1.
  assert (He : ∀ a b, nx.get_edge a b (nx.new_node v (nx.new_node u G))
                      = nx.get_edge a b G).
  { intros a b. by rewrite !new_node_get_edge. }
  unfold nx.add_edge. rewrite He.
  destruct (nx.directed (nx.new_node v (nx.new_node u G))) eqn:Hd;
    rewrite !new_node_directed in Hd; rewrite Hd;
    unfold nx.get_edge at 1; simpl.
  - rewrite set2_get. fold (adj_get (nx._adj (nx.new_node v (nx.new_node u G))) x y).
    change (adj_get _ x y) with (nx.get_edge x y (nx.new_node v (nx.new_node u G))).
    rewrite He.
    destruct (decide (x = u ∧ y = v)) as [Hxy|Hxy].
    + by rewrite decide_True by (by left).
    + rewrite decide_False; [done|]. intros [?|[? _]]; done.
  - rewrite set2_get. destruct (decide (x = v ∧ y = u)) as [Hxy|Hxy].
    + by rewrite decide_True by (by right).
    + rewrite set2_get.
      change (nbrs ← odict_get x (nx._adj (nx.new_node v (nx.new_node u G)));
              odict_get y nbrs)
        with (nx.get_edge x y (nx.new_node v (nx.new_node u G))).
      rewrite He.
      destruct (decide (x = u ∧ y = v)) as [Hxy'|Hxy'].
      * by rewrite decide_True by (by left).
      * rewrite decide_False; [done|]. intros [?|[_ ?]]; done.
Qed.

Lemma add_edge_wf u v attr G : wf G → wf (nx.add_edge u v attr G).
Proof.
  intros Hwf.
  pose proof (new_node_wf v _ (new_node_wf u G Hwf)) as H1.
  set (G1 := nx.new_node v (nx.new_node u G)) in *.
  assert (Hu : u ∈ nx.nodes G1).
  { apply new_node_elem. right. apply new_node_elem. by left. }
  assert (Hv : v ∈ nx.nodes G1) by (apply new_node_elem; by left).
  assert (Hdd : NoDup (odict_update (default [] (nx.get_edge u v G)) attr).*1).
  { apply odict_update_NoDup. destruct (nx.get_edge u v G) eqn:Hg; simpl;
      [exact (wf_edge_attrs G Hwf u v _ Hg)|constructor]. }
  pose proof (add_edge_get_edge u v attr G) as Hedge.
  pose proof (add_edge_nodes u v attr G) as Hnodes. fold G1 in Hnodes.
  assert (Hd1 : nx.directed G1 = nx.directed G)
    by (unfold G1; by rewrite !new_node_directed).
  assert (Hclosed : ∀ x y, is_Some (nx.get_edge x y (nx.add_edge u v attr G))
                    → y ∈ nx.nodes G1).
  { intros x y. rewrite Hedge by done. destruct (decide _) as [Hc|Hc].
    - intros _. destruct Hc as [[_ ->]|(_ & _ & ->)]; done.
    - intros Hs. unfold G1. apply new_node_elem. right.
      apply new_node_elem. right. exact (wf_adj_closed G Hwf x y Hs). }
  split.
  - rewrite Hnodes. apply H1.
  - rewrite Hnodes. unfold nx.add_edge. fold G1.
    destruct (nx.directed G1); simpl.
    + rewrite set2_fst; [apply H1|]. by rewrite (wf_adj_keys G1 H1).
    + rewrite !set2_fst; [apply H1| |];
        rewrite ?set2_fst; by rewrite (wf_adj_keys G1 H1).
  - unfold nx.add_edge. fold G1. destruct (nx.directed G1); simpl.
    + apply set2_inner. apply H1.
    + apply set2_inner, set2_inner. apply H1.
  - intros x y Hs. rewrite Hnodes. by eapply Hclosed.
  - rewrite add_edge_directed. intros Hd. split.
    + intros x y. rewrite !Hedge by done.
      destruct (decide ((y = u ∧ x = v) ∨ _)) as [Hc|Hc];
        destruct (decide ((x = u ∧ y = v) ∨ _)) as [Hc'|Hc']; try done.
      * exfalso. apply Hc'. destruct Hc as [[-> ->]|(_ & -> & ->)]; auto.
      * exfalso. apply Hc. destruct Hc' as [[-> ->]|(_ & -> & ->)]; auto.
      * by apply (wf_undirected G Hwf).
    + unfold nx.add_edge. fold G1. rewrite Hd1, Hd. simpl.
      by apply (wf_undirected G1 H1); rewrite Hd1.
  - rewrite add_edge_directed. intros Hd.
    destruct (wf_directed G1 H1) as (Hk & Hin & Hmir); [by rewrite Hd1|].
    rewrite Hnodes. unfold nx.add_edge at 1 2 3. fold G1. rewrite Hd1, Hd.
    simpl. split; [|split].
    + rewrite set2_fst; [done|]. by rewrite Hk.
    + by apply set2_inner.
    + intros x y. rewrite set2_adj_get, Hedge by done.
      rewrite Hmir. unfold G1. rewrite !new_node_get_edge by (by try apply new_node_wf).
      destruct (decide (y = v ∧ x = u)) as [[-> ->]|Hc].
      * by rewrite decide_True by (by left).
      * rewrite decide_False; [done|]. rewrite Hd. intros [[? ?]|[? _]]; [|done].
        by apply Hc.
  - intros m a. rewrite add_edge_get_node. apply H1.
  - intros x y d. rewrite Hedge by done. destruct (decide _).
    + by intros [= <-].
    + apply Hwf.
Qed.

Lemma add_nodes_from_data_wf ns G : wf G → wf (nx.add_nodes_from_data ns G).
Proof.
  unfold nx.add_nodes_from_data. revert G.
  induction ns as [|[n a] ns IH]; intros G Hwf; simpl; [done|].
  by apply IH, add_node_wf.
Qed.

Lemma add_nodes_from_wf ns G : wf G → wf (nx.add_nodes_from ns G).
Proof.
  unfold nx.add_nodes_from. revert G.
  induction ns as [|n ns IH]; intros G Hwf; simpl; [done|].
  by apply IH, add_node_wf.
Qed.

Lemma add_edges_from_wf es G : wf G → wf (nx.add_edges_from es G).
Proof.
  unfold nx.add_edges_from. revert G.
  induction es as [|e es IH]; intros G Hwf; simpl; [done|].
  by apply IH, add_edge_wf.
Qed.
End construction.

(** ** Calls of [upsert_node] and [upsert_edge] *)

Lemma apply_update_wf G c : wf G → wf (apply_update G c).
Proof.
  intros Hwf. destruct (accepted c) eqn:Hc.
  - rewrite apply_update_accepted by done. destruct c as [n d|u v d].
    + by apply add_node_wf.
    + by apply add_edge_wf.
  - by rewrite (proj1 (apply_update_refused G c Hc)).
Qed.

Lemma apply_updates_wf cs G : wf G → wf (apply_updates cs G).
Proof.
  unfold apply_updates. revert G.
  induction cs as [|c cs IH]; intros G Hwf; simpl; [done|].
  by apply IH, apply_update_wf.
Qed.

(** ** What the bulk insertions build *)

Section odict_update_facts.
Context {K V : Type} `{EqDecision K}.
Implicit Types d : odict K V.

Lemma odict_update_same d l :
  (∀ k v, (k, v) ∈ l → odict_get k d = Some v) → odict_update d l = d.
Proof.
  unfold odict_update. induction l as [|[k v] l IH]; intros Hl; simpl; [done|].
  rewrite odict_set_same by (apply Hl; left). apply IH.
  intros k' v' Hin. apply Hl. by right.
Qed.

Lemma odict_update_self d : NoDup d.*1 → odict_update d d = d.
Proof.
  intros Hnd. apply odict_update_same. intros k v. by apply odict_get_Some.
Qed.

Lemma odict_update_fst_elem d l k :
  k ∈ (odict_update d l).*1 ↔ k ∈ d.*1 ∨ k ∈ l.*1.
Proof.
  unfold odict_update. revert d. induction l as [|[k1 v1] l IH]; intros d; csimpl.
  - rewrite elem_of_nil. naive_solver.
  - rewrite IH, odict_set_elem_fst, elem_of_cons. naive_solver.
Qed.

Lemma odict_set_app_r k v d d' :
  k ∉ d.*1 → odict_set k v (d ++ d') = d ++ odict_set k v d'.
Proof.
  induction d as [|[k1 v1] d IH]; csimpl; [done|].
  rewrite not_elem_of_cons. intros [Hne Hout].
  rewrite decide_False by done. by rewrite IH.
Qed.

Lemma odict_get_Permutation d d' k :
  NoDup d.*1 → d ≡ₚ d' → odict_get k d = odict_get k d'.
Proof.
  intros Hnd Hp.
  assert (Hnd' : NoDup d'.*1) by (by rewrite <- Hp).
  destruct (odict_get k d) as [v|] eqn:Hg.
  - symmetry. apply odict_get_Some; [done|]. rewrite <- Hp.
    by apply odict_get_Some.
  - symmetry. apply odict_get_None. rewrite <- Hp. by apply odict_get_None.
Qed.
End odict_update_facts.

Lemma option_eq_Some_iff {A} (o1 o2 : option A) :
  (∀ x, o1 = Some x ↔ o2 = Some x) → o1 = o2.
Proof.
  intros H. destruct o1 as [x|], o2 as [y|]; try done.
  - by apply H.
  - pose proof (proj1 (H x) eq_refl). done.
  - pose proof (proj2 (H y) eq_refl). done.
Qed.

Section bulk.
Implicit Types G : nx.Graph.

(** [add_node] of a node that is not in the graph appends it. *)
Lemma add_node_fresh n a G :
  wf G → n ∉ nx.nodes G → NoDup a.*1 →
  nx.add_node n a G
  = nx.mk (nx.directed G) (nx._node G ++ [(n, a)]) (nx._adj G ++ [(n, [])])
      (if nx.directed G then nx._pred G ++ [(n, [])] else nx._pred G).
Proof.
  intros Hwf Hn Ha. unfold nx.add_node, nx.new_node.
  rewrite (proj2 (has_node_false n G) Hn). simpl.
  rewrite odict_get_set_eq. simpl. rewrite odict_update_nil by done.
  f_equal.
  - rewrite (odict_set_new n [] (nx._node G)) by done.
    rewrite odict_set_app_r by done. simpl. by rewrite decide_True.
  - apply odict_set_new. by rewrite (wf_adj_keys G Hwf).
  - destruct (nx.directed G) eqn:Hd; [|done].
    apply odict_set_new. by rewrite (proj1 (wf_directed G Hwf Hd)).
Qed.

Lemma add_nodes_from_data_fresh ns G :
  wf G → NoDup ns.*1 → (∀ n, n ∈ ns.*1 → n ∉ nx.nodes G) →
  (∀ n a, (n, a) ∈ ns → NoDup a.*1) →
  nx.add_nodes_from_data ns G
  = nx.mk (nx.directed G) (nx._node G ++ ns)
      (nx._adj G ++ map (fun na => (na.1, [])) ns)
      (if nx.directed G then nx._pred G ++ map (fun na => (na.1, [])) ns
       else nx._pred G).
Proof.
  unfold nx.add_nodes_from_data. revert G.
  induction ns as [|[n a] ns IH]; intros G Hwf Hnd Hfresh Hattr; simpl.
  - rewrite !app_nil_r. destruct G as [d ? ? ?]. simpl. by destruct d.
  - csimpl in Hnd. apply NoDup_cons in Hnd as [Hn Hnd].
    assert (Hng : n ∉ nx.nodes G) by (apply Hfresh; left).
    assert (Ha : NoDup a.*1) by (apply (Hattr n); left).
    rewrite IH.
    + rewrite add_node_fresh by done. simpl. f_equal.
      * by rewrite <- app_assoc.
      * by rewrite <- app_assoc.
      * destruct (nx.directed G); [by rewrite <- app_assoc|done].
    + by apply add_node_wf.
    + done.
    + intros m Hm. rewrite add_node_nodes, new_node_elem.
      intros [->|Hin]; [done|]. apply (Hfresh m); [by right|done].
    + intros m b Hb. apply (Hattr m). by right.
Qed.

(** [add_edge] between two nodes of the graph leaves [_node] as it is. *)
Lemma add_edge_node_same u v a G :
  u ∈ nx.nodes G → v ∈ nx.nodes G → nx._node (nx.add_edge u v a G) = nx._node G.
Proof.
  intros Hu Hv. rewrite add_edge_node. unfold nx.new_node.
  rewrite (proj2 (has_node_true u G) Hu).
  by rewrite (proj2 (has_node_true v G) Hv).
Qed.

Lemma add_edges_from_node_same es G :
  (∀ u v d, (u, v, d) ∈ es → u ∈ nx.nodes G ∧ v ∈ nx.nodes G) →
  nx._node (nx.add_edges_from es G) = nx._node G.
Proof.
  unfold nx.add_edges_from. revert G.
  induction es as [|[[u v] d] es IH]; intros G Hes; simpl; [done|].
  destruct (Hes u v d) as [Hu Hv]; [left|].
  rewrite IH.
  - by apply add_edge_node_same.
  - intros u' v' d' Hin. unfold nx.nodes.
    rewrite add_edge_node_same by done. apply (Hes u' v' d'). by right.
Qed.

Lemma add_edges_from_directed es G :
  nx.directed (nx.add_edges_from es G) = nx.directed G.
Proof.
  unfold nx.add_edges_from. revert G.
  induction es as [|e es IH]; intros G; simpl; [done|].
  by rewrite IH, add_edge_directed.
Qed.

Lemma add_nodes_from_data_directed ns G :
  nx.directed (nx.add_nodes_from_data ns G) = nx.directed G.
Proof.
  unfold nx.add_nodes_from_data. revert G.
  induction ns as [|e ns IH]; intros G; simpl; [done|].
  by rewrite IH, add_node_directed.
Qed.

(** The edges after [add_edges_from], when the triples and the edges of the
    graph all belong to one relation [R] that gives an edge at most one
    dictionary: nothing is merged, and the graph holds its old edges and
    the triples. *)
Lemma add_edges_from_spec es G (R : pystr → pystr → attrs → Prop) :
  wf G →
  (∀ x y d d', R x y d → R x y d' → d = d') →
  (nx.directed G = false → ∀ x y d, R x y d → R y x d) →
  (∀ x y d, nx.get_edge x y G = Some d → R x y d) →
  (∀ u v d, (u, v, d) ∈ es → R u v d ∧ NoDup d.*1) →
  ∀ x y d,
    nx.get_edge x y (nx.add_edges_from es G) = Some d
    ↔ nx.get_edge x y G = Some d ∨ (x, y, d) ∈ es
      ∨ (nx.directed G = false ∧ (y, x, d) ∈ es).
Proof.
  intros Hwf Hfun. unfold nx.add_edges_from. revert G Hwf.
  induction es as [|[[u v] a] es IH]; intros G Hwf Hsym HG Hes x y d; simpl.
  - rewrite !elem_of_nil. naive_solver.
  - destruct (Hes u v a) as [Hf Ha]; [left|].
    assert (Hdd : odict_update (default [] (nx.get_edge u v G)) a = a).
    { destruct (nx.get_edge u v G) as [a'|] eqn:Hg; simpl.
      - apply HG in Hg. rewrite (Hfun _ _ _ _ Hg Hf).
        by apply odict_update_self.
      - by apply odict_update_nil. }
    assert (Hstep : ∀ x y, nx.get_edge x y (nx.add_edge u v a G)
              = if decide ((x = u ∧ y = v)
                           ∨ (nx.directed G = false ∧ x = v ∧ y = u))
                then Some a else nx.get_edge x y G).
    { intros x' y'. rewrite add_edge_get_edge by done. by rewrite Hdd. }
    rewrite IH.
    + rewrite Hstep, add_edge_directed, !elem_of_cons.
      destruct (decide _) as [Hc|Hc].
      * split.
        -- intros [[= <-]|[Hin|[Hd Hin]]].
           ++ destruct Hc as [[-> ->]|(Hd & -> & ->)].
              ** right. left. by left.
              ** right. right. split; [done|by left].
           ++ right. left. by right.
           ++ right. right. split; [done|by right].
        -- intros [Hg|[[Heq|Hin]|[Hd [Heq|Hin]]]].
           ++ left. f_equal. apply HG in Hg.
              destruct Hc as [[-> ->]|(Hd & -> & ->)]; [by eapply Hfun|].
              apply Hsym in Hg; [|done]. by eapply Hfun.
           ++ left. congruence.
           ++ right. by left.
           ++ left. congruence.
           ++ right. right. done.
      * split.
        -- intros [Hg|[Hin|[Hd Hin]]].
           ++ by left.
           ++ right. left. by right.
           ++ right. right. split; [done|by right].
        -- intros [Hg|[[Heq|Hin]|[Hd [Heq|Hin]]]].
           ++ by left.
           ++ exfalso. apply Hc. left. by injection Heq as -> -> _.
           ++ right. by left.
           ++ exfalso. apply Hc. right. by injection Heq as -> -> _.
           ++ right. right. done.
    + by apply add_edge_wf.
    + by rewrite add_edge_directed.
    + intros x' y' d'. rewrite Hstep. destruct (decide _) as [Hc|Hc]; [|apply HG].
      intros [= <-]. destruct Hc as [[-> ->]|(Hd & -> & ->)]; [done|].
      by apply Hsym.
    + intros u' v' d' Hin. apply Hes. by right.
Qed.

(** A graph with nodes and no edges. *)
Lemma nodes_only_get_edge dir (ns : odict pystr attrs) pred x y :
  nx.get_edge x y
    (nx.mk dir ns (map (fun na => (na.1, [])) ns) pred) = None.
Proof.
  unfold nx.get_edge. simpl.
  destruct (odict_get x (map _ ns)) as [nbrs|] eqn:Hx; simpl; [|done].
  apply odict_get_Some_elem, list_elem_of_fmap in Hx as (na & [= _ ->] & _).
  done.
Qed.

(** The graph that [add_nodes_from_data] and [add_edges_from] build from
    nothing, out of nodes [ns] and triples [es] that list the edges of an
    edge function [f], every edge in one direction at least. *)
Lemma build_content dir (ns : odict pystr attrs) (es : list edge)
    (f : pystr → pystr → option attrs) :
  NoDup ns.*1 →
  (∀ n a, (n, a) ∈ ns → NoDup a.*1) →
  (dir = false → ∀ x y, f y x = f x y) →
  (∀ u v d, (u, v, d) ∈ es →
     f u v = Some d ∧ NoDup d.*1 ∧ u ∈ ns.*1 ∧ v ∈ ns.*1) →
  (∀ x y d, f x y = Some d → (x, y, d) ∈ es ∨ (dir = false ∧ (y, x, d) ∈ es)) →
  let G' := nx.add_edges_from es (nx.add_nodes_from_data ns (nx.empty dir)) in
  wf G' ∧ nx.directed G' = dir ∧ nx._node G' = ns
  ∧ ∀ x y, nx.get_edge x y G' = f x y.
Proof.
  intros Hnd Hattr Hsym Hes Hall G'.
  assert (H0 : nx.add_nodes_from_data ns (nx.empty dir)
               = nx.mk dir ns (map (fun na => (na.1, [])) ns)
                   (if dir then map (fun na => (na.1, [])) ns else [])).
  { rewrite add_nodes_from_data_fresh; [done|apply wf_empty|done| |done].
    intros n _. apply not_elem_of_nil. }
  assert (Hwf0 : wf (nx.add_nodes_from_data ns (nx.empty dir)))
    by apply add_nodes_from_data_wf, wf_empty.
  split; [by apply add_edges_from_wf|].
  split; [unfold G'; by rewrite add_edges_from_directed, H0|].
  split.
  { unfold G'. rewrite add_edges_from_node_same; [by rewrite H0|].
    intros u v d Hin. rewrite H0. unfold nx.nodes. simpl.
    by apply Hes in Hin as (_ & _ & ? & ?). }
  intros x y. apply option_eq_Some_iff. intros d. unfold G'.
  rewrite (add_edges_from_spec es _ (fun x y d => f x y = Some d)).
  - rewrite H0 at 1 2. rewrite nodes_only_get_edge. simpl. split.
    + intros [?|[Hin|[Hd Hin]]]; [done| |].
      * by apply Hes in Hin as [Hf _].
      * apply Hes in Hin as [Hf _]. by rewrite Hsym in Hf.
    + intros Hf. right. by apply Hall.
  - done.
  - intros a b d1 d2 H1 H2. congruence.
  - rewrite H0. simpl. intros -> a b d1 Hf. by rewrite Hsym.
  - intros a b d1. rewrite H0, nodes_only_get_edge. done.
  - intros u v d1 Hin. apply Hes in Hin. naive_solver.
Qed.
End bulk.

(** ** The edges a graph reports *)

Section edges.
Implicit Types G : nx.Graph.
Implicit Types adj : odict pystr (odict pystr attrs).

Lemma adjacency_items_elem adj u v d :
  (u, v, d) ∈ nx.adjacency_items adj
  ↔ ∃ nbrs, (u, nbrs) ∈ adj ∧ (v, d) ∈ nbrs.
Proof.
  unfold nx.adjacency_items. induction adj as [|[n nbrs0] adj IH]; simpl.
  - rewrite elem_of_nil. split; [done|]. intros (? & ?%elem_of_nil & _). done.
  - rewrite elem_of_app, IH, list_elem_of_fmap. split.
    + intros [([v' d'] & [= -> -> ->] & Hin)|(nbrs & Hn & Hin)].
      * exists nbrs0. split; [left|done].
      * exists nbrs. split; [by right|done].
    + intros (nbrs & [[= -> ->]|Hn]%elem_of_cons & Hin).
      * left. by exists (v, d).
      * right. by exists nbrs.
Qed.

Lemma adj_get_elem adj u v d :
  NoDup adj.*1 →
  (∀ x nbrs, odict_get x adj = Some nbrs → NoDup nbrs.*1) →
  adj_get adj u v = Some d ↔ ∃ nbrs, (u, nbrs) ∈ adj ∧ (v, d) ∈ nbrs.
Proof.
  intros Hnd Hin. unfold adj_get. split.
  - destruct (odict_get u adj) as [nbrs|] eqn:Hu; simpl; [|done].
    intros Hv. exists nbrs. split; by apply odict_get_Some_elem.
  - intros (nbrs & Hu & Hv). apply odict_get_Some in Hu; [|done].
    rewrite Hu. simpl. apply odict_get_Some; [by eapply Hin|done].
Qed.

Lemma get_edge_elem G u v d :
  wf G →
  nx.get_edge u v G = Some d
  ↔ ∃ nbrs, (u, nbrs) ∈ nx._adj G ∧ (v, d) ∈ nbrs.
Proof.
  intros Hwf. apply adj_get_elem.
  - rewrite (wf_adj_keys G Hwf). apply Hwf.
  - apply Hwf.
Qed.

Lemma adjacency_items_get G u v d :
  wf G → (u, v, d) ∈ nx.adjacency_items (nx._adj G) ↔ nx.get_edge u v G = Some d.
Proof. intros Hwf. by rewrite adjacency_items_elem, get_edge_elem. Qed.

Lemma get_edge_nodes G u v d :
  wf G → nx.get_edge u v G = Some d → u ∈ nx.nodes G ∧ v ∈ nx.nodes G.
Proof.
  intros Hwf Hg. split.
  - rewrite <- (wf_adj_keys G Hwf). apply odict_get_is_Some.
    unfold nx.get_edge in Hg. destruct (odict_get u (nx._adj G)); [by eexists|done].
  - apply (wf_adj_closed G Hwf u v). by eexists.
Qed.

Lemma edges_undirected_elem seen adj u v d :
  (u, v, d) ∈ nx.edges_undirected seen adj
  ↔ ∃ pre nbrs post,
      adj = pre ++ (u, nbrs) :: post ∧ (v, d) ∈ nbrs ∧ v ∉ seen ∧ v ∉ pre.*1.
Proof.
  revert seen. induction adj as [|[n nbrs0] adj IH]; intros seen; simpl.
  - rewrite elem_of_nil. split; [done|].
    intros (pre & nbrs & post & Heq & _). by destruct pre.
  - rewrite elem_of_app, IH, list_elem_of_fmap. split.
    + intros [([v' d'] & [= -> -> ->] & Hin)|(pre & nbrs & post & -> & Hv & Hs & Hp)].
      * apply list_elem_of_filter in Hin as [Hs Hin]. simpl in Hs.
        exists [], nbrs0, adj. split; [done|]. split; [done|]. split; [done|].
        csimpl. apply not_elem_of_nil.
      * exists ((n, nbrs0) :: pre), nbrs, post. split; [done|]. split; [done|].
        apply not_elem_of_cons in Hs as [Hne Hs]. split; [done|].
        csimpl. by apply not_elem_of_cons.
    + intros (pre & nbrs & post & Heq & Hv & Hs & Hp).
      destruct pre as [|[n' nbrs'] pre]; simpl in Heq.
      * injection Heq as -> -> ->. left. exists (v, d). split; [done|].
        by apply list_elem_of_filter.
      * injection Heq as -> -> ->. right. exists pre, nbrs, post.
        csimpl in Hp. apply not_elem_of_cons in Hp as [Hne Hp].
        split; [done|]. split; [done|]. split; [|done].
        by apply not_elem_of_cons.
Qed.

Lemma NoDup_split_unique {A} (l : list A) (x : A) p1 q1 p2 q2 :
  NoDup l → l = p1 ++ x :: q1 → l = p2 ++ x :: q2 → p1 = p2.
Proof.
  intros Hnd -> Heq. revert p2 Heq Hnd.
  induction p1 as [|a p1 IH]; intros p2 Heq Hnd.
  - destruct p2 as [|b p2]; [done|]. simpl in *. injection Heq as <- Heq.
    apply NoDup_cons in Hnd as [Hx _]. exfalso. apply Hx. rewrite Heq.
    apply elem_of_app. right. left.
  - destruct p2 as [|b p2]; simpl in *.
    + injection Heq as -> Heq. apply NoDup_cons in Hnd as [Hx _].
      exfalso. apply Hx. apply elem_of_app. right. left.
    + injection Heq as <- Heq. f_equal. apply NoDup_cons in Hnd as [_ Hnd].
      by apply IH.
Qed.

Lemma comes_before_total l u v :
  u ∈ l → v ∈ l → u = v ∨ comes_before l v u ∨ comes_before l u v.
Proof.
  intros Hu Hv. apply list_elem_of_split in Hu as (pre & post & ->).
  apply elem_of_app in Hv as [Hv|[->|Hv]%elem_of_cons].
  - right. left. by exists pre, post.
  - by left.
  - right. right. apply list_elem_of_split in Hv as (p' & q' & ->).
    exists (pre ++ u :: p'), q'. split.
    + by rewrite <- app_assoc.
    + apply elem_of_app. right. left.
Qed.

Lemma comes_before_asym l u v :
  NoDup l → comes_before l v u → ¬ comes_before l u v.
Proof.
  intros Hnd (p1 & q1 & -> & Hv) (p2 & q2 & Heq & Hu).
  apply list_elem_of_split in Hv as (a & b & ->).
  apply list_elem_of_split in Hu as (c & e & ->).
  rewrite <- !app_assoc in Heq, Hnd. simpl in Heq, Hnd.
  assert (Heq2 : a = (c ++ u :: e)).
  { eapply (NoDup_split_unique _ v); [exact Hnd|done|].
    rewrite Heq. by rewrite <- !app_assoc. }
  subst a. rewrite <- !app_assoc in Hnd. simpl in Hnd.
  apply NoDup_app in Hnd as (_ & _ & Hnd).
  apply NoDup_cons in Hnd as [Hu _]. apply Hu.
  apply elem_of_app. right. right. apply elem_of_app. right. left.
Qed.

Lemma edges_data_undirected_elem G u v d :
  wf G → nx.directed G = false →
  (u, v, d) ∈ nx.edges_data G
  ↔ nx.get_edge u v G = Some d ∧ ¬ comes_before (nx.nodes G) v u.
Proof.
  intros Hwf Hd. unfold nx.edges_data. rewrite Hd, edges_undirected_elem.
  pose proof (wf_adj_keys G Hwf) as Hk. pose proof (wf_nodes G Hwf) as Hnd.
  split.
  - intros (pre & nbrs & post & Heq & Hv & _ & Hp). split.
    + apply get_edge_elem; [done|]. exists nbrs. split; [|done].
      rewrite Heq. apply elem_of_app. right. left.
    + intros (p2 & q2 & Hn & Hin). apply Hp.
      assert (Hn1 : nx.nodes G = pre.*1 ++ u :: post.*1)
        by (by rewrite <- Hk, Heq, fmap_app).
      by rewrite (NoDup_split_unique (nx.nodes G) u _ _ _ _ Hnd Hn1 Hn).
  - intros [Hg Hnb]. apply get_edge_elem in Hg as (nbrs & Hu & Hv); [|done].
    apply list_elem_of_split in Hu as (pre & post & Heq).
    exists pre, nbrs, post. split; [done|]. split; [done|].
    split; [apply not_elem_of_nil|].
    intros Hp. apply Hnb. exists pre.*1, post.*1. split; [|done].
    by rewrite <- Hk, Heq, fmap_app.
Qed.

Lemma edges_data_directed_elem G u v d :
  wf G → nx.directed G = true →
  (u, v, d) ∈ nx.edges_data G ↔ nx.get_edge u v G = Some d.
Proof.
  intros Hwf Hd. unfold nx.edges_data. rewrite Hd.
  by apply adjacency_items_get.
Qed.

Lemma edges_data_get_edge G u v d :
  wf G → (u, v, d) ∈ nx.edges_data G → nx.get_edge u v G = Some d.
Proof.
  intros Hwf. destruct (nx.directed G) eqn:Hd.
  - by rewrite edges_data_directed_elem.
  - rewrite edges_data_undirected_elem by done. by intros [? _].
Qed.
End edges.

Section edge_lists.
Implicit Types G : nx.Graph.
Implicit Types adj : odict pystr (odict pystr attrs).

Lemma edge_triples_NoDup (n : pystr) (nbrs : odict pystr attrs) :
  NoDup nbrs.*1 → NoDup (map (fun vd => (n, vd.1, vd.2)) nbrs).
Proof.
  intros Hnd. apply (NoDup_fmap_2_strong (fun vd : pystr * attrs => (n, vd.1, vd.2))).
  - intros [v d] [v' d'] _ _ [= -> ->]. done.
  - by eapply NoDup_fmap_1.
Qed.

Lemma adjacency_items_NoDup adj :
  NoDup adj.*1 → (∀ u nbrs, (u, nbrs) ∈ adj → NoDup nbrs.*1) →
  NoDup (nx.adjacency_items adj).
Proof.
  unfold nx.adjacency_items.
  induction adj as [|[n nbrs0] adj IH]; intros Hnd Hin; simpl; [constructor|].
  csimpl in Hnd. apply NoDup_cons in Hnd as [Hn Hnd].
  apply NoDup_app. split; [|split].
  - apply edge_triples_NoDup. apply (Hin n). left.
  - intros [[u v] d] H1 H2.
    apply list_elem_of_fmap in H1 as ([v' d'] & [= -> -> ->] & _).
    apply (adjacency_items_elem adj) in H2 as (nbrs & Hu & _).
    apply Hn. apply list_elem_of_fmap. by exists (n, nbrs).
  - apply IH; [done|]. intros u nbrs Hu. apply (Hin u). by right.
Qed.

Lemma edges_undirected_NoDup seen adj :
  NoDup adj.*1 → (∀ u nbrs, (u, nbrs) ∈ adj → NoDup nbrs.*1) →
  NoDup (nx.edges_undirected seen adj).
Proof.
  revert seen.
  induction adj as [|[n nbrs0] adj IH]; intros seen Hnd Hin; simpl;
    [constructor|].
  csimpl in Hnd. apply NoDup_cons in Hnd as [Hn Hnd].
  apply NoDup_app. split; [|split].
  - apply (NoDup_fmap_2_strong (fun vd : pystr * attrs => (n, vd.1, vd.2))).
    + intros [v d] [v' d'] _ _ [= -> ->]. done.
    + apply NoDup_filter. eapply NoDup_fmap_1. apply (Hin n). left.
  - intros [[u v] d] H1 H2.
    apply list_elem_of_fmap in H1 as ([v' d'] & [= -> -> ->] & _).
    apply edges_undirected_elem in H2 as (pre & nbrs & post & -> & _).
    apply Hn. rewrite fmap_app. apply elem_of_app. right. left.
  - apply IH; [done|]. intros u nbrs Hu. apply (Hin u). by right.
Qed.

Lemma wf_adj_elem_inner G u nbrs :
  wf G → (u, nbrs) ∈ nx._adj G → NoDup nbrs.*1.
Proof.
  intros Hwf Hu. apply (wf_adj_inner G Hwf u). apply odict_get_Some; [|done].
  rewrite (wf_adj_keys G Hwf). apply Hwf.
Qed.

Lemma edges_data_NoDup G : wf G → NoDup (nx.edges_data G).
Proof.
  intros Hwf. unfold nx.edges_data.
  assert (Hk : NoDup (nx._adj G).*1)
    by (rewrite (wf_adj_keys G Hwf); apply Hwf).
  destruct (nx.directed G).
  - apply adjacency_items_NoDup; [done|]. intros u nbrs. by apply wf_adj_elem_inner.
  - apply edges_undirected_NoDup; [done|]. intros u nbrs. by apply wf_adj_elem_inner.
Qed.

Lemma comes_before_irrefl l u : NoDup l → ¬ comes_before l u u.
Proof. intros Hnd H. by apply (comes_before_asym l u u Hnd H). Qed.

Lemma oriented_edges_elem G a b d :
  wf G →
  (a, b, d) ∈ oriented_edges G
  ↔ nx.get_edge a b G = Some d ∧ (nx.directed G = false → str_leb a b = true).
Proof.
  intros Hwf. unfold oriented_edges, nx.is_directed.
  destruct (nx.directed G) eqn:Hd; simpl.
  - rewrite edges_data_directed_elem by done. naive_solver.
  - pose proof (proj1 (wf_undirected G Hwf Hd)) as Hsym.
    pose proof (wf_nodes G Hwf) as Hnd.
    rewrite list_elem_of_fmap. split.
    + intros ([[u v] d'] & Heq & Hin).
      apply edges_data_undirected_elem in Hin as [Hg _]; [|done..].
      unfold NetworkXStorage._sort_source_target in Heq.
      destruct (str_gtb u v) eqn:Hgt; injection Heq as -> -> ->.
      * split; [by rewrite Hsym|]. intros _. by apply str_gtb_true_leb.
      * split; [done|]. intros _. by apply str_gtb_false_leb.
    + intros [Hg Hle]. specialize (Hle eq_refl).
      destruct (get_edge_nodes G a b d Hwf Hg) as [Ha Hb].
      destruct (comes_before_total (nx.nodes G) a b Ha Hb) as [->|[Hba|Hab]].
      * exists (b, b, d). split.
        -- unfold NetworkXStorage._sort_source_target.
           by rewrite (proj2 (str_gtb_false_leb b b) (str_leb_refl b)).
        -- apply edges_data_undirected_elem; [done..|]. split; [done|].
           by apply comes_before_irrefl.
      * exists (b, a, d). split.
        -- unfold NetworkXStorage._sort_source_target.
           destruct (str_gtb b a) eqn:Hgt; [done|].
           apply str_gtb_false_leb in Hgt.
           assert (a = b) as -> by (by apply str_leb_antisym).
           by apply comes_before_irrefl in Hba.
        -- apply edges_data_undirected_elem; [done..|]. split; [by rewrite Hsym|].
           by apply comes_before_asym.
      * exists (a, b, d). split.
        -- unfold NetworkXStorage._sort_source_target.
           by rewrite (proj2 (str_gtb_false_leb a b) Hle).
        -- apply edges_data_undirected_elem; [done..|]. split; [done|].
           by apply comes_before_asym.
Qed.

Lemma oriented_edges_NoDup G : wf G → NoDup (oriented_edges G).
Proof.
  intros Hwf. pose proof (edges_data_NoDup G Hwf) as Hnd.
  unfold oriented_edges, nx.is_directed.
  destruct (nx.directed G) eqn:Hd; simpl; [done|].
  apply NoDup_fmap_2_strong; [|done].
  intros [[u1 v1] d1] [[u2 v2] d2] H1 H2 Heq.
  apply edges_data_undirected_elem in H1 as [Hg1 Hb1]; [|done..].
  apply edges_data_undirected_elem in H2 as [Hg2 Hb2]; [|done..].
  destruct (get_edge_nodes G u1 v1 d1 Hwf Hg1) as [Hu1 Hv1].
  unfold NetworkXStorage._sort_source_target in Heq.
  destruct (str_gtb u1 v1) eqn:Hgt1, (str_gtb u2 v2) eqn:Hgt2;
    injection Heq as -> -> ->; try done.
  all: destruct (comes_before_total (nx.nodes G) u2 v2) as [->|[?|?]];
    try done; contradiction.
Qed.

Lemma oriented_edges_Permutation G G' :
  wf G → wf G' → same_content G G' → oriented_edges G ≡ₚ oriented_edges G'.
Proof.
  intros Hwf Hwf' (Hd & _ & He).
  apply NoDup_Permutation; [by apply oriented_edges_NoDup..|].
  intros [[a b] d]. rewrite !oriented_edges_elem by done.
  by rewrite He, Hd.
Qed.

Lemma sorted_edges_oriented G :
  NetworkXStorage.sorted_edges G = sorted edge_key (oriented_edges G).
Proof. done. Qed.

Lemma nodes_data_Permutation G G' :
  wf G → wf G' → same_content G G' → nx.nodes_data G ≡ₚ nx.nodes_data G'.
Proof.
  intros Hwf Hwf' (_ & Hn & _).
  apply odict_ext_Permutation; [apply Hwf|apply Hwf'|apply Hn].
Qed.

Lemma sorted_nodes_same G G' :
  wf G → wf G' → same_content G G' →
  NetworkXStorage.sorted_nodes G = NetworkXStorage.sorted_nodes G'.
Proof.
  intros Hwf Hwf' Hc. unfold NetworkXStorage.sorted_nodes.
  apply sorted_unique; [by apply nodes_data_Permutation|apply Hwf].
Qed.
End edge_lists.

(** ** [_stabilize_graph] and [copy] keep what the graph holds *)

Section same_content.
Implicit Types G H : nx.Graph.

Lemma same_content_refl G : same_content G G.
Proof. by split. Qed.

Lemma same_content_sym G H : same_content G H → same_content H G.
Proof. intros (? & ? & ?). by split; [|split]. Qed.

Lemma same_content_trans G H K :
  same_content G H → same_content H K → same_content G K.
Proof.
  intros (Hd & Hn & He) (Hd' & Hn' & He'). split; [congruence|]. split.
  - intros n. by rewrite Hn.
  - intros u v. by rewrite He.
Qed.

Lemma same_content_nodes G H n :
  same_content G H → n ∈ nx.nodes G ↔ n ∈ nx.nodes H.
Proof.
  intros (_ & Hn & _). unfold nx.nodes.
  rewrite <- !odict_get_is_Some. specialize (Hn n). unfold nx.get_node in Hn.
  by rewrite Hn.
Qed.

Lemma stabilize_spec H :
  wf H →
  wf (NetworkXStorage._stabilize_graph H)
  ∧ nx.directed (NetworkXStorage._stabilize_graph H) = nx.directed H
  ∧ nx.nodes_data (NetworkXStorage._stabilize_graph H)
    = NetworkXStorage.sorted_nodes H
  ∧ ∀ x y, nx.get_edge x y (NetworkXStorage._stabilize_graph H)
           = nx.get_edge x y H.
Proof.
  intros Hwf. unfold NetworkXStorage._stabilize_graph, nx.is_directed.
  assert (Hperm : NetworkXStorage.sorted_nodes H ≡ₚ nx._node H)
    by apply sorted_Permutation.
  apply build_content.
  - rewrite Hperm. apply Hwf.
  - intros n a Hin. rewrite Hperm in Hin.
    apply (wf_node_attrs H Hwf n). apply odict_get_Some; [apply Hwf|done].
  - intros Hd x y. by apply (wf_undirected H Hwf).
  - intros u v d Hin. rewrite sorted_edges_oriented in Hin.
    apply (proj1 (sorted_elem _ _ _)) in Hin.
    apply oriented_edges_elem in Hin as [Hg _]; [|done].
    split; [done|]. split; [exact (wf_edge_attrs H Hwf u v d Hg)|].
    rewrite Hperm. by apply get_edge_nodes in Hg.
  - intros x y d Hg. rewrite sorted_edges_oriented, !sorted_elem.
    rewrite !oriented_edges_elem by done.
    destruct (nx.directed H) eqn:Hd.
    + left. by split.
    + destruct (str_leb_total x y) as [Hle|Hle].
      * left. by split.
      * right. split; [done|]. split; [|done].
        by rewrite (proj1 (wf_undirected H Hwf Hd)).
Qed.

Lemma stabilize_wf H : wf H → wf (NetworkXStorage._stabilize_graph H).
Proof. intros Hwf. by apply stabilize_spec. Qed.

Lemma stabilize_same_content H :
  wf H → same_content (NetworkXStorage._stabilize_graph H) H.
Proof.
  intros Hwf. destruct (stabilize_spec H Hwf) as (Hwf' & Hd & Hn & He).
  split; [done|]. split; [|done].
  intros n. unfold nx.get_node. unfold nx.nodes_data in Hn. rewrite Hn.
  apply odict_get_Permutation; [|apply sorted_Permutation].
  unfold NetworkXStorage.sorted_nodes.
  rewrite (sorted_Permutation _ (nx.nodes_data H)). apply Hwf.
Qed.

(** Two graphs with the same content, in which no two edges have the same
    sort key, stabilize to the same graph. *)
Lemma stabilize_deterministic H H' :
  wf H → wf H' → same_content H H' →
  NoDup (edge_key <$> oriented_edges H) →
  NetworkXStorage._stabilize_graph H = NetworkXStorage._stabilize_graph H'.
Proof.
  intros Hwf Hwf' Hc Hkeys. unfold NetworkXStorage._stabilize_graph.
  rewrite (sorted_nodes_same H H') by done.
  rewrite !sorted_edges_oriented.
  rewrite (sorted_unique edge_key (oriented_edges H) (oriented_edges H'));
    [|by apply oriented_edges_Permutation|done].
  unfold nx.is_directed. by rewrite (proj1 Hc).
Qed.

Lemma copy_spec G :
  wf G →
  wf (nx.copy G) ∧ nx.directed (nx.copy G) = nx.directed G
  ∧ nx._node (nx.copy G) = nx._node G
  ∧ ∀ x y, nx.get_edge x y (nx.copy G) = nx.get_edge x y G.
Proof.
  intros Hwf. unfold nx.copy. apply build_content.
  - apply Hwf.
  - intros n a Hin. apply (wf_node_attrs G Hwf n).
    apply odict_get_Some; [apply Hwf|done].
  - intros Hd x y. by apply (wf_undirected G Hwf).
  - intros u v d Hin. apply adjacency_items_get in Hin; [|done].
    split; [done|]. split; [exact (wf_edge_attrs G Hwf u v d Hin)|].
    by apply get_edge_nodes in Hin.
  - intros x y d Hg. left. by apply adjacency_items_get.
Qed.

Lemma copy_same_content G : wf G → same_content (nx.copy G) G.
Proof.
  intros Hwf. destruct (copy_spec G Hwf) as (_ & Hd & Hn & He).
  split; [done|]. split; [|done]. intros n. unfold nx.get_node. by rewrite Hn.
Qed.

Lemma copy_nodes G : wf G → nx.nodes (nx.copy G) = nx.nodes G.
Proof.
  intros Hwf. destruct (copy_spec G Hwf) as (_ & _ & Hn & _).
  unfold nx.nodes. by rewrite Hn.
Qed.

Lemma copy_wf G : wf (nx.copy G).
Proof.
  unfold nx.copy. apply add_edges_from_wf, add_nodes_from_data_wf, wf_empty.
Qed.
End same_content.

(** ** The induced subgraph *)

Section subgraph.
Implicit Types G : nx.Graph.

Lemma filtered_items_elem {A} (E : pyenv) (ns : list pystr)
    (atlas : odict pystr A) k v :
  NoDup atlas.*1 →
  (k, v) ∈ nx.filtered_items E ns atlas ↔ k ∈ ns ∧ (k, v) ∈ atlas.
Proof.
  intros Hnd. unfold nx.filtered_items. destruct (bool_decide _).
  - rewrite list_elem_of_omap. split.
    + intros (n & Hn & Hf). rewrite (set_iter_perm E ns) in Hn.
      destruct (odict_get n atlas) as [a|] eqn:Hg; [|done].
      injection Hf as <- <-. split; [done|]. by apply odict_get_Some_elem.
    + intros [Hk Hin]. exists k. rewrite (set_iter_perm E ns). split; [done|].
      apply odict_get_Some in Hin; [|done]. by rewrite Hin.
  - rewrite list_elem_of_filter. done.
Qed.

Lemma omap_keys_NoDup {A} (atlas : odict pystr A) (l : list pystr) :
  NoDup l → NoDup (omap (fun n => pair n <$> odict_get n atlas) l).*1.
Proof.
  induction 1 as [|n l Hn Hnd IH]; csimpl; [constructor|].
  destruct (odict_get n atlas) as [a|]; csimpl; [|done].
  constructor; [|done]. intros Hin.
  apply list_elem_of_fmap in Hin as ([k v] & -> & Hin).
  apply list_elem_of_omap in Hin as (n' & Hn' & Hf).
  destruct (odict_get n' atlas); [|done]. injection Hf as <- <-. done.
Qed.

Lemma filtered_items_NoDup {A} (E : pyenv) (ns : list pystr)
    (atlas : odict pystr A) :
  NoDup atlas.*1 → NoDup ns → NoDup (nx.filtered_items E ns atlas).*1.
Proof.
  intros Hnd Hns. unfold nx.filtered_items. destruct (bool_decide _).
  - apply omap_keys_NoDup. by rewrite (set_iter_perm E ns).
  - apply (sublist_NoDup _ atlas.*1); [exact Hnd|].
    apply fmap_sublist, sublist_filter.
Qed.

Lemma subgraph_copy_spec (E : pyenv) (C : list pystr) G :
  wf G → NoDup C →
  wf (nx.subgraph_copy E C G)
  ∧ nx.directed (nx.subgraph_copy E C G) = nx.directed G
  ∧ (∀ n, nx.get_node n (nx.subgraph_copy E C G)
          = if decide (n ∈ C) then nx.get_node n G else None)
  ∧ (∀ x y, nx.get_edge x y (nx.subgraph_copy E C G)
            = if decide (x ∈ C ∧ y ∈ C) then nx.get_edge x y G else None).
Proof.
  intros Hwf HC.
  pose proof (wf_nodes G Hwf) as Hnd.
  assert (Hadj : NoDup (nx._adj G).*1) by (by rewrite (wf_adj_keys G Hwf)).
  assert (Hes : ∀ u v d,
    (u, v, d) ∈ nx.adjacency_items
        (map (fun un => (un.1, filter (fun vd => vd.1 ∈ C) un.2))
           (nx.filtered_items E C (nx._adj G)))
    ↔ u ∈ C ∧ v ∈ C ∧ nx.get_edge u v G = Some d).
  { intros u v d. rewrite adjacency_items_elem, get_edge_elem by done. split.
    - intros (nbrs' & Hu & Hv).
      apply list_elem_of_fmap in Hu as ([u' nbrs] & [= -> ->] & Hu).
      apply filtered_items_elem in Hu as [HuC Hu]; [|done].
      apply list_elem_of_filter in Hv as [HvC Hv].
      split; [done|]. split; [done|]. by exists nbrs.
    - intros (HuC & HvC & nbrs & Hu & Hv).
      exists (filter (fun vd => vd.1 ∈ C) nbrs). split.
      + apply list_elem_of_fmap. exists (u, nbrs). split; [done|].
        by apply filtered_items_elem.
      + by apply list_elem_of_filter. }
  assert (Hns : ∀ n a, (n, a) ∈ nx.filtered_items E C (nx._node G)
                       ↔ n ∈ C ∧ nx.get_node n G = Some a).
  { intros n a. rewrite filtered_items_elem by done.
    unfold nx.get_node. by rewrite odict_get_Some. }
  assert (Hkeys : NoDup (nx.filtered_items E C (nx._node G)).*1)
    by (by apply filtered_items_NoDup).
  destruct (build_content (nx.directed G)
              (nx.filtered_items E C (nx._node G))
              (nx.adjacency_items
                 (map (fun un => (un.1, filter (fun vd => vd.1 ∈ C) un.2))
                    (nx.filtered_items E C (nx._adj G))))
              (fun x y => if decide (x ∈ C ∧ y ∈ C)
                          then nx.get_edge x y G else None))
    as (Hwf' & Hd & Hn & He).
  - done.
  - intros n a [_ Hg]%Hns. exact (wf_node_attrs G Hwf n a Hg).
  - intros Hd x y. rewrite (proj1 (wf_undirected G Hwf Hd) x y).
    destruct (decide (y ∈ C ∧ x ∈ C)), (decide (x ∈ C ∧ y ∈ C)); naive_solver.
  - intros u v d (HuC & HvC & Hg)%Hes.
    rewrite decide_True by done. split; [done|].
    split; [exact (wf_edge_attrs G Hwf u v d Hg)|].
    destruct (get_edge_nodes G u v d Hwf Hg) as [Hu Hv].
    apply (odict_get_is_Some (V := attrs)) in Hu as [a Ha].
    apply (odict_get_is_Some (V := attrs)) in Hv as [b Hb].
    split; apply list_elem_of_fmap.
    + exists (u, a). split; [done|]. by apply Hns.
    + exists (v, b). split; [done|]. by apply Hns.
  - intros x y d. destruct (decide _) as [[? ?]|]; [|done].
    intros Hg. left. by apply Hes.
  - split; [exact Hwf'|]. split; [exact Hd|]. split; [|exact He].
    intros n. unfold nx.get_node at 1. unfold nx.subgraph_copy. rewrite Hn.
    apply option_eq_Some_iff. intros a.
    rewrite odict_get_Some by done. rewrite Hns.
    destruct (decide (n ∈ C)); naive_solver.
Qed.

Lemma subgraph_copy_nodes (E : pyenv) (C : list pystr) G n :
  wf G → NoDup C →
  n ∈ nx.nodes (nx.subgraph_copy E C G) ↔ n ∈ C ∧ n ∈ nx.nodes G.
Proof.
  intros Hwf HC. destruct (subgraph_copy_spec E C G Hwf HC) as (_ & _ & Hn & _).
  unfold nx.nodes. rewrite <- !odict_get_is_Some.
  specialize (Hn n). unfold nx.get_node in Hn. rewrite Hn.
  destruct (decide (n ∈ C)); [naive_solver|].
  split; [by intros [? ?]|naive_solver].
Qed.

(** [largest_connected_component] removes no node from the copy of the
    subgraph. *)
Lemma largest_connected_component_eq (E : pyenv) G lcc :
  wf G →
  graspologic.largest_connected_component E G = ret lcc →
  ∃ C, graspologic.py_max_len (nx.connected_components G) = ret C
       ∧ (NoDup C → lcc = nx.subgraph_copy E C G).
Proof.
  intros Hwf. unfold graspologic.largest_connected_component.
  destruct (graspologic.py_max_len _) as [e|C] eqn:Hmax; [done|].
  simpl. intros [= <-]. exists C. split; [done|]. intros HC.
  assert (Hnone : filter (fun n => n ∉ C) (nx.nodes (nx.subgraph_copy E C G)) = []).
  { destruct (filter _ _) as [|n l] eqn:Hf; [done|].
    assert (Hn : n ∈ filter (fun n => n ∉ C) (nx.nodes (nx.subgraph_copy E C G)))
      by (rewrite Hf; left).
    apply list_elem_of_filter in Hn as [Hout Hn].
    apply subgraph_copy_nodes in Hn as [? _]; done. }
  by rewrite Hnone.
Qed.
End subgraph.

(** ** Renaming the nodes *)

Section odict_update_lookup.
Context {K V : Type} `{EqDecision K}.
Implicit Types d l : odict K V.

Lemma odict_update_fst_same d l :
  (∀ k, k ∈ l.*1 → k ∈ d.*1) → (odict_update d l).*1 = d.*1.
Proof.
  unfold odict_update. revert d.
  induction l as [|[k v] l IH]; intros d Hl; csimpl; [done|].
  assert (Hk : k ∈ d.*1) by (apply Hl; left).
  rewrite IH.
  - rewrite odict_set_fst. by rewrite decide_True.
  - intros k' Hk'. apply odict_set_elem_fst. right. apply Hl. by right.
Qed.

Lemma odict_get_update_Some d l k a :
  odict_get k (odict_update d l) = Some a → (k, a) ∈ l ∨ odict_get k d = Some a.
Proof.
  unfold odict_update. revert d.
  induction l as [|[k1 v1] l IH]; intros d; simpl; [by right|].
  intros Hg. apply IH in Hg as [Hin|Hg]; [left; by right|].
  destruct (decide (k1 = k)) as [->|Hne].
  - rewrite odict_get_set_eq in Hg. injection Hg as ->. left. left.
  - rewrite odict_get_set_ne in Hg by done. by right.
Qed.

(** Updating with a list of distinct keys: the items of the list win. *)
Lemma odict_get_update d l k :
  NoDup l.*1 →
  odict_get k (odict_update d l)
  = match odict_get k l with Some a => Some a | None => odict_get k d end.
Proof.
  unfold odict_update. revert d.
  induction l as [|[k1 v1] l IH]; intros d Hnd; simpl; [done|].
  csimpl in Hnd. apply NoDup_cons in Hnd as [Hk1 Hnd].
  rewrite IH by done. destruct (decide (k1 = k)) as [->|Hne].
  - apply (odict_get_None (V := V)) in Hk1. rewrite Hk1.
    by rewrite odict_get_set_eq.
  - by rewrite odict_get_set_ne.
Qed.

Lemma odict_of_items_NoDup l : NoDup l.*1 → odict_of_items l = l.
Proof. apply odict_update_nil. Qed.
End odict_update_lookup.

Section relabel.
Implicit Types G H : nx.Graph.

Lemma add_nodes_from_spec ns G :
  wf G →
  wf (nx.add_nodes_from ns G)
  ∧ nx.directed (nx.add_nodes_from ns G) = nx.directed G
  ∧ (∀ n, n ∈ nx.nodes (nx.add_nodes_from ns G) ↔ n ∈ nx.nodes G ∨ n ∈ ns)
  ∧ (∀ x y, nx.get_edge x y (nx.add_nodes_from ns G) = nx.get_edge x y G)
  ∧ (∀ n a, nx.get_node n (nx.add_nodes_from ns G) = Some a →
            a = [] ∨ nx.get_node n G = Some a).
Proof.
  unfold nx.add_nodes_from. revert G.
  induction ns as [|m ns IH]; intros G Hwf; simpl.
  - split; [done|]. split; [done|]. split; [|split; [done|by right]].
    intros n. rewrite elem_of_nil. naive_solver.
  - destruct (IH (nx.add_node m [] G)) as (Hwf' & Hd & Hn & He & Ha);
      [by apply add_node_wf|].
    split; [done|]. split; [by rewrite Hd, add_node_directed|].
    split; [|split].
    + intros n. rewrite Hn, add_node_nodes, new_node_elem, elem_of_cons.
      naive_solver.
    + intros x y. by rewrite He, add_node_get_edge.
    + intros n a Hg. apply Ha in Hg as [->|Hg]; [by left|].
      rewrite add_node_get_node in Hg. destruct (decide (n = m)) as [->|]; [|by right].
      injection Hg as <-. destruct (nx.get_node m G) as [b|]; simpl; [|by left].
      by right.
Qed.

Lemma wf_update_node_attrs H (l : odict pystr attrs) :
  wf H → (∀ k, k ∈ l.*1 → k ∈ nx.nodes H) → (∀ k a, (k, a) ∈ l → NoDup a.*1) →
  wf (nx.mk (nx.directed H) (odict_update (nx._node H) l) (nx._adj H) (nx._pred H)).
Proof.
  intros Hwf Hk Ha.
  assert (Hn : (odict_update (nx._node H) l).*1 = nx.nodes H)
    by (by apply odict_update_fst_same).
  split; unfold nx.nodes, nx.get_edge, nx.get_node; simpl; rewrite ?Hn;
    try apply Hwf.
  intros n a [Hin|Hg]%odict_get_update_Some.
  - by eapply Ha.
  - exact (wf_node_attrs H Hwf n a Hg).
Qed.

Lemma relabel_nodes_spec mapping G :
  wf G →
  wf (nx.relabel_nodes mapping G)
  ∧ nx.directed (nx.relabel_nodes mapping G) = nx.directed G
  ∧ (∀ n', n' ∈ nx.nodes (nx.relabel_nodes mapping G)
           ↔ ∃ n, n ∈ nx.nodes G ∧ n' = mapping_get mapping n).
Proof.
  intros Hwf. unfold nx.relabel_nodes.
  fold (mapping_get mapping).
  destruct (add_nodes_from_spec (map (mapping_get mapping) (nx.nodes G))
              (nx.empty (nx.directed G)) (wf_empty _))
    as (Hwf0 & Hd0 & Hn0 & He0 & Ha0).
  set (H0 := nx.add_nodes_from _ _) in *.
  set (l := map (fun nd => (mapping_get mapping nd.1, nd.2)) (nx.nodes_data G)).
  assert (Hl : ∀ k, k ∈ l.*1 → k ∈ nx.nodes H0).
  { intros k Hk. apply Hn0. right.
    apply list_elem_of_fmap in Hk as ([k' a] & -> & Hin).
    apply list_elem_of_fmap in Hin as ([n a'] & [= -> ->] & Hin).
    apply list_elem_of_fmap. exists n. split; [done|].
    apply list_elem_of_fmap. by exists (n, a'). }
  assert (Hwf1 : wf (nx.mk (nx.directed H0) (odict_update (nx._node H0) l)
                       (nx._adj H0) (nx._pred H0))).
  { apply wf_update_node_attrs; [done|done|].
    intros k a Hin. apply list_elem_of_fmap in Hin as ([n a'] & [= -> ->] & Hin).
    apply (wf_node_attrs G Hwf n). apply odict_get_Some; [apply Hwf|done]. }
  set (H1 := nx.mk _ _ _ _) in *.
  assert (Hn1 : nx.nodes H1 = nx.nodes H0)
    by (by apply odict_update_fst_same).
  split; [by apply add_edges_from_wf|].
  split; [by rewrite add_edges_from_directed|].
  intros n'. unfold nx.nodes at 1. rewrite add_edges_from_node_same.
  - fold (nx.nodes H1). rewrite Hn1, Hn0. simpl. rewrite elem_of_nil.
    rewrite list_elem_of_fmap. naive_solver.
  - intros u v d Hin.
    apply list_elem_of_fmap in Hin as ([[u0 v0] d0] & [= -> -> ->] & Hin).
    apply edges_data_get_edge, get_edge_nodes in Hin as [Hu Hv]; [|done..].
    rewrite Hn1. split; apply Hn0; right; apply list_elem_of_fmap; eauto.
Qed.

Lemma fst_map_pair {A B} (g : A → B) (l : list A) :
  (map (fun x => (x, g x)) l).*1 = l.
Proof. induction l as [|x l IH]; csimpl; [done|]. by rewrite IH. Qed.

Lemma node_mapping_items (E : pyenv) (l : list pystr) items :
  mapM (fun node => let* id := NetworkXStorage.normalize_id E node in
                    ret (node, id)) l = ret items →
  items.*1 = l
  ∧ Forall (fun it => NetworkXStorage.normalize_id E it.1 = ret it.2) items.
Proof.
  intros Hm. apply mapM_ret_inv in Hm.
  induction Hm as [|n it l items Hn _ [IH1 IH2]]; [by split|].
  destruct (NetworkXStorage.normalize_id E n) as [e|id] eqn:Hid; [done|].
  simpl in Hn. injection Hn as <-. csimpl. rewrite IH1.
  split; [done|]. by constructor.
Qed.

(** A mapping that [node_mapping] returns holds, for every node, what
    [normalize_id] returns for it. *)
Lemma node_mapping_get (E : pyenv) G m n :
  wf G → NetworkXStorage.node_mapping E G = ret m → n ∈ nx.nodes G →
  NetworkXStorage.normalize_id E n = ret (mapping_get m n).
Proof.
  intros Hwf Hm Hn. unfold NetworkXStorage.node_mapping in Hm.
  destruct (mapM _ (nx.nodes G)) as [e|items] eqn:Hitems; [done|].
  simpl in Hm. injection Hm as <-.
  destruct (node_mapping_items E _ _ Hitems) as [Hfst Hall].
  assert (Hnd : NoDup items.*1) by (rewrite Hfst; apply Hwf).
  rewrite odict_of_items_NoDup by done.
  rewrite <- Hfst in Hn. apply list_elem_of_fmap in Hn as ([n' id] & -> & Hin).
  apply (proj1 (Forall_forall _ _) Hall) in Hin as Hid. simpl in *.
  unfold mapping_get. by rewrite (proj2 (odict_get_Some n' id items Hnd) Hin).
Qed.

Lemma node_mapping_total (E : pyenv) G :
  (∀ n, n ∈ nx.nodes G → ∃ id, NetworkXStorage.normalize_id E n = ret id) →
  ∃ m, NetworkXStorage.node_mapping E G = ret m.
Proof.
  intros Hall. unfold NetworkXStorage.node_mapping.
  destruct (mapM_total
              (fun node => let* id := NetworkXStorage.normalize_id E node in
                           ret (node, id)) (nx.nodes G)) as (items & -> & _).
  - apply Forall_forall. intros n Hn. destruct (Hall n Hn) as [id Hid].
    exists (n, id). by rewrite Hid.
  - by eexists.
Qed.

Lemma node_mapping_raise_inv (E : pyenv) G ex :
  NetworkXStorage.node_mapping E G = raise ex →
  ∃ n, n ∈ nx.nodes G ∧ NetworkXStorage.normalize_id E n = raise ex.
Proof.
  unfold NetworkXStorage.node_mapping.
  destruct (mapM _ (nx.nodes G)) as [e|items] eqn:Hitems; simpl;
    [|unfold ret, raise; congruence].
  intros [= ->]. apply mapM_raise_inv in Hitems as (n & Hn & Hr).
  exists n. split; [done|].
  destruct (NetworkXStorage.normalize_id E n); simpl in Hr;
    unfold ret, raise in *; congruence.
Qed.

Lemma node_mapping_raises (E : pyenv) G n ex :
  n ∈ nx.nodes G → NetworkXStorage.normalize_id E n = raise ex →
  ∃ ex', NetworkXStorage.node_mapping E G = raise ex'.
Proof.
  intros Hn Hr. unfold NetworkXStorage.node_mapping.
  destruct (mapM_raise
              (fun node => let* id := NetworkXStorage.normalize_id E node in
                           ret (node, id)) (nx.nodes G) n ex Hn) as [ex' ->].
  - by rewrite Hr.
  - by exists ex'.
Qed.
End relabel.

(** ** Breadth-first search and the connected components *)

Section sets.
Implicit Types s l : list pystr.

Lemma set_add_elem x y s : y ∈ set_add x s ↔ y = x ∨ y ∈ s.
Proof.
  unfold set_add. destruct (decide (x ∈ s)).
  - naive_solver.
  - rewrite elem_of_app, list_elem_of_singleton. naive_solver.
Qed.

Lemma set_add_NoDup x s : NoDup s → NoDup (set_add x s).
Proof.
  intros Hnd. unfold set_add. destruct (decide (x ∈ s)); [done|].
  apply NoDup_app. split; [done|]. split; [|apply NoDup_singleton].
  intros y Hy ->%list_elem_of_singleton. done.
Qed.

Lemma set_add_length x s : x ∉ s → length (set_add x s) = S (length s).
Proof.
  intros Hx. unfold set_add. rewrite decide_False by done.
  rewrite length_app. simpl. lia.
Qed.

Lemma set_update_elem y s l : y ∈ set_update s l ↔ y ∈ s ∨ y ∈ l.
Proof.
  unfold set_update. revert s. induction l as [|x l IH]; intros s; simpl.
  - rewrite elem_of_nil. naive_solver.
  - rewrite IH, set_add_elem, elem_of_cons. naive_solver.
Qed.

Lemma set_update_NoDup s l : NoDup s → NoDup (set_update s l).
Proof.
  unfold set_update. revert s. induction l as [|x l IH]; intros s Hs; simpl;
    [done|].
  by apply IH, set_add_NoDup.
Qed.

Lemma set_update_nil_inv s l : set_update s l = [] → s = [] ∧ l = [].
Proof.
  intros H. destruct s as [|a s].
  - split; [done|]. destruct l as [|x l]; [done|].
    assert (Hx : x ∈ set_update [] (x :: l))
      by (apply set_update_elem; right; left).
    rewrite H in Hx. by apply elem_of_nil in Hx.
  - assert (Ha : a ∈ set_update (a :: s) l)
      by (apply set_update_elem; left; left).
    rewrite H in Ha. by apply elem_of_nil in Ha.
Qed.
End sets.

Section bfs.
Variable G : nx.Graph.
Hypothesis Hwf : wf G.

Lemma adjacent_iff u v :
  adjacent G u v
  ↔ is_Some (nx.get_edge u v G)
    ∨ (nx.directed G = true ∧ is_Some (nx.get_edge v u G)).
Proof.
  unfold adjacent, nx.neighbors. rewrite elem_of_app.
  assert (Hadj : v ∈ (default [] (odict_get u (nx._adj G))).*1
                 ↔ is_Some (nx.get_edge u v G)).
  { unfold nx.get_edge. destruct (odict_get u (nx._adj G)) as [nbrs|]; simpl.
    - by rewrite odict_get_is_Some.
    - rewrite elem_of_nil. split; [done|by intros [? ?]]. }
  rewrite Hadj. destruct (nx.directed G) eqn:Hd.
  - destruct (wf_directed G Hwf Hd) as (_ & _ & Hmir).
    rewrite <- (Hmir v u). unfold adj_get.
    destruct (odict_get u (nx._pred G)) as [nbrs|]; simpl.
    + rewrite odict_get_is_Some. naive_solver.
    + rewrite elem_of_nil. split; [intros [?|?]; [by left|done]|].
      intros [?|[_ [? ?]]]; [by left|done].
  - rewrite elem_of_nil. naive_solver.
Qed.

Lemma adjacent_sym u v : adjacent G u v → adjacent G v u.
Proof.
  rewrite !adjacent_iff. destruct (nx.directed G) eqn:Hd.
  - naive_solver.
  - rewrite (proj1 (wf_undirected G Hwf Hd) u v). naive_solver.
Qed.

Lemma adjacent_nodes u v : adjacent G u v → u ∈ nx.nodes G ∧ v ∈ nx.nodes G.
Proof.
  rewrite adjacent_iff. intros [[d Hg]|[_ [d Hg]]];
    apply get_edge_nodes in Hg as [? ?]; done.
Qed.

Lemma connected_sym u v : connected G u v → connected G v u.
Proof.
  unfold connected. induction 1 as [|u w v Huw _ IH]; [apply rtc_refl|].
  eapply rtc_r; [exact IH|]. by apply adjacent_sym.
Qed.

Lemma connected_nodes u v : u ∈ nx.nodes G → connected G u v → v ∈ nx.nodes G.
Proof.
  intros Hu. unfold connected. induction 1 as [|u w v Huw _ IH]; [done|].
  apply IH. by apply adjacent_nodes in Huw as [_ ?].
Qed.

(** One round of the [for v in thislevel] loop. *)
Lemma bfs_visit_fold_spec (source : pystr) (thislevel : list pystr)
    (seen next : list pystr) :
  let acc := foldl (nx.bfs_visit G) (seen, next) thislevel in
  (NoDup seen → NoDup acc.1)
  ∧ (∀ x, x ∈ acc.1 ↔ x ∈ seen ∨ x ∈ thislevel)
  ∧ (∀ x, x ∈ acc.2 → x ∈ next ∨ ∃ v, v ∈ thislevel ∧ adjacent G v x)
  ∧ (∀ x, x ∈ next → x ∈ acc.2)
  ∧ (∀ v x, v ∈ acc.1 → v ∉ seen → adjacent G v x → x ∈ acc.2)
  ∧ length seen ≤ length acc.1
  ∧ (next = [] → acc.2 ≠ [] → length seen < length acc.1).
Proof.
  revert seen next. induction thislevel as [|v l IH]; intros seen next; simpl.
  - repeat split; try done.
    + by left.
    + intros [?|?%elem_of_nil]; done.
    + by left.
  - assert (Hstep : nx.bfs_visit G (seen, next) v
                    = if decide (v ∈ seen) then (seen, next)
                      else (set_add v seen,
                            set_update next (nx.neighbors G v))) by done.
    rewrite Hstep. clear Hstep.
    destruct (decide (v ∈ seen)) as [Hv|Hv].
    + destruct (IH seen next) as (H1 & H2 & H3 & H4 & H5 & H6 & H7).
      split; [done|]. split.
      { intros x. rewrite H2, elem_of_cons. naive_solver. }
      split.
      { intros x Hx. apply H3 in Hx as [?|(w & Hw & Ha)]; [by left|].
        right. exists w. split; [by right|done]. }
      done.
    + destruct (IH (set_add v seen) (set_update next (nx.neighbors G v)))
        as (H1 & H2 & H3 & H4 & H5 & H6 & H7).
      rewrite set_add_length in H6 by done.
      split; [intros ?; by apply H1, set_add_NoDup|]. split.
      { intros x. rewrite H2, set_add_elem, elem_of_cons. naive_solver. }
      split.
      { intros x Hx. apply H3 in Hx as [Hx|(w & Hw & Ha)].
        - apply set_update_elem in Hx as [?|Hx]; [by left|].
          right. exists v. split; [left|done].
        - right. exists w. split; [by right|done]. }
      split.
      { intros x Hx. apply H4, set_update_elem. by left. }
      split.
      { intros w x Hw Hws Ha.
        destruct (decide (w = v)) as [->|Hne].
        - apply H4, set_update_elem. by right.
        - apply (H5 w x); [done| |done].
          rewrite set_add_elem. naive_solver. }
      split; [lia|]. intros _ _. lia.
Qed.

(** What the [while] loop keeps: the nodes seen are reachable from the
    source, and the neighbours of a node seen are seen or in the next
    level. *)
Lemma bfs_levels_spec (source : pystr) fuel seen next :
  NoDup seen →
  (∀ x, x ∈ seen → connected G source x) →
  (∀ x, x ∈ next → connected G source x) →
  (∀ x, x ∈ seen → x ∈ nx.nodes G) →
  (∀ x, x ∈ next → x ∈ nx.nodes G) →
  (∀ v x, v ∈ seen → adjacent G v x → x ∈ seen ∨ x ∈ next) →
  length (nx.nodes G) - length seen + 2 ≤ fuel →
  let r := nx.bfs_levels fuel G seen next in
  NoDup r
  ∧ (∀ x, x ∈ r → connected G source x)
  ∧ (∀ x, x ∈ seen ∨ x ∈ next → x ∈ r)
  ∧ (∀ v x, v ∈ r → adjacent G v x → x ∈ r).
Proof.
  revert seen next.
  induction fuel as [|fuel IH]; intros seen next Hnd Hs Hn Hsn Hnn Hcl Hfuel;
    [lia|].
  simpl. destruct next as [|n0 next'] eqn:Hnext.
  { split; [done|]. split; [done|]. split.
    - intros x [?|?%elem_of_nil]; done.
    - intros v x Hv Ha. destruct (Hcl v x Hv Ha) as [?|?%elem_of_nil]; done. }
  rewrite <- Hnext in *. clear Hnext n0 next'.
  destruct (bfs_visit_fold_spec source next seen [])
    as (H1 & H2 & H3 & H4 & H5 & H6 & H7).
  set (acc := foldl (nx.bfs_visit G) (seen, []) next) in *.
  assert (Hsub : ∀ x, x ∈ acc.1 → x ∈ nx.nodes G).
  { intros x [?|?]%H2; auto. }
  assert (Hlen : length acc.1 ≤ length (nx.nodes G)).
  { apply submseteq_length, NoDup_submseteq; [by apply H1|done]. }
  assert (Hacc2 : ∀ x, x ∈ acc.2 → ∃ v, v ∈ next ∧ adjacent G v x).
  { intros x [?%elem_of_nil|?]%H3; done. }
  assert (Hclosed : ∀ v x, v ∈ acc.1 → adjacent G v x → x ∈ acc.1 ∨ x ∈ acc.2).
  { intros v x Hv Ha. destruct (decide (v ∈ seen)) as [Hvs|Hvs].
    - destruct (Hcl v x Hvs Ha) as [?|?]; left; apply H2; auto.
    - right. by apply (H5 v x). }
  destruct (decide (acc.2 = [])) as [Hempty|Hne].
  - rewrite Hempty.
    assert (Hr : nx.bfs_levels fuel G acc.1 [] = acc.1) by (by destruct fuel).
    rewrite Hr. split; [by apply H1|]. split.
    { intros x [?|?]%H2; auto. }
    split.
    { intros x Hx. by apply H2. }
    intros v x Hv Ha. destruct (Hclosed v x Hv Ha) as [?|Hx]; [done|].
    rewrite Hempty in Hx. by apply elem_of_nil in Hx.
  - specialize (H7 eq_refl Hne).
    destruct (IH acc.1 acc.2) as (R1 & R2 & R3 & R4).
    + by apply H1.
    + intros x [?|?]%H2; auto.
    + intros x (v & Hv & Ha)%Hacc2. eapply rtc_r; [by apply Hn|done].
    + done.
    + intros x (v & Hv & Ha)%Hacc2. by apply adjacent_nodes in Ha as [_ ?].
    + done.
    + lia.
    + split; [done|]. split; [done|]. split; [|done].
      intros x Hx. apply R3. left. by apply H2.
Qed.

(** [_plain_bfs] returns the connected component of its source. *)
Lemma plain_bfs_spec (source : pystr) :
  source ∈ nx.nodes G →
  NoDup (nx._plain_bfs G source)
  ∧ ∀ x, x ∈ nx._plain_bfs G source ↔ connected G source x.
Proof.
  intros Hs. unfold nx._plain_bfs.
  destruct (bfs_levels_spec source (2 + length (nx._node G)) [] [source])
    as (R1 & R2 & R3 & R4).
  - constructor.
  - intros x ?%elem_of_nil. done.
  - intros x ->%list_elem_of_singleton. apply rtc_refl.
  - intros x ?%elem_of_nil. done.
  - intros x ->%list_elem_of_singleton. done.
  - intros v x ?%elem_of_nil. done.
  - unfold nx.nodes. rewrite length_fmap. simpl. lia.
  - split; [done|]. intros x. split; [apply R2|].
    unfold connected. revert x. apply rtc_ind_r.
    + apply R3. right. left.
    + intros y z _ Hyz Hy. by eapply R4.
Qed.
End bfs.

Section components.
Implicit Types G : nx.Graph.

Lemma adjacent_same_content G G' u v :
  wf G → wf G' → same_content G G' → adjacent G u v ↔ adjacent G' u v.
Proof.
  intros Hwf Hwf' (Hd & _ & He). rewrite !adjacent_iff by done.
  by rewrite !He, Hd.
Qed.

Lemma connected_same_content G G' u v :
  wf G → wf G' → same_content G G' → connected G u v ↔ connected G' u v.
Proof.
  intros Hwf Hwf' Hc. unfold connected. split.
  - apply rtc_subrel. intros x y Hxy.
    by apply (adjacent_same_content G G' x y Hwf Hwf' Hc).
  - apply rtc_subrel. intros x y Hxy.
    by apply (adjacent_same_content G G' x y Hwf Hwf' Hc).
Qed.

Lemma plain_bfs_self G s : wf G → s ∈ nx.nodes G → s ∈ nx._plain_bfs G s.
Proof.
  intros Hwf Hs. apply (plain_bfs_spec G Hwf s Hs). apply rtc_refl.
Qed.

Lemma components_from_elem G seen vs c :
  c ∈ nx.components_from G seen vs →
  ∃ s, s ∈ vs ∧ s ∉ seen ∧ c = nx._plain_bfs G s.
Proof.
  revert seen. induction vs as [|v vs IH]; intros seen; simpl.
  - by intros ?%elem_of_nil.
  - destruct (decide (v ∈ seen)) as [Hv|Hv].
    + intros (s & Hs & Hns & ->)%IH. exists s. split; [by right|done].
    + intros [->|Hin]%elem_of_cons.
      * exists v. split; [left|done].
      * apply IH in Hin as (s & Hs & Hns & ->). exists s.
        split; [by right|]. split; [|done].
        intros Hin. apply Hns, set_update_elem. by left.
Qed.

Lemma components_from_cover G seen vs v :
  wf G → (∀ x, x ∈ vs → x ∈ nx.nodes G) → v ∈ vs →
  v ∈ seen ∨ ∃ c, c ∈ nx.components_from G seen vs ∧ v ∈ c.
Proof.
  intros Hwf. revert seen. induction vs as [|w vs IH]; intros seen Hvs Hv; simpl.
  - by apply elem_of_nil in Hv.
  - assert (Hvs' : ∀ x, x ∈ vs → x ∈ nx.nodes G)
      by (intros x Hx; apply Hvs; by right).
    destruct (decide (w ∈ seen)) as [Hw|Hw].
    + apply elem_of_cons in Hv as [->|Hv]; [by left|]. by apply IH.
    + apply elem_of_cons in Hv as [->|Hv].
      * right. exists (nx._plain_bfs G w). split; [left|].
        apply plain_bfs_self; [done|]. apply Hvs. left.
      * destruct (IH (set_update seen (nx._plain_bfs G w)) Hvs' Hv)
          as [Hin|(c & Hc & Hvc)].
        -- apply set_update_elem in Hin as [?|?]; [by left|].
           right. exists (nx._plain_bfs G w). split; [left|done].
        -- right. exists c. split; [by right|done].
Qed.

(** Where a component stands in the list: its source comes after the
    sources of the components before it, which cover the nodes passed, and
    before the sources of the components after it. *)
Lemma components_from_split G seen vs l1 c l2 :
  wf G → (∀ x, x ∈ vs → x ∈ nx.nodes G) →
  nx.components_from G seen vs = l1 ++ c :: l2 →
  ∃ vs1 s vs2,
    vs = vs1 ++ s :: vs2 ∧ c = nx._plain_bfs G s ∧ s ∉ seen
    ∧ (∀ c', c' ∈ l1 → s ∉ c')
    ∧ (∀ v, v ∈ vs1 → v ∈ seen ∨ ∃ c', c' ∈ l1 ∧ v ∈ c')
    ∧ (∀ c', c' ∈ l2 → ∃ s', s' ∈ vs2 ∧ c' = nx._plain_bfs G s').
Proof.
  intros Hwf. revert seen l1.
  induction vs as [|w vs IH]; intros seen l1 Hvs; simpl.
  - intros H. by destruct l1.
  - assert (Hvs' : ∀ x, x ∈ vs → x ∈ nx.nodes G)
      by (intros x Hx; apply Hvs; by right).
    destruct (decide (w ∈ seen)) as [Hw|Hw].
    + intros (vs1 & s & vs2 & -> & -> & Hs & H1 & H2 & H3)%IH; [|done].
      exists (w :: vs1), s, vs2. split; [done|]. split; [done|].
      split; [done|]. split; [done|]. split; [|done].
      intros v [->|Hv]%elem_of_cons; [by left|by apply H2].
    + destruct l1 as [|c0 l1]; simpl.
      * intros [= <- <-]. exists [], w, vs. split; [done|]. split; [done|].
        split; [done|]. split; [by intros ? ?%elem_of_nil|].
        split; [by intros ? ?%elem_of_nil|].
        intros c' (s' & Hs' & _ & ->)%components_from_elem. by exists s'.
      * intros [= <- Hrest].
        apply IH in Hrest as (vs1 & s & vs2 & -> & -> & Hs & H1 & H2 & H3);
          [|done].
        exists (w :: vs1), s, vs2. split; [done|]. split; [done|].
        rewrite set_update_elem in Hs.
        split; [naive_solver|]. split.
        { intros c' [->|Hc']%elem_of_cons; [naive_solver|by apply H1]. }
        split; [|done].
        intros v [->|Hv]%elem_of_cons.
        -- right. exists (nx._plain_bfs G w). split; [left|].
           apply plain_bfs_self; [done|]. apply Hvs. left.
        -- destruct (H2 v Hv) as [Hin|(c' & Hc' & Hvc)].
           ++ apply set_update_elem in Hin as [?|?]; [by left|].
              right. exists (nx._plain_bfs G w). split; [left|done].
           ++ right. exists c'. split; [by right|done].
Qed.

Lemma max_by_len_first pre best mid l :
  (∀ c, c ∈ pre → length c < length best) →
  (∀ c, c ∈ mid → length c ≤ length best) →
  ∃ l1 l2,
    pre ++ best :: mid ++ l = l1 ++ graspologic.max_by_len best l :: l2
    ∧ (∀ c, c ∈ l1 → length c < length (graspologic.max_by_len best l))
    ∧ (∀ c, c ∈ l2 → length c ≤ length (graspologic.max_by_len best l)).
Proof.
  revert pre best mid. induction l as [|c l IH]; intros pre best mid Hpre Hmid;
    simpl.
  - exists pre, mid. by rewrite app_nil_r.
  - destruct (bool_decide (length best < length c)) eqn:Hlt.
    + apply bool_decide_eq_true in Hlt.
      destruct (IH (pre ++ best :: mid) c []) as (l1 & l2 & Heq & H1 & H2).
      * intros x [Hx|[->|Hx]%elem_of_cons]%elem_of_app; [|done|].
        -- specialize (Hpre x Hx). lia.
        -- specialize (Hmid x Hx). lia.
      * by intros x ?%elem_of_nil.
      * exists l1, l2. split; [|done]. rewrite <- Heq.
        by rewrite <- !app_assoc.
    + apply bool_decide_eq_false in Hlt.
      destruct (IH pre best (mid ++ [c])) as (l1 & l2 & Heq & H1 & H2).
      * done.
      * intros x [Hx|Hx]%elem_of_app; [by apply Hmid|].
        apply list_elem_of_singleton in Hx as ->. lia.
      * exists l1, l2. split; [|done]. rewrite <- Heq.
        by rewrite <- !app_assoc.
Qed.

Lemma py_max_len_spec l C :
  graspologic.py_max_len l = ret C →
  ∃ l1 l2, l = l1 ++ C :: l2
    ∧ (∀ c, c ∈ l1 → length c < length C)
    ∧ (∀ c, c ∈ l2 → length c ≤ length C).
Proof.
  destruct l as [|c l]; simpl; [done|]. intros [= <-].
  destruct (max_by_len_first [] c [] l) as (l1 & l2 & Heq & H1 & H2);
    [by intros ? ?%elem_of_nil..|].
  exists l1, l2. done.
Qed.

Lemma py_max_len_elem l C : graspologic.py_max_len l = ret C → C ∈ l.
Proof.
  intros (l1 & l2 & -> & _)%py_max_len_spec. apply elem_of_app. right. left.
Qed.

Lemma py_max_len_ge l C c :
  graspologic.py_max_len l = ret C → c ∈ l → length c ≤ length C.
Proof.
  intros (l1 & l2 & -> & H1 & H2)%py_max_len_spec.
  intros [Hc|[->|Hc]%elem_of_cons]%elem_of_app.
  - specialize (H1 c Hc). lia.
  - done.
  - by apply H2.
Qed.

Lemma py_max_len_total l : l ≠ [] → ∃ C, graspologic.py_max_len l = ret C.
Proof. destruct l; [done|]. intros _. by eexists. Qed.

(** A component of a well-formed graph is the connected component of one
    of its nodes, listed without repetition. *)
Lemma connected_components_elem G c :
  wf G → c ∈ nx.connected_components G →
  ∃ s, s ∈ nx.nodes G ∧ c = nx._plain_bfs G s ∧ NoDup c
       ∧ ∀ x, x ∈ c ↔ connected G s x.
Proof.
  intros Hwf (s & Hs & _ & ->)%components_from_elem. exists s.
  split; [done|]. split; [done|]. by apply plain_bfs_spec.
Qed.

Lemma connected_components_cover G v :
  wf G → v ∈ nx.nodes G → ∃ c, c ∈ nx.connected_components G ∧ v ∈ c.
Proof.
  intros Hwf Hv.
  destruct (components_from_cover G [] (nx.nodes G) v Hwf) as [?%elem_of_nil|?];
    done.
Qed.
End components.

(** ** The canonicalizer, stage by stage *)

Section pipeline.
Implicit Types G R : nx.Graph.

Lemma NoDup_same_length (l k : list pystr) :
  NoDup l → NoDup k → (∀ x, x ∈ l ↔ x ∈ k) → length l = length k.
Proof. intros Hl Hk H. by rewrite (NoDup_Permutation l k Hl Hk H). Qed.

Lemma connected_components_nonempty G :
  nx.nodes G ≠ [] → nx.connected_components G ≠ [].
Proof.
  unfold nx.connected_components. destruct (nx.nodes G) as [|v vs]; [done|].
  intros _. simpl. by destruct (decide (v ∈ [])).
Qed.

(** The stages of [stable_largest_connected_component] on a graph whose
    largest component is [C]. *)
Lemma canonicalize_stages (E : pyenv) G C :
  graspologic.py_max_len (nx.connected_components (nx.copy G)) = ret C →
  NoDup C
  ∧ (∀ x, x ∈ C → x ∈ nx.nodes (nx.copy G))
  ∧ graspologic.largest_connected_component E (nx.copy G)
    = ret (nx.subgraph_copy E C (nx.copy G))
  ∧ NetworkXStorage.stable_largest_connected_component E G
    = let* m := NetworkXStorage.node_mapping E
                  (nx.subgraph_copy E C (nx.copy G)) in
      ret (NetworkXStorage._stabilize_graph
             (nx.relabel_nodes m (nx.subgraph_copy E C (nx.copy G)))).
Proof.
  intros Hmax. pose proof (copy_wf G) as Hwf.
  pose proof (py_max_len_elem _ _ Hmax) as HC.
  apply connected_components_elem in HC as (s & Hs & -> & Hnd & Hconn); [|done].
  split; [done|]. split.
  { intros x Hx. apply Hconn in Hx. by eapply connected_nodes. }
  assert (Hlcc : graspologic.largest_connected_component E (nx.copy G)
                 = ret (nx.subgraph_copy E (nx._plain_bfs (nx.copy G) s)
                          (nx.copy G))).
  { destruct (graspologic.largest_connected_component E (nx.copy G))
      as [e|lcc] eqn:Hl.
    - unfold graspologic.largest_connected_component in Hl.
      by rewrite Hmax in Hl.
    - apply largest_connected_component_eq in Hl as (C' & Hmax' & Heq); [|done].
      rewrite Hmax in Hmax'. injection Hmax' as <-. by rewrite Heq. }
  split; [done|].
  unfold NetworkXStorage.stable_largest_connected_component.
  by rewrite Hlcc.
Qed.

Lemma canonicalize_inv (E : pyenv) G R :
  NetworkXStorage.stable_largest_connected_component E G = ret R →
  ∃ C m,
    graspologic.py_max_len (nx.connected_components (nx.copy G)) = ret C
    ∧ NetworkXStorage.node_mapping E (nx.subgraph_copy E C (nx.copy G)) = ret m
    ∧ R = NetworkXStorage._stabilize_graph
            (nx.relabel_nodes m (nx.subgraph_copy E C (nx.copy G))).
Proof.
  intros HR.
  destruct (graspologic.py_max_len (nx.connected_components (nx.copy G)))
    as [e|C] eqn:Hmax.
  - unfold NetworkXStorage.stable_largest_connected_component,
      graspologic.largest_connected_component in HR.
    by rewrite Hmax in HR.
  - exists C.
    destruct (canonicalize_stages E G C Hmax) as (_ & _ & _ & Heq).
    rewrite Heq in HR.
    destruct (NetworkXStorage.node_mapping E _) as [e|m]; [done|].
    exists m. split; [done|]. split; [done|]. simpl in HR. by injection HR.
Qed.

(** The canonicalizer returns when the ids of the largest component can be
    normalized. *)
Lemma canonicalize_returns (E : pyenv) G C :
  graspologic.py_max_len (nx.connected_components (nx.copy G)) = ret C →
  (∀ n, n ∈ C → ∃ id, NetworkXStorage.normalize_id E n = ret id) →
  ∃ m, NetworkXStorage.node_mapping E (nx.subgraph_copy E C (nx.copy G))
       = ret m
    ∧ NetworkXStorage.stable_largest_connected_component E G
      = ret (NetworkXStorage._stabilize_graph
               (nx.relabel_nodes m (nx.subgraph_copy E C (nx.copy G)))).
Proof.
  intros Hmax Hnorm.
  destruct (canonicalize_stages E G C Hmax) as (HC & Hsub & _ & Heq).
  destruct (node_mapping_total E (nx.subgraph_copy E C (nx.copy G)))
    as [m Hm].
  { intros n Hn. apply Hnorm.
    by apply (subgraph_copy_nodes E C (nx.copy G) n (copy_wf G) HC) in Hn
      as [? _]. }
  exists m. split; [done|]. by rewrite Heq, Hm.
Qed.

(** The nodes of the canonical form are the normalized ids of the nodes of
    the graph that is renamed. *)
Lemma stabilized_relabel_nodes (E : pyenv) (lcc : nx.Graph) mp m :
  wf lcc → NetworkXStorage.node_mapping E lcc = ret mp →
  m ∈ nx.nodes (NetworkXStorage._stabilize_graph (nx.relabel_nodes mp lcc))
  ↔ ∃ n, n ∈ nx.nodes lcc ∧ NetworkXStorage.normalize_id E n = ret m.
Proof.
  intros Hwf Hmp.
  destruct (relabel_nodes_spec mp lcc Hwf) as (Hwf' & _ & Hn).
  destruct (stabilize_spec _ Hwf') as (_ & _ & Hnodes & _).
  unfold nx.nodes at 1. unfold nx.nodes_data in Hnodes. rewrite Hnodes.
  unfold NetworkXStorage.sorted_nodes.
  rewrite (sorted_Permutation _ (nx.nodes_data _)).
  fold (nx.nodes (nx.relabel_nodes mp lcc)).
  rewrite Hn. split.
  - intros (n & Hin & ->). exists n. split; [done|].
    by apply (node_mapping_get E lcc).
  - intros (n & Hin & Hid). exists n. split; [done|].
    rewrite (node_mapping_get E lcc mp n Hwf Hmp Hin) in Hid.
    by injection Hid.
Qed.
End pipeline.

(** C5, the claim as amended.  Every node id of the retained component is
    renamed to [html_unescape(strip(upper(id)))]: upper-cased first, then
    stripped, then unescaped.  The nodes of the canonical form are exactly
    these normalized ids, each once, so nodes whose normalized ids collide
    are one node. *)
Theorem C5_nodes_renamed (E : pyenv) (G R : nx.Graph) :
  NetworkXStorage.stable_largest_connected_component E G = ret R →
  ∃ lcc,
    graspologic.largest_connected_component E (nx.copy G) = ret lcc
    ∧ (∀ m, m ∈ nx.nodes R
            ↔ ∃ n, n ∈ nx.nodes lcc
                   ∧ html.unescape E (str.strip (str.upper E n)) = ret m)
    ∧ NoDup (nx.nodes R).
Proof.
  intros HR. apply canonicalize_inv in HR as (C & mp & Hmax & Hmp & ->).
  destruct (canonicalize_stages E G C Hmax) as (HC & Hsub & Hlcc & _).
  exists (nx.subgraph_copy E C (nx.copy G)). split; [done|].
  destruct (subgraph_copy_spec E C (nx.copy G) (copy_wf G) HC) as (Hwf & _).
  split.
  - intros m. by apply (stabilized_relabel_nodes E _ mp m).
  - apply wf_nodes, stabilize_wf.
    by apply relabel_nodes_spec.
Qed.

(** C5 on the graph whose two nodes ["a "] and ["A"] collide. *)
Lemma C5_nodes_renamed_witness :
  ∃ lcc,
    graspologic.largest_connected_component env.reversed
      (nx.copy (apply_updates [UpsertEdge (py "a ") (py "A") []]
                  (nx.empty false))) = ret lcc
    ∧ (∀ m, m ∈ [py "A"]
            ↔ ∃ n, n ∈ nx.nodes lcc
                   ∧ html.unescape env.reversed
                       (str.strip (str.upper env.reversed n)) = ret m)
    ∧ NoDup [py "A"].
Proof.
  exact (C5_nodes_renamed env.reversed
           (apply_updates [UpsertEdge (py "a ") (py "A") []] (nx.empty false))
           (nx.mk false [(py "A", [])] [(py "A", [(py "A", [])])] [])
           eq_refl).
Defined.

Section component_classes.
Variable G : nx.Graph.
Hypothesis Hwf : wf G.

Lemma connected_trans u v w : connected G u v → connected G v w → connected G u w.
Proof. unfold connected. intros H1 H2. by etrans. Qed.

(** Two nodes of one component have the same component. *)
Lemma connected_class s s' v :
  connected G s s' → connected G s v ↔ connected G s' v.
Proof.
  intros Hss. split.
  - intros Hv. eapply connected_trans; [|exact Hv]. by apply connected_sym.
  - intros Hv. by eapply connected_trans.
Qed.
End component_classes.

(** C4, the claim as amended.  A graph with at least one node has a
    connected component [C] that no component exceeds in size and that, on
    a tie, was inserted first: every node of another component of the same
    size was inserted after the first node [s] of [C].  When the ids of
    [C] can be normalized, the canonicalizer returns, and it retains
    exactly [C], renamed. *)
Theorem C4_largest_component_first_inserted_on_tie (E : pyenv) (G : nx.Graph) :
  wf G → nx.nodes G ≠ [] →
  ∃ C s,
    s ∈ nx.nodes G ∧ NoDup C ∧ (∀ v, v ∈ C ↔ connected G s v)
    ∧ (∀ v, v ∈ C → v = s ∨ comes_before (nx.nodes G) s v)
    ∧ ((∀ n, n ∈ C → ∃ id, NetworkXStorage.normalize_id E n = ret id) →
       ∃ R, NetworkXStorage.stable_largest_connected_component E G = ret R
         ∧ ∀ m, m ∈ nx.nodes R
                ↔ ∃ n, n ∈ C ∧ NetworkXStorage.normalize_id E n = ret m)
    ∧ (∀ s' C', s' ∈ nx.nodes G → NoDup C' →
         (∀ v, v ∈ C' ↔ connected G s' v) → length C' ≤ length C)
    ∧ (∀ s' C', s' ∈ nx.nodes G → NoDup C' →
         (∀ v, v ∈ C' ↔ connected G s' v) →
         ¬ connected G s s' → length C' = length C →
         comes_before (nx.nodes G) s s').
Proof.
  intros Hwf Hne.
  pose proof (copy_wf G) as Hwfc.
  pose proof (copy_same_content G Hwf) as Hsame.
  pose proof (copy_nodes G Hwf) as Hnodes.
  assert (Hconn : ∀ u v, connected (nx.copy G) u v ↔ connected G u v)
    by (intros u v; by apply connected_same_content).
  destruct (py_max_len_total (nx.connected_components (nx.copy G)))
    as [C Hmax].
  { apply connected_components_nonempty. by rewrite Hnodes. }
  destruct (canonicalize_stages E G C Hmax) as (HC & Hsub & Hlcc & _).
  destruct (py_max_len_spec _ _ Hmax) as (l1 & l2 & Hsplit & Hl1 & Hl2).
  destruct (components_from_split (nx.copy G) [] (nx.nodes (nx.copy G))
              l1 C l2 Hwfc) as (vs1 & s & vs2 & Hvs & HCs & _ & Hs1 & Hcov & Hl2s);
    [done|exact Hsplit|].
  assert (Hs : s ∈ nx.nodes (nx.copy G)).
  { rewrite Hvs. apply elem_of_app. right. left. }
  destruct (plain_bfs_spec (nx.copy G) Hwfc s Hs) as [_ Hbfs].
  rewrite <- HCs in Hbfs.
  assert (Hclass : ∀ c, c ∈ nx.connected_components (nx.copy G) →
            ∀ s' C', s' ∈ c → NoDup C' → (∀ v, v ∈ C' ↔ connected G s' v) →
            length C' = length c).
  { intros c Hc s' C' Hs' HC' HC'conn.
    apply connected_components_elem in Hc as (s0 & Hs0 & -> & Hnd0 & Hc0);
      [|done].
    apply NoDup_same_length; [done..|]. intros v.
    rewrite HC'conn, Hc0, Hconn.
    symmetry. apply connected_class; [done|]. apply Hconn. by apply Hc0. }
  assert (Hfirst : ∀ v, v ∈ vs1 → ∃ c', c' ∈ l1 ∧ v ∈ c').
  { intros v Hv. destruct (Hcov v Hv) as [?%elem_of_nil|?]; done. }
  exists C, s.
  split; [by rewrite <- Hnodes|]. split; [done|].
  split; [intros v; by rewrite Hbfs, Hconn|].
  assert (Hafter : ∀ x, x ∈ nx.nodes G → x ∉ vs1 → x ≠ s →
                        comes_before (nx.nodes G) s x).
  { intros x Hx Hx1 Hxs. rewrite <- Hnodes, Hvs in Hx.
    apply elem_of_app in Hx as [?|[->|Hx]%elem_of_cons]; [done|done|].
    apply list_elem_of_split in Hx as (p & q & ->).
    exists (vs1 ++ s :: p), q. split.
    - rewrite <- Hnodes, Hvs. by rewrite <- app_assoc.
    - apply elem_of_app. right. left. }
  split.
  { intros v Hv. destruct (decide (v = s)) as [->|Hvs']; [by left|]. right.
    apply Hafter; [rewrite <- Hnodes; by apply Hsub| |done].
    intros (c' & Hc' & Hvc')%Hfirst.
    apply (Hs1 c' Hc').
    assert (Hc'in : c' ∈ nx.connected_components (nx.copy G)).
    { rewrite Hsplit. apply elem_of_app. by left. }
    apply connected_components_elem in Hc'in as (s0 & _ & -> & _ & Hc0); [|done].
    apply Hc0. apply Hc0 in Hvc'. apply Hbfs in Hv.
    eapply connected_trans; [exact Hvc'|]. by apply connected_sym. }
  split.
  { intros Hnorm.
    destruct (canonicalize_returns E G C Hmax Hnorm) as (mp & Hmp & Hret).
    eexists. split; [exact Hret|]. intros m.
    destruct (subgraph_copy_spec E C (nx.copy G) Hwfc HC) as (Hwfl & _).
    rewrite (stabilized_relabel_nodes E _ mp m Hwfl Hmp).
    split; intros (n & Hn & Hid); exists n; (split; [|done]).
    - by apply subgraph_copy_nodes in Hn as [? _].
    - apply subgraph_copy_nodes; [done..|]. split; [done|by apply Hsub]. }
  split.
  { intros s' C' Hs' HC' HC'conn.
    rewrite <- Hnodes in Hs'.
    destruct (connected_components_cover (nx.copy G) s' Hwfc Hs')
      as (c & Hc & Hsc).
    rewrite (Hclass c Hc s' C' Hsc HC' HC'conn).
    by eapply py_max_len_ge. }
  intros s' C' Hs' HC' HC'conn Hnot Hlen.
  apply Hafter; [done| |].
  - intros (c' & Hc' & Hsc')%Hfirst.
    assert (Hc'in : c' ∈ nx.connected_components (nx.copy G)).
    { rewrite Hsplit. apply elem_of_app. by left. }
    pose proof (Hclass c' Hc'in s' C' Hsc' HC' HC'conn) as Hlen'.
    specialize (Hl1 c' Hc'). lia.
  - intros ->. apply Hnot. apply rtc_refl.
Qed.

(** ** Renaming with a one-to-one mapping *)

Section relabel_content.
Implicit Types G H : nx.Graph.

Lemma add_edge_keeps_edge u v a G x y :
  wf G → is_Some (nx.get_edge x y G) →
  is_Some (nx.get_edge x y (nx.add_edge u v a G)).
Proof.
  intros Hwf Hs. rewrite add_edge_get_edge by done.
  destruct (decide _); [by eexists|done].
Qed.

Lemma add_edges_from_keeps_edge es G x y :
  wf G → is_Some (nx.get_edge x y G) →
  is_Some (nx.get_edge x y (nx.add_edges_from es G)).
Proof.
  unfold nx.add_edges_from. revert G.
  induction es as [|e es IH]; intros G Hwf Hs; simpl; [done|].
  apply IH; [by apply add_edge_wf|by apply add_edge_keeps_edge].
Qed.

(** Every triple handed to [add_edges_from] is an edge afterwards. *)
Lemma add_edges_from_has es G u v d :
  wf G → (u, v, d) ∈ es → is_Some (nx.get_edge u v (nx.add_edges_from es G)).
Proof.
  unfold nx.add_edges_from. revert G.
  induction es as [|e es IH]; intros G Hwf Hin; simpl.
  - by apply elem_of_nil in Hin.
  - apply elem_of_cons in Hin as [<-|Hin].
    + apply (add_edges_from_keeps_edge es); [by apply add_edge_wf|]. simpl.
      rewrite add_edge_get_edge by done.
      rewrite decide_True by (by left). by eexists.
    + apply IH; [by apply add_edge_wf|done].
Qed.

Lemma edges_data_either G u v d :
  wf G → nx.get_edge u v G = Some d →
  (u, v, d) ∈ nx.edges_data G
  ∨ (nx.directed G = false ∧ (v, u, d) ∈ nx.edges_data G).
Proof.
  intros Hwf Hg. destruct (nx.directed G) eqn:Hd.
  - left. by apply edges_data_directed_elem.
  - destruct (get_edge_nodes G u v d Hwf Hg) as [Hu Hv].
    pose proof (wf_nodes G Hwf) as Hnd.
    destruct (comes_before_total (nx.nodes G) u v Hu Hv) as [->|[Hb|Hb]].
    + left. apply edges_data_undirected_elem; [done..|]. split; [done|].
      by apply comes_before_irrefl.
    + right. split; [done|]. apply edges_data_undirected_elem; [done..|].
      split; [by rewrite (proj1 (wf_undirected G Hwf Hd))|].
      by apply comes_before_asym.
    + left. apply edges_data_undirected_elem; [done..|]. split; [done|].
      by apply comes_before_asym.
Qed.

(** An edge of the graph is an edge between the renamed endpoints, whatever
    the mapping. *)
Lemma relabel_nodes_edge mapping G u v :
  wf G → is_Some (nx.get_edge u v G) →
  is_Some (nx.get_edge (mapping_get mapping u) (mapping_get mapping v)
             (nx.relabel_nodes mapping G))
  ∨ (nx.directed G = false
     ∧ is_Some (nx.get_edge (mapping_get mapping v) (mapping_get mapping u)
                  (nx.relabel_nodes mapping G))).
Proof.
  intros Hwf [d Hg]. unfold nx.relabel_nodes. fold (mapping_get mapping).
  set (H1 := nx.mk _ _ _ _).
  assert (Hwf1 : wf H1).
  { unfold H1.
    destruct (add_nodes_from_spec (map (mapping_get mapping) (nx.nodes G))
                (nx.empty (nx.directed G)) (wf_empty _))
      as (Hwf0 & _ & Hn0 & _).
    apply wf_update_node_attrs; [done| |].
    - intros k Hk. apply Hn0. right.
      apply list_elem_of_fmap in Hk as ([k' a] & -> & Hin).
      apply list_elem_of_fmap in Hin as ([n a'] & [= -> ->] & Hin).
      apply list_elem_of_fmap. exists n. split; [done|].
      apply list_elem_of_fmap. by exists (n, a').
    - intros k a Hin.
      apply list_elem_of_fmap in Hin as ([n a'] & [= -> ->] & Hin).
      apply (wf_node_attrs G Hwf n). apply odict_get_Some; [apply Hwf|done]. }
  destruct (edges_data_either G u v d Hwf Hg) as [Hin|[Hd Hin]].
  - left. apply (add_edges_from_has _ _ _ _ d); [done|].
    apply list_elem_of_fmap. by exists (u, v, d).
  - right. split; [done|]. apply (add_edges_from_has _ _ _ _ d); [done|].
    apply list_elem_of_fmap. by exists (v, u, d).
Qed.

(** What the renamed graph holds when the mapping is one-to-one on the
    nodes. *)
Lemma relabel_nodes_content mapping G :
  wf G →
  (∀ n n', n ∈ nx.nodes G → n' ∈ nx.nodes G →
           mapping_get mapping n = mapping_get mapping n' → n = n') →
  (∀ x a, nx.get_node x (nx.relabel_nodes mapping G) = Some a
          ↔ ∃ n, x = mapping_get mapping n ∧ nx.get_node n G = Some a)
  ∧ (∀ x y d, nx.get_edge x y (nx.relabel_nodes mapping G) = Some d
              ↔ ∃ u v, x = mapping_get mapping u ∧ y = mapping_get mapping v
                       ∧ nx.get_edge u v G = Some d).
Proof.
  intros Hwf Hinj. unfold nx.relabel_nodes. fold (mapping_get mapping).
  destruct (add_nodes_from_spec (map (mapping_get mapping) (nx.nodes G))
              (nx.empty (nx.directed G)) (wf_empty _))
    as (Hwf0 & Hd0 & Hn0 & He0 & Ha0).
  set (H0 := nx.add_nodes_from _ _) in *.
  set (l := map (fun nd => (mapping_get mapping nd.1, nd.2)) (nx.nodes_data G)).
  assert (Hlk : l.*1 = map (mapping_get mapping) (nx.nodes G)).
  { unfold l, nx.nodes, nx.nodes_data.
    induction (nx._node G) as [|[n a] ns IH]; csimpl; [done|]. by rewrite IH. }
  assert (Hlnd : NoDup l.*1).
  { rewrite Hlk. apply NoDup_fmap_2_strong; [|apply Hwf].
    intros n n' Hn Hn' Heq. by apply Hinj. }
  assert (Hl : ∀ k, k ∈ l.*1 → k ∈ nx.nodes H0).
  { intros k Hk. apply Hn0. right. by rewrite <- Hlk. }
  assert (Hlelem : ∀ x a, (x, a) ∈ l
            ↔ ∃ n, x = mapping_get mapping n ∧ nx.get_node n G = Some a).
  { intros x a. unfold l. rewrite list_elem_of_fmap. split.
    - intros ([n a'] & [= -> ->] & Hin). exists n. split; [done|].
      apply odict_get_Some; [apply Hwf|done].
    - intros (n & -> & Hg). exists (n, a). split; [done|].
      by apply odict_get_Some_elem. }
  assert (Hwf1 : wf (nx.mk (nx.directed H0) (odict_update (nx._node H0) l)
                       (nx._adj H0) (nx._pred H0))).
  { apply wf_update_node_attrs; [done|done|].
    intros k a Hka. apply Hlelem in Hka as (n & -> & Hg).
    exact (wf_node_attrs G Hwf n a Hg). }
  set (H1 := nx.mk _ _ _ _) in *.
  assert (Hn1 : nx.nodes H1 = nx.nodes H0)
    by (by apply odict_update_fst_same).
  assert (He1 : ∀ x y, nx.get_edge x y H1 = None).
  { intros x y. unfold nx.get_edge, H1. simpl.
    change (nx.get_edge x y H0 = None). by rewrite He0. }
  set (es := map (fun e => (mapping_get mapping e.1.1, mapping_get mapping e.1.2, e.2))
               (nx.edges_data G)).
  assert (Hes : ∀ x y d, (x, y, d) ∈ es
            ↔ ∃ u v, x = mapping_get mapping u ∧ y = mapping_get mapping v
                     ∧ (u, v, d) ∈ nx.edges_data G).
  { intros x y d. unfold es. rewrite list_elem_of_fmap. split.
    - intros ([[u v] d'] & [= -> -> ->] & Hin). by exists u, v.
    - intros (u & v & -> & -> & Hin). by exists (u, v, d). }
  split.
  - intros x a. unfold nx.get_node at 1. rewrite add_edges_from_node_same.
    + unfold H1. simpl. rewrite odict_get_update by done.
      rewrite <- Hlelem. destruct (odict_get x l) as [a'|] eqn:Hg.
      * rewrite <- (odict_get_Some x a l) by done. by rewrite Hg.
      * split; [|intros Hin; apply odict_get_Some in Hin; [congruence|done]].
        intros Hg0. exfalso. apply odict_get_None in Hg.
        apply Hg. rewrite Hlk.
        assert (Hx : x ∈ nx.nodes H0)
          by (apply odict_get_is_Some; by eexists).
        apply Hn0 in Hx as [?%elem_of_nil|?]; done.
    + intros u v d Hin. apply Hes in Hin as (u0 & v0 & -> & -> & Hin).
      apply edges_data_get_edge, get_edge_nodes in Hin as [Hu Hv]; [|done..].
      rewrite Hn1. split; apply Hn0; right; apply list_elem_of_fmap; eauto.
  - intros x y d.
    change (nx.get_edge x y (nx.add_edges_from es H1) = Some d
            ↔ ∃ u v, x = mapping_get mapping u ∧ y = mapping_get mapping v
                     ∧ nx.get_edge u v G = Some d).
    rewrite (add_edges_from_spec es H1
               (fun x y d => ∃ u v, x = mapping_get mapping u
                                    ∧ y = mapping_get mapping v
                                    ∧ nx.get_edge u v G = Some d)).
    + rewrite He1. split.
      * intros [?|[Hin|[Hd Hin]]]; [done| |];
          apply Hes in Hin as (u & v & -> & -> & Hin).
        -- exists u, v. split; [done|]. split; [done|].
           by apply edges_data_get_edge.
        -- exists v, u. split; [done|]. split; [done|].
           apply edges_data_get_edge in Hin; [|done].
           simpl in Hd. rewrite Hd0 in Hd. simpl in Hd.
           by rewrite (proj1 (wf_undirected G Hwf Hd)).
      * intros (u & v & -> & -> & Hg). right.
        destruct (edges_data_either G u v d Hwf Hg) as [Hin|[Hd Hin]].
        -- left. apply Hes. by exists u, v.
        -- right. split; [simpl; by rewrite Hd0|]. apply Hes. by exists v, u.
    + done.
    + intros a b d1 d2 (u & v & -> & -> & Hg) (u' & v' & Hu & Hv & Hg').
      destruct (get_edge_nodes G u v d1 Hwf Hg) as [? ?].
      destruct (get_edge_nodes G u' v' d2 Hwf Hg') as [? ?].
      apply Hinj in Hu; [|done..]. apply Hinj in Hv; [|done..]. congruence.
    + simpl. rewrite Hd0. simpl. intros Hd a b d1 (u & v & -> & -> & Hg).
      exists v, u. split; [done|]. split; [done|].
      by rewrite (proj1 (wf_undirected G Hwf Hd)).
    + intros a b d1. by rewrite He1.
    + intros a b d1 Hin. apply Hes in Hin as (u & v & -> & -> & Hin).
      apply edges_data_get_edge in Hin; [|done]. split; [by exists u, v|].
      exact (wf_edge_attrs G Hwf u v d1 Hin).
Qed.
End relabel_content.

Section relabel_same.
Implicit Types G H : nx.Graph.

Lemma get_node_elem G n a : nx.get_node n G = Some a → n ∈ nx.nodes G.
Proof. intros Hg. apply odict_get_is_Some. by eexists. Qed.

(** Renaming two graphs of equal content by mappings that agree with one
    one-to-one function gives graphs of equal content. *)
Lemma relabel_same_content (g : pystr → pystr) m1 m2 G1 G2 :
  wf G1 → wf G2 → same_content G1 G2 →
  (∀ n, n ∈ nx.nodes G1 → mapping_get m1 n = g n) →
  (∀ n, n ∈ nx.nodes G2 → mapping_get m2 n = g n) →
  (∀ n n', n ∈ nx.nodes G1 → n' ∈ nx.nodes G1 → g n = g n' → n = n') →
  same_content (nx.relabel_nodes m1 G1) (nx.relabel_nodes m2 G2).
Proof.
  intros Hwf1 Hwf2 Hsc Hm1 Hm2 Hinj.
  pose proof (same_content_nodes G1 G2) as Hnodes.
  destruct Hsc as (Hd & Hn & He).
  assert (Hsc : same_content G1 G2) by done.
  destruct (relabel_nodes_content m1 G1 Hwf1) as [Hn1 He1].
  { intros n n' Hx Hx'. rewrite (Hm1 n Hx), (Hm1 n' Hx'). by apply Hinj. }
  destruct (relabel_nodes_content m2 G2 Hwf2) as [Hn2 He2].
  { intros n n' Hx Hx'. rewrite (Hm2 n Hx), (Hm2 n' Hx').
    apply Hinj; by apply Hnodes. }
  split; [|split].
  - destruct (relabel_nodes_spec m1 G1 Hwf1) as (_ & -> & _).
    by destruct (relabel_nodes_spec m2 G2 Hwf2) as (_ & -> & _).
  - intros x. apply option_eq_Some_iff. intros a. rewrite Hn1, Hn2. split.
    + intros (n & -> & Hg). exists n. pose proof (get_node_elem _ _ _ Hg) as Hx.
      rewrite (Hm1 n Hx), (Hm2 n) by (by apply Hnodes). by rewrite <- Hn.
    + intros (n & -> & Hg). exists n. pose proof (get_node_elem _ _ _ Hg) as Hx.
      rewrite (Hm2 n Hx), (Hm1 n) by (by apply Hnodes). by rewrite Hn.
  - intros x y. apply option_eq_Some_iff. intros d. rewrite He1, He2. split.
    + intros (u & v & -> & -> & Hg). exists u, v.
      destruct (get_edge_nodes G1 u v d Hwf1 Hg) as [Hu Hv].
      rewrite (Hm1 u Hu), (Hm1 v Hv), !Hm2 by (by apply Hnodes).
      by rewrite <- He.
    + intros (u & v & -> & -> & Hg). exists u, v.
      destruct (get_edge_nodes G2 u v d Hwf2 Hg) as [Hu Hv].
      rewrite (Hm2 u Hu), (Hm2 v Hv), !Hm1 by (by apply Hnodes).
      by rewrite He.
Qed.

(** Renaming every node to itself changes no content. *)
Lemma relabel_identity m G :
  wf G → (∀ n, n ∈ nx.nodes G → mapping_get m n = n) →
  same_content (nx.relabel_nodes m G) G.
Proof.
  intros Hwf Hm.
  destruct (relabel_nodes_content m G Hwf) as [Hn He].
  { intros n n' Hx Hx'. by rewrite (Hm n Hx), (Hm n' Hx'). }
  split; [|split].
  - by destruct (relabel_nodes_spec m G Hwf) as (_ & -> & _).
  - intros x. apply option_eq_Some_iff. intros a. rewrite Hn. split.
    + intros (n & -> & Hg). by rewrite (Hm n (get_node_elem _ _ _ Hg)).
    + intros Hg. exists x. by rewrite (Hm x (get_node_elem _ _ _ Hg)).
  - intros x y. apply option_eq_Some_iff. intros d. rewrite He. split.
    + intros (u & v & -> & -> & Hg).
      destruct (get_edge_nodes G u v d Hwf Hg) as [Hu Hv].
      by rewrite (Hm u Hu), (Hm v Hv).
    + intros Hg. exists x, y.
      destruct (get_edge_nodes G x y d Hwf Hg) as [Hu Hv].
      by rewrite (Hm x Hu), (Hm y Hv).
Qed.

(** The subgraph on a set that holds every node is the graph. *)
Lemma subgraph_copy_all (E : pyenv) C G :
  wf G → NoDup C → (∀ n, n ∈ nx.nodes G → n ∈ C) →
  same_content (nx.subgraph_copy E C G) G.
Proof.
  intros Hwf HC Hall.
  destruct (subgraph_copy_spec E C G Hwf HC) as (_ & Hd & Hn & He).
  split; [done|]. split.
  - intros n. rewrite Hn. destruct (decide (n ∈ C)) as [|Hc]; [done|].
    destruct (nx.get_node n G) as [a|] eqn:Hg; [|done].
    destruct Hc. by apply Hall, (get_node_elem G n a).
  - intros x y. rewrite He. destruct (decide _) as [|Hc]; [done|].
    destruct (nx.get_edge x y G) as [d|] eqn:Hg; [|done].
    destruct (get_edge_nodes G x y d Hwf Hg) as [Hu Hv].
    destruct Hc. split; by apply Hall.
Qed.

Lemma subgraph_copy_same_content (E : pyenv) C1 C2 G1 G2 :
  wf G1 → wf G2 → NoDup C1 → NoDup C2 → (∀ n, n ∈ C1 ↔ n ∈ C2) →
  same_content G1 G2 →
  same_content (nx.subgraph_copy E C1 G1) (nx.subgraph_copy E C2 G2).
Proof.
  intros Hwf1 Hwf2 HC1 HC2 HC (Hd & Hn & He).
  destruct (subgraph_copy_spec E C1 G1 Hwf1 HC1) as (_ & Hd1 & Hn1 & He1).
  destruct (subgraph_copy_spec E C2 G2 Hwf2 HC2) as (_ & Hd2 & Hn2 & He2).
  split; [congruence|]. split.
  - intros n. rewrite Hn1, Hn2, Hn.
    destruct (decide (n ∈ C1)) as [H1|H1], (decide (n ∈ C2)) as [H2|H2];
      try done; [destruct H2|destruct H1]; by apply HC.
  - intros x y. rewrite He1, He2, He.
    destruct (decide (x ∈ C1 ∧ y ∈ C1)) as [H1|H1],
      (decide (x ∈ C2 ∧ y ∈ C2)) as [H2|H2]; try done;
      [destruct H2|destruct H1]; split; apply HC; tauto.
Qed.

(** ** Connectivity through the stages *)

(** A component, cut out of the graph, is connected from its source. *)
Lemma subgraph_component_connected (E : pyenv) G s C :
  wf G → NoDup C → (∀ v, v ∈ C ↔ connected G s v) →
  ∀ v, v ∈ C → connected (nx.subgraph_copy E C G) s v.
Proof.
  intros Hwf HC Hclass v Hv. apply Hclass in Hv. revert v Hv.
  destruct (subgraph_copy_spec E C G Hwf HC) as (Hwfs & Hd & _ & He).
  apply rtc_ind_r; [apply rtc_refl|].
  intros y z Hsy Hyz IH. eapply rtc_r; [exact IH|].
  assert (Hy : y ∈ C) by (by apply Hclass).
  assert (Hz : z ∈ C) by (apply Hclass; by eapply rtc_r).
  apply (adjacent_iff _ Hwfs). apply (adjacent_iff _ Hwf) in Hyz.
  rewrite !He, Hd. rewrite !decide_True by done. done.
Qed.

(** Renaming keeps nodes connected, whatever the mapping. *)
Lemma relabel_connected m G u v :
  wf G → connected G u v →
  connected (nx.relabel_nodes m G) (mapping_get m u) (mapping_get m v).
Proof.
  intros Hwf. revert v.
  destruct (relabel_nodes_spec m G Hwf) as (Hwfr & Hd & _).
  apply rtc_ind_r; [apply rtc_refl|].
  intros y z Hsy Hyz IH. eapply rtc_r; [exact IH|].
  apply (adjacent_iff _ Hwf) in Hyz.
  destruct Hyz as [Hyz|[Hdir Hyz]].
  - destruct (relabel_nodes_edge m G y z Hwf Hyz) as [Hr|[Hu Hr]].
    + apply (adjacent_iff _ Hwfr). by left.
    + apply adjacent_sym; [done|]. apply (adjacent_iff _ Hwfr). by left.
  - destruct (relabel_nodes_edge m G z y Hwf Hyz) as [Hr|[Hu Hr]].
    + apply (adjacent_iff _ Hwfr). right. split; [congruence|done].
    + congruence.
Qed.
End relabel_same.

(** The test [same_content_b] decides [same_content] on well-formed
    graphs. *)
Lemma same_content_b_sound (G G' : nx.Graph) :
  wf G → wf G' → same_content_b G G' = true → same_content G G'.
Proof.
  intros Hwf Hwf' Hb. unfold same_content_b in Hb.
  apply andb_prop in Hb as [Hb He]. apply andb_prop in Hb as [Hd Hn].
  apply bool_decide_eq_true in Hd.
  rewrite forallb_forall in Hn, He.
  assert (Hget : ∀ n, nx.get_node n G = nx.get_node n G').
  { intros n.
    destruct (decide (n ∈ nx.nodes G ++ nx.nodes G')) as [Hin|Hout].
    - apply list_elem_of_In, Hn in Hin. by apply bool_decide_eq_true in Hin.
    - rewrite elem_of_app in Hout.
      assert (H1 : nx.get_node n G = None) by (apply odict_get_None; tauto).
      assert (H2 : nx.get_node n G' = None) by (apply odict_get_None; tauto).
      congruence. }
  split; [done|]. split; [done|]. intros u v.
  destruct (decide (u ∈ nx.nodes G ++ nx.nodes G'
                    ∧ v ∈ nx.nodes G ++ nx.nodes G')) as [[Hu Hv]|Hout].
  - apply list_elem_of_In, He in Hu. rewrite forallb_forall in Hu.
    apply list_elem_of_In, Hu in Hv. by apply bool_decide_eq_true in Hv.
  - rewrite !elem_of_app in Hout.
    assert (H1 : nx.get_edge u v G = None).
    { destruct (nx.get_edge u v G) as [d|] eqn:Hg; [|done].
      apply get_edge_nodes in Hg; [tauto|done]. }
    assert (H2 : nx.get_edge u v G' = None).
    { destruct (nx.get_edge u v G') as [d|] eqn:Hg; [|done].
      apply get_edge_nodes in Hg; [tauto|done]. }
    congruence.
Qed.

(** ** The canonical form is one connected component *)

Section canonical_form.
Variable E : pyenv.

Lemma canonicalize_connected G R :
  NetworkXStorage.stable_largest_connected_component E G = ret R →
  wf R ∧ ∃ r, r ∈ nx.nodes R ∧ ∀ x, x ∈ nx.nodes R → connected R r x.
Proof.
  intros HR. destruct (canonicalize_inv E G R HR) as (C & m & Hmax & Hm & ->).
  destruct (canonicalize_stages E G C Hmax) as (HC & Hsub & _ & _).
  pose proof (copy_wf G) as Hwfc.
  destruct (subgraph_copy_spec E C (nx.copy G) Hwfc HC) as (Hwfl & _).
  set (lcc := nx.subgraph_copy E C (nx.copy G)) in *.
  destruct (relabel_nodes_spec m lcc Hwfl) as (Hwfh & _ & Hnh).
  pose proof (stabilize_wf _ Hwfh) as HwfR.
  pose proof (stabilize_same_content _ Hwfh) as Hsc.
  split; [done|].
  destruct (connected_components_elem (nx.copy G) C Hwfc
              (py_max_len_elem _ _ Hmax)) as (s & Hs & _ & _ & Hclass).
  assert (HsC : s ∈ C) by (apply Hclass, rtc_refl).
  assert (Hsl : s ∈ nx.nodes lcc)
    by (apply subgraph_copy_nodes; [done..|by split]).
  exists (mapping_get m s). split.
  - apply (same_content_nodes _ _ _ Hsc). apply Hnh. by exists s.
  - intros x Hx. apply (same_content_nodes _ _ _ Hsc) in Hx.
    apply Hnh in Hx as (n & Hn & ->).
    apply (connected_same_content _ _ _ _ HwfR Hwfh Hsc).
    apply relabel_connected; [done|].
    apply subgraph_component_connected; [done..|].
    by apply (subgraph_copy_nodes E C (nx.copy G) n Hwfc HC) in Hn as [? _].
Qed.

(** Canonicalizing a connected graph whose ids the normalization leaves
    alone keeps its content. *)
Lemma canonicalize_connected_fixed R r :
  wf R → r ∈ nx.nodes R → (∀ x, x ∈ nx.nodes R → connected R r x) →
  (∀ n, n ∈ nx.nodes R → NetworkXStorage.normalize_id E n = ret n) →
  ∃ H, wf H ∧ same_content H R
       ∧ NetworkXStorage.stable_largest_connected_component E R
         = ret (NetworkXStorage._stabilize_graph H).
Proof.
  intros HwfR Hr Hconn Hfix.
  pose proof (copy_wf R) as Hwfc.
  pose proof (copy_same_content R HwfR) as Hscc.
  assert (Hne : nx.nodes (nx.copy R) ≠ []).
  { rewrite copy_nodes by done. intros Hnil. rewrite Hnil in Hr.
    by apply elem_of_nil in Hr. }
  destruct (py_max_len_total _ (connected_components_nonempty _ Hne))
    as [C Hmax].
  destruct (canonicalize_stages E R C Hmax) as (HC & Hsub & _ & Hres).
  destruct (connected_components_elem (nx.copy R) C Hwfc
              (py_max_len_elem _ _ Hmax)) as (s & Hs & _ & _ & Hclass).
  assert (Hall : ∀ n, n ∈ nx.nodes (nx.copy R) → n ∈ C).
  { intros n Hn. apply Hclass.
    apply (connected_same_content _ _ _ _ Hwfc HwfR Hscc).
    apply (same_content_nodes _ _ _ Hscc) in Hn, Hs.
    apply (connected_trans R s r n); [|by apply Hconn].
    apply connected_sym; [done|]. by apply Hconn. }
  destruct (subgraph_copy_spec E C (nx.copy R) Hwfc HC) as (Hwfl & _).
  pose proof (subgraph_copy_all E C (nx.copy R) Hwfc HC Hall) as Hscl.
  set (lcc := nx.subgraph_copy E C (nx.copy R)) in *.
  assert (HlR : same_content lcc R) by (by eapply same_content_trans).
  destruct (node_mapping_total E lcc) as [m Hm].
  { intros n Hn. exists n. apply Hfix.
    by apply (same_content_nodes _ _ _ HlR). }
  rewrite Hm in Hres. simpl in Hres.
  destruct (relabel_nodes_spec m lcc Hwfl) as (Hwfh & _ & _).
  eexists. split; [exact Hwfh|]. split; [|exact Hres].
  eapply same_content_trans; [|exact HlR].
  apply relabel_identity; [done|]. intros n Hn.
  pose proof (node_mapping_get E lcc m n Hwfl Hm Hn) as Hid.
  rewrite Hfix in Hid by (by apply (same_content_nodes _ _ _ HlR)).
  by injection Hid.
Qed.
End canonical_form.

(** The two passes over a graph whose canonical form has only ids that the
    normalization leaves alone: both end in [_stabilize_graph], of graphs
    with the same content. *)
Lemma canonicalize_twice_stages (E : pyenv) (G R : nx.Graph) :
  NetworkXStorage.stable_largest_connected_component E G = ret R →
  (∀ n, n ∈ nx.nodes R → NetworkXStorage.normalize_id E n = ret n) →
  ∃ H0 H, wf H0 ∧ wf H ∧ same_content H H0
          ∧ R = NetworkXStorage._stabilize_graph H0
          ∧ NetworkXStorage.stable_largest_connected_component E R
            = ret (NetworkXStorage._stabilize_graph H).
Proof.
  intros HR Hfix.
  destruct (canonicalize_connected E G R HR) as (HwfR & r & Hr & Hconn).
  destruct (canonicalize_connected_fixed E R r HwfR Hr Hconn Hfix)
    as (H & HwfH & Hsc & Hres).
  destruct (canonicalize_inv E G R HR) as (C & m & Hmax & Hm & HeqR).
  destruct (canonicalize_stages E G C Hmax) as (HC & _ & _ & _).
  destruct (subgraph_copy_spec E C (nx.copy G) (copy_wf G) HC) as (Hwfl & _).
  destruct (relabel_nodes_spec m _ Hwfl) as (Hwf0 & _ & _).
  pose proof (stabilize_same_content _ Hwf0) as Hs0. rewrite <- HeqR in Hs0.
  eexists. exists H. split; [exact Hwf0|]. split; [done|].
  split; [by eapply same_content_trans|]. by split.
Qed.

(** Canonicalizing a canonical form again returns that very graph when the
    normalization leaves each of its node ids unchanged and its edges have
    pairwise distinct ["source -> target"] sort keys. *)
Lemma canonicalize_twice_same_graph (E : pyenv) (G R : nx.Graph) :
  NetworkXStorage.stable_largest_connected_component E G = ret R →
  (∀ n, n ∈ nx.nodes R → NetworkXStorage.normalize_id E n = ret n) →
  NoDup (edge_key <$> oriented_edges R) →
  NetworkXStorage.stable_largest_connected_component E R = ret R.
Proof.
  intros HR Hfix Hkeys.
  destruct (canonicalize_twice_stages E G R HR Hfix)
    as (H0 & H & Hwf0 & HwfH & Hsc & HeqR & ->).
  f_equal. etrans; [|symmetry; exact HeqR].
  apply stabilize_deterministic; [done..|].
  pose proof (stabilize_same_content _ Hwf0) as Hs0.
  pose proof (stabilize_wf _ Hwf0) as HwfR. rewrite <- HeqR in Hs0, HwfR.
  rewrite (oriented_edges_Permutation H R HwfH HwfR); [done|].
  eapply same_content_trans; [exact Hsc|]. by apply same_content_sym.
Qed.

(** Two graphs of equal content with one component larger than every other
    have the same largest component, up to the order of its members. *)
Lemma largest_component_same (G1 G2 : nx.Graph) (C : list pystr) :
  wf G1 → wf G2 → same_content G1 G2 →
  graspologic.py_max_len (nx.connected_components G1) = ret C →
  (∀ c, c ∈ nx.connected_components G1 → c = C ∨ length c < length C) →
  ∃ C2, graspologic.py_max_len (nx.connected_components G2) = ret C2
        ∧ NoDup C ∧ NoDup C2 ∧ ∀ n, n ∈ C ↔ n ∈ C2.
Proof.
  intros Hwf1 Hwf2 Hsc Hmax Huniq.
  pose proof (py_max_len_elem _ _ Hmax) as HC.
  destruct (connected_components_elem G1 C Hwf1 HC)
    as (s & Hs & _ & HndC & Hclass).
  assert (Hne : nx.nodes G2 ≠ []).
  { apply (same_content_nodes _ _ _ Hsc) in Hs. intros Hnil.
    rewrite Hnil in Hs. by apply elem_of_nil in Hs. }
  destruct (py_max_len_total _ (connected_components_nonempty _ Hne))
    as [C2 Hmax2].
  exists C2. split; [done|]. split; [done|].
  pose proof (py_max_len_elem _ _ Hmax2) as HC2.
  destruct (connected_components_elem G2 C2 Hwf2 HC2)
    as (s2 & Hs2 & _ & HndC2 & Hclass2).
  split; [done|].
  (* the component of [s] in [G2] is no larger than [C2] *)
  destruct (connected_components_cover G2 s Hwf2) as (c2 & Hc2 & Hsc2).
  { by apply (same_content_nodes _ _ _ Hsc). }
  destruct (connected_components_elem G2 c2 Hwf2 Hc2)
    as (t2 & _ & _ & Hndc2 & Hclassc2).
  assert (Hlen2 : length C = length c2).
  { apply NoDup_same_length; [done..|]. intros x.
    rewrite Hclass, Hclassc2, (connected_same_content G1 G2) by done.
    symmetry. apply connected_class; [done|]. by apply Hclassc2. }
  pose proof (py_max_len_ge _ _ _ Hmax2 Hc2) as Hge.
  (* the component of [s2] in [G1] is as large as [C2], hence it is [C] *)
  destruct (connected_components_cover G1 s2 Hwf1) as (c1 & Hc1 & Hsc1).
  { by apply (same_content_nodes _ _ _ Hsc). }
  destruct (connected_components_elem G1 c1 Hwf1 Hc1)
    as (t1 & _ & _ & Hndc1 & Hclassc1).
  assert (Hsame : ∀ x, x ∈ c1 ↔ x ∈ C2).
  { intros x.
    rewrite Hclass2, Hclassc1, (connected_same_content G1 G2) by done.
    apply connected_class; [done|].
    apply (connected_same_content G1 G2); [done..|]. by apply Hclassc1. }
  assert (Hlen1 : length c1 = length C2) by (by apply NoDup_same_length).
  destruct (Huniq c1 Hc1) as [->|Hlt]; [done|lia].
Qed.

(** The passes over two graphs of equal content with one largest component
    on which the normalization is one-to-one: both end in
    [_stabilize_graph], of graphs with the same content. *)
Lemma canonicalize_pair_stages (E : pyenv) (G1 G2 : nx.Graph)
    (C : list pystr) :
  wf G1 → wf G2 → same_content G1 G2 →
  graspologic.py_max_len (nx.connected_components (nx.copy G1)) = ret C →
  (∀ c, c ∈ nx.connected_components (nx.copy G1) →
        c = C ∨ length c < length C) →
  (∀ n, n ∈ C → ∃ id, NetworkXStorage.normalize_id E n = ret id) →
  (∀ n n' id, n ∈ C → n' ∈ C →
              NetworkXStorage.normalize_id E n = ret id →
              NetworkXStorage.normalize_id E n' = ret id → n = n') →
  ∃ H1 H2, wf H1 ∧ wf H2 ∧ same_content H1 H2
    ∧ NetworkXStorage.stable_largest_connected_component E G1
      = ret (NetworkXStorage._stabilize_graph H1)
    ∧ NetworkXStorage.stable_largest_connected_component E G2
      = ret (NetworkXStorage._stabilize_graph H2).
Proof.
  intros Hwf1 Hwf2 Hsc Hmax Huniq Hnorm Hinj.
  pose proof (copy_wf G1) as Hwfc1. pose proof (copy_wf G2) as Hwfc2.
  assert (Hscc : same_content (nx.copy G1) (nx.copy G2)).
  { eapply same_content_trans; [by apply copy_same_content|].
    eapply same_content_trans; [exact Hsc|].
    by apply same_content_sym, copy_same_content. }
  destruct (largest_component_same _ _ C Hwfc1 Hwfc2 Hscc Hmax Huniq)
    as (C2 & Hmax2 & HC & HC2 & HCC).
  destruct (canonicalize_returns E G1 C Hmax Hnorm) as (m1 & Hm1 & HR1).
  destruct (canonicalize_returns E G2 C2 Hmax2) as (m2 & Hm2 & HR2).
  { intros n Hn. apply Hnorm. by apply HCC. }
  destruct (subgraph_copy_spec E C (nx.copy G1) Hwfc1 HC) as (Hwfl1 & _).
  destruct (subgraph_copy_spec E C2 (nx.copy G2) Hwfc2 HC2) as (Hwfl2 & _).
  pose proof (subgraph_copy_same_content E C C2 _ _ Hwfc1 Hwfc2 HC HC2 HCC Hscc)
    as Hscl.
  set (lcc1 := nx.subgraph_copy E C (nx.copy G1)) in *.
  set (lcc2 := nx.subgraph_copy E C2 (nx.copy G2)) in *.
  destruct (relabel_nodes_spec m1 lcc1 Hwfl1) as (Hwfh1 & _ & _).
  destruct (relabel_nodes_spec m2 lcc2 Hwfl2) as (Hwfh2 & _ & _).
  eexists. eexists. split; [exact Hwfh1|]. split; [exact Hwfh2|].
  split; [|by split].
  apply (relabel_same_content (mapping_get m1)); [done..| | |].
  - done.
  - intros n Hn.
    pose proof (node_mapping_get E lcc2 m2 n Hwfl2 Hm2 Hn) as Hid2.
    rewrite (node_mapping_get E lcc1 m1 n Hwfl1 Hm1) in Hid2;
      [by injection Hid2|].
    by apply (same_content_nodes _ _ _ Hscl).
  - intros n n' Hn Hn' Heq.
    apply (Hinj n n' (mapping_get m1 n)).
    + by apply (subgraph_copy_nodes E C (nx.copy G1) n Hwfc1 HC) in Hn as [? _].
    + by apply (subgraph_copy_nodes E C (nx.copy G1) n' Hwfc1 HC) in Hn' as [? _].
    + by apply (node_mapping_get E lcc1).
    + rewrite Heq. by apply (node_mapping_get E lcc1).
Qed.

(** Such graphs canonicalize to the very same graph when the edges of the
    result have pairwise distinct ["source -> target"] sort keys. *)
Lemma canonicalize_pair_same_graph
    (E : pyenv) (G1 G2 R : nx.Graph) (C : list pystr) :
  wf G1 → wf G2 → same_content G1 G2 →
  graspologic.py_max_len (nx.connected_components (nx.copy G1)) = ret C →
  (∀ c, c ∈ nx.connected_components (nx.copy G1) →
        c = C ∨ length c < length C) →
  (∀ n, n ∈ C → ∃ id, NetworkXStorage.normalize_id E n = ret id) →
  (∀ n n' id, n ∈ C → n' ∈ C →
              NetworkXStorage.normalize_id E n = ret id →
              NetworkXStorage.normalize_id E n' = ret id → n = n') →
  NetworkXStorage.stable_largest_connected_component E G1 = ret R →
  NoDup (edge_key <$> oriented_edges R) →
  NetworkXStorage.stable_largest_connected_component E G2 = ret R.
Proof.
  intros Hwf1 Hwf2 Hsc Hmax Huniq Hnorm Hinj HR Hkeys.
  destruct (canonicalize_pair_stages E G1 G2 C Hwf1 Hwf2 Hsc Hmax Huniq
              Hnorm Hinj)
    as (H1 & H2 & Hwfh1 & Hwfh2 & Hsch & HR1 & ->).
  rewrite HR1 in HR. injection HR as HR. f_equal.
  rewrite <- HR. symmetry. apply stabilize_deterministic; [done..|].
  pose proof (stabilize_same_content _ Hwfh1) as Hs1.
  pose proof (stabilize_wf _ Hwfh1) as HwfR. rewrite HR in Hs1, HwfR.
  by rewrite <- (oriented_edges_Permutation R _ HwfR Hwfh1 Hs1).
Qed.

(** ** The order in which a stabilized graph lists its edges *)

Section key_order.
Lemma str_compare_app p s t : str_compare (p ++ s) (p ++ t) = str_compare s t.
Proof. induction p as [|a p IH]; simpl; [done|]. by rewrite N.compare_refl. Qed.

Lemma str_leb_app p s t : str_leb (p ++ s) (p ++ t) = str_leb s t.
Proof. unfold str_leb, str_ltb. by rewrite str_compare_app. Qed.

(** Two edges from one source are in the order of their keys exactly when
    their targets are in order. *)
Lemma edge_key_same_source (e e' : edge) :
  e.1.1 = e'.1.1 → key_le edge_key e e' → str_le e.1.2 e'.1.2.
Proof.
  unfold key_le, edge_key, NetworkXStorage._get_edge_key, str_le.
  intros ->. by rewrite !str_leb_app.
Qed.
End key_order.

Section neighbours.
Implicit Types G : nx.Graph.

Lemma nbr_keys_elem G u v :
  v ∈ nbr_keys (nx._adj G) u ↔ is_Some (nx.get_edge u v G).
Proof.
  unfold nbr_keys, nx.get_edge.
  destruct (odict_get u (nx._adj G)) as [nbrs|]; simpl.
  - by rewrite odict_get_is_Some.
  - rewrite elem_of_nil. split; [done|by intros [? ?]].
Qed.

Lemma nbr_keys_set2 u v dd m x :
  nbr_keys (nx.set2 u v dd m) x
  = if decide (x = u) then set_add v (nbr_keys m u) else nbr_keys m x.
Proof.
  unfold nbr_keys, nx.set2. destruct (decide (x = u)) as [->|Hne].
  - rewrite odict_get_set_eq. simpl. by rewrite odict_set_fst.
  - by rewrite odict_get_set_ne.
Qed.

Lemma nbr_keys_new_node n G x :
  wf G → nbr_keys (nx._adj (nx.new_node n G)) x = nbr_keys (nx._adj G) x.
Proof.
  intros Hwf. unfold nx.new_node.
  destruct (nx.has_node n G) eqn:Hn; [done|]. simpl.
  apply has_node_false in Hn. unfold nbr_keys.
  destruct (decide (n = x)) as [->|Hne].
  - rewrite odict_get_set_eq. simpl.
    assert (odict_get x (nx._adj G) = None) as ->; [|done].
    apply odict_get_None. by rewrite (wf_adj_keys G Hwf).
  - by rewrite odict_get_set_ne.
Qed.

(** [add_edge(a, b)] puts [b] last among the neighbours of [a] unless it is
    one already, and in a [Graph] likewise [a] among those of [b]. *)
Lemma nbr_keys_add_edge a b d G x :
  wf G →
  nbr_keys (nx._adj (nx.add_edge a b d G)) x
  = if nx.directed G then
      if decide (x = a) then set_add b (nbr_keys (nx._adj G) a)
      else nbr_keys (nx._adj G) x
    else if decide (x = b) then
      set_add a (if decide (b = a) then set_add b (nbr_keys (nx._adj G) a)
                 else nbr_keys (nx._adj G) b)
    else if decide (x = a) then set_add b (nbr_keys (nx._adj G) a)
    else nbr_keys (nx._adj G) x.
Proof.
  intros Hwf. unfold nx.add_edge.
  set (G1 := nx.new_node b (nx.new_node a G)).
  assert (HK : ∀ y, nbr_keys (nx._adj G1) y = nbr_keys (nx._adj G) y).
  { intros y. unfold G1. rewrite nbr_keys_new_node by (by apply new_node_wf).
    by apply nbr_keys_new_node. }
  assert (Hd : nx.directed G1 = nx.directed G)
    by (unfold G1; by rewrite !new_node_directed).
  rewrite Hd. destruct (nx.directed G); simpl.
  - by rewrite nbr_keys_set2, !HK.
  - by rewrite !nbr_keys_set2, !HK.
Qed.

Lemma add_nodes_from_data_get_edge ns G x y :
  wf G → nx.get_edge x y (nx.add_nodes_from_data ns G) = nx.get_edge x y G.
Proof.
  unfold nx.add_nodes_from_data. revert G.
  induction ns as [|[n a] ns IH]; intros G Hwf; simpl; [done|].
  rewrite IH by (by apply add_node_wf). by apply add_node_get_edge.
Qed.

Lemma nbr_keys_no_edges G u :
  (∀ v, nx.get_edge u v G = None) → nbr_keys (nx._adj G) u = [].
Proof.
  intros Hno. destruct (nbr_keys (nx._adj G) u) as [|v l] eqn:Hk; [done|].
  assert (Hv : v ∈ nbr_keys (nx._adj G) u) by (rewrite Hk; left).
  apply nbr_keys_elem in Hv as [d Hd]. by rewrite Hno in Hd.
Qed.
End neighbours.

Section insertion_order.
Implicit Types G : nx.Graph.

Lemma filter_set_add_sorted (P : pystr → Prop) `{!∀ x, Decision (P x)} v l :
  StronglySorted str_le (filter P l) →
  (P v → ∀ x, x ∈ l → P x → str_le x v) →
  StronglySorted str_le (filter P (set_add v l)).
Proof.
  intros Hs Hv. unfold set_add. destruct (decide (v ∈ l)); [done|].
  rewrite filter_app, filter_cons, filter_nil. destruct (decide (P v)) as [HP|].
  - apply StronglySorted_app. split; [|split; [done|repeat constructor]].
    intros x1 x2 Hx1 Hx2. apply list_elem_of_singleton in Hx2 as ->.
    apply list_elem_of_filter in Hx1 as [? ?]. by apply Hv.
  - by rewrite app_nil_r.
Qed.

Lemma node_inv_tail dir u l e es :
  node_inv dir u l (e :: es) → node_inv dir u l es.
Proof.
  intros [Hs Hb]. split; [done|]. intros v e' Hv Hr He'. apply Hb; [done..|].
  by right.
Qed.

Lemma node_inv_add dir u l es v :
  node_inv dir u l es →
  (reported dir u v = true → ∀ x, x ∈ l → reported dir u x = true → str_le x v) →
  (reported dir u v = true → ∀ e, e ∈ es → e.1.1 = u → str_le v e.1.2) →
  node_inv dir u (set_add v l) es.
Proof.
  intros [Hs Hb] Hl Hes. split.
  - by apply filter_set_add_sorted.
  - intros x e Hx Hr He Hu. apply set_add_elem in Hx as [->|Hx].
    + by apply Hes.
    + by apply Hb.
Qed.

Lemma add_edge_adj_inv e es G :
  wf G →
  reported (nx.directed G) e.1.1 e.1.2 = true →
  (∀ e', e' ∈ es → e'.1.1 = e.1.1 → str_le e.1.2 e'.1.2) →
  adj_inv (nx.directed G) (nx._adj G) (e :: es) →
  adj_inv (nx.directed G) (nx._adj (nx.add_edge e.1.1 e.1.2 e.2 G)) es.
Proof.
  destruct e as [[a b] d]. simpl. intros Hwf Hab Hnext Hinv u.
  rewrite nbr_keys_add_edge by done.
  assert (Ha : node_inv (nx.directed G) a
                 (set_add b (nbr_keys (nx._adj G) a)) es).
  { apply node_inv_add.
    - apply (node_inv_tail _ _ _ (a, b, d)), Hinv.
    - intros _ x Hx Hr. destruct (Hinv a) as [_ Hb].
      apply (Hb x (a, b, d)); [done|done|by left|done].
    - intros _ e' He' Hu. by apply Hnext. }
  destruct (nx.directed G) eqn:Hd.
  - destruct (decide (u = a)) as [->|Hne]; [done|].
    apply (node_inv_tail _ _ _ (a, b, d)), Hinv.
  - unfold reported in Hab. simpl in Hab.
    destruct (decide (u = b)) as [->|Hub].
    + destruct (decide (b = a)) as [->|Hba].
      * apply node_inv_add; [done| |].
        -- intros _ x Hx Hr. apply set_add_elem in Hx as [->|Hx]; [done|].
           destruct (Hinv a) as [_ Hb].
           apply (Hb x (a, a, d)); [done|done|by left|done].
        -- intros _ e' He' Hu. by apply Hnext.
      * assert (Hno : reported false b a = false).
        { unfold reported. simpl.
          destruct (str_leb b a) eqn:Hle; [|done].
          destruct Hba. by apply str_leb_antisym. }
        apply node_inv_add.
        -- apply (node_inv_tail _ _ _ (a, b, d)), Hinv.
        -- intros Hr. congruence.
        -- intros Hr. congruence.
    + destruct (decide (u = a)) as [->|Hne]; [done|].
      apply (node_inv_tail _ _ _ (a, b, d)), Hinv.
Qed.

Lemma add_edges_from_adj_inv es G :
  wf G → StronglySorted (key_le edge_key) es →
  (∀ e, e ∈ es → reported (nx.directed G) e.1.1 e.1.2 = true) →
  adj_inv (nx.directed G) (nx._adj G) es →
  adj_inv (nx.directed G) (nx._adj (nx.add_edges_from es G)) [].
Proof.
  unfold nx.add_edges_from. revert G.
  induction es as [|e es IH]; intros G Hwf Hs Hor Hinv; simpl; [done|].
  apply StronglySorted_cons in Hs as [Hfa Hs].
  rewrite <- (add_edge_directed e.1.1 e.1.2 e.2 G).
  apply IH; [by apply add_edge_wf|done| |].
  - rewrite add_edge_directed. intros e' He'. apply Hor. by right.
  - rewrite add_edge_directed. apply add_edge_adj_inv; [done| | |done].
    + apply Hor. by left.
    + intros e' He' Hu. apply edge_key_same_source; [done|].
      rewrite Forall_forall in Hfa. by apply Hfa.
Qed.
End insertion_order.

Section edge_order.
Implicit Types G : nx.Graph.

Lemma filter_ext_elem {A} (P Q : A → Prop) `{!∀ x, Decision (P x)}
    `{!∀ x, Decision (Q x)} (l : list A) :
  (∀ x, x ∈ l → P x ↔ Q x) → filter P l = filter Q l.
Proof.
  induction l as [|x l IH]; intros Hpq; [done|].
  rewrite !filter_cons.
  rewrite IH by (intros y Hy; apply Hpq; by right).
  destruct (decide (P x)) as [HP|HP], (decide (Q x)) as [HQ|HQ]; try done.
  - destruct HQ. by apply (Hpq x); [left|].
  - destruct HP. by apply (Hpq x); [left|].
Qed.

Lemma filter_fst {B} (P : pystr → Prop) `{!∀ x, Decision (P x)}
    (l : list (pystr * B)) :
  (filter (fun vd => P vd.1) l).*1 = filter P l.*1.
Proof.
  induction l as [|[v d] l IH]; [done|]. csimpl.
  rewrite !filter_cons. simpl. destruct (decide (P v)); csimpl; by rewrite IH.
Qed.

(** The edges reported from one node, its neighbours being in order. *)
Lemma block_sorted u (nbrs : odict pystr attrs) :
  StronglySorted str_le nbrs.*1 →
  StronglySorted edge_le (map (fun vd => (u, vd.1, vd.2)) nbrs).
Proof.
  induction nbrs as [|[v d] nbrs IH]; csimpl; intros Hs; [constructor|].
  apply StronglySorted_cons in Hs as [Hfa Hs].
  constructor; [by apply IH|].
  apply Forall_forall. intros e He.
  apply list_elem_of_fmap in He as ([v' d'] & -> & Hin).
  split; simpl; [apply str_leb_refl|]. intros _.
  rewrite Forall_forall in Hfa. apply Hfa.
  apply list_elem_of_fmap. by exists (v', d').
Qed.

Lemma adjacency_items_sorted (adj : odict pystr (odict pystr attrs)) :
  StronglySorted str_le adj.*1 → NoDup adj.*1 →
  (∀ u nbrs, (u, nbrs) ∈ adj → StronglySorted str_le nbrs.*1) →
  StronglySorted edge_le (nx.adjacency_items adj).
Proof.
  unfold nx.adjacency_items.
  induction adj as [|[u nbrs] adj IH]; csimpl; intros Hs Hnd Hin;
    [constructor|].
  apply StronglySorted_cons in Hs as [Hfa Hs].
  apply NoDup_cons in Hnd as [Hu Hnd].
  apply StronglySorted_app. split; [|split].
  - intros e1 e2 He1 He2.
    apply list_elem_of_fmap in He1 as ([v d] & -> & Hv).
    destruct e2 as [[u' v'] d'].
    apply (adjacency_items_elem adj u' v' d') in He2 as (nbrs' & Hn' & _).
    assert (Hu' : u' ∈ adj.*1)
      by (apply list_elem_of_fmap; by exists (u', nbrs')).
    split; simpl.
    + rewrite Forall_forall in Hfa. by apply Hfa.
    + intros ->. done.
  - apply block_sorted. apply (Hin u). by left.
  - apply IH; [done..|]. intros u' nbrs' Hn'. apply (Hin u'). by right.
Qed.

Lemma edges_undirected_sorted seen (adj : odict pystr (odict pystr attrs)) :
  StronglySorted str_le adj.*1 → NoDup adj.*1 →
  (∀ pre u nbrs post, adj = pre ++ (u, nbrs) :: post →
     StronglySorted str_le
       (filter (fun v => v ∉ seen ∧ v ∉ pre.*1) nbrs.*1)) →
  StronglySorted edge_le (nx.edges_undirected seen adj).
Proof.
  revert seen.
  induction adj as [|[u nbrs] adj IH]; intros seen; csimpl; intros Hs Hnd Hin;
    [constructor|].
  apply StronglySorted_cons in Hs as [Hfa Hs].
  apply NoDup_cons in Hnd as [Hu Hnd].
  apply StronglySorted_app. split; [|split].
  - intros e1 e2 He1 He2.
    apply list_elem_of_fmap in He1 as ([v d] & -> & Hv).
    destruct e2 as [[u' v'] d'].
    apply edges_undirected_elem in He2 as (pre & nbrs' & post & -> & _).
    assert (Hu' : u' ∈ (pre ++ (u', nbrs') :: post).*1).
    { rewrite fmap_app. apply elem_of_app. right. left. }
    split; simpl.
    + rewrite Forall_forall in Hfa. by apply Hfa.
    + intros ->. done.
  - apply block_sorted.
    pose proof (filter_fst (fun v => v ∉ seen) nbrs) as Hf. cbv beta in Hf.
    rewrite Hf. clear Hf.
    rewrite (filter_ext_elem _ (fun v => v ∉ seen ∧ v ∉ ([] : odict pystr (odict pystr attrs)).*1)).
    + by apply (Hin [] u nbrs adj).
    + intros x _. csimpl. rewrite elem_of_nil. tauto.
  - apply IH; [done..|]. intros pre u' nbrs' post ->.
    rewrite (filter_ext_elem _
               (fun v => v ∉ seen ∧ v ∉ ((u, nbrs) :: pre).*1)).
    + by apply (Hin ((u, nbrs) :: pre) u' nbrs' post).
    + intros x _. csimpl. rewrite !not_elem_of_cons. tauto.
Qed.
End edge_order.

Section stabilized_order.
Implicit Types G H : nx.Graph.

Lemma filter_all {A} (P : A → Prop) `{!∀ x, Decision (P x)} (l : list A) :
  (∀ x, x ∈ l → P x) → filter P l = l.
Proof.
  induction l as [|x l IH]; intros Hall; [done|].
  rewrite filter_cons, decide_True by (apply Hall; left).
  rewrite IH; [done|]. intros y Hy. apply Hall. by right.
Qed.

(** In a stabilized graph the neighbours of a node from which edges are
    reported are in ascending order. *)
Lemma stabilize_nbr_keys_sorted H u :
  wf H →
  StronglySorted str_le
    (filter (fun v => reported (nx.directed H) u v = true)
       (nbr_keys (nx._adj (NetworkXStorage._stabilize_graph H)) u)).
Proof.
  intros Hwf. unfold NetworkXStorage._stabilize_graph, nx.is_directed.
  set (G0 := nx.add_nodes_from_data (NetworkXStorage.sorted_nodes H)
               (nx.empty (nx.directed H))).
  assert (Hwf0 : wf G0) by apply add_nodes_from_data_wf, wf_empty.
  assert (Hd0 : nx.directed G0 = nx.directed H)
    by (unfold G0; by rewrite add_nodes_from_data_directed).
  rewrite <- Hd0.
  apply (add_edges_from_adj_inv (NetworkXStorage.sorted_edges H) G0); [done| | |].
  - rewrite sorted_edges_oriented. apply sorted_StronglySorted.
  - intros [[a b] d] He. rewrite sorted_edges_oriented in He.
    apply (proj1 (sorted_elem _ _ _)) in He.
    apply oriented_edges_elem in He as [_ Hor]; [|done].
    rewrite Hd0. unfold reported. simpl.
    destruct (nx.directed H); [done|]. by apply Hor.
  - intros x.
    assert (Hnil : nbr_keys (nx._adj G0) x = []).
    { apply nbr_keys_no_edges. intros v. unfold G0.
      by rewrite add_nodes_from_data_get_edge by apply wf_empty. }
    rewrite Hnil. split; [constructor|]. by intros v e ?%elem_of_nil.
Qed.

Lemma stabilize_nodes_sorted H :
  wf H → StronglySorted str_le (nx.nodes (NetworkXStorage._stabilize_graph H)).
Proof.
  intros Hwf.
  destruct (stabilize_spec H Hwf) as (_ & _ & Hn & _).
  unfold nx.nodes. unfold nx.nodes_data in Hn. rewrite Hn.
  unfold NetworkXStorage.sorted_nodes.
  apply (StronglySorted_fmap fst (key_le (fun x : pystr * attrs => x.1)) str_le);
    [done|]. apply sorted_StronglySorted.
Qed.
End stabilized_order.

Section stabilized_edges.
Implicit Types G H : nx.Graph.

(** [G.edges(data=True)] of a stabilized graph is in ascending order of
    source, and of target for the edges of one source. *)
Lemma stabilize_edges_sorted H :
  wf H → StronglySorted edge_le (nx.edges_data (NetworkXStorage._stabilize_graph H)).
Proof.
  intros Hwf.
  destruct (stabilize_spec H Hwf) as (HwfG & Hd & _ & _).
  pose proof (stabilize_nodes_sorted H Hwf) as Hns.
  pose proof (fun u => stabilize_nbr_keys_sorted H u Hwf) as Hnb.
  set (G := NetworkXStorage._stabilize_graph H) in *.
  pose proof (wf_adj_keys G HwfG) as Hk. pose proof (wf_nodes G HwfG) as Hnd.
  rewrite <- Hk in Hns, Hnd.
  assert (Hkeys : ∀ u nbrs, (u, nbrs) ∈ nx._adj G →
            nbr_keys (nx._adj G) u = nbrs.*1).
  { intros u nbrs Hin. unfold nbr_keys.
    by rewrite (proj2 (odict_get_Some u nbrs (nx._adj G) Hnd) Hin). }
  unfold nx.edges_data. rewrite Hd. destruct (nx.directed H) eqn:HdH.
  - apply adjacency_items_sorted; [done..|]. intros u nbrs Hin.
    rewrite <- (Hkeys u nbrs Hin).
    rewrite <- (filter_all (fun v => reported true u v = true)
                  (nbr_keys (nx._adj G) u)); [apply Hnb|done].
  - apply edges_undirected_sorted; [done..|].
    intros pre u nbrs post Heq.
    assert (Hin : (u, nbrs) ∈ nx._adj G).
    { rewrite Heq. apply elem_of_app. right. left. }
    rewrite Heq, fmap_app, fmap_cons in Hns, Hnd. simpl in Hns, Hnd.
    apply StronglySorted_app in Hns as (Hcross & _ & Hpost).
    apply StronglySorted_cons in Hpost as [Hpost _].
    rewrite Forall_forall in Hpost.
    apply NoDup_app in Hnd as (_ & Hdisj & _).
    rewrite (filter_ext_elem _ (fun v => reported false u v = true)).
    { rewrite <- (Hkeys u nbrs Hin). apply Hnb. }
    intros x Hx. unfold reported. simpl.
    assert (Hxn : x ∈ pre.*1 ++ u :: post.*1).
    { rewrite <- (Hkeys u nbrs Hin) in Hx. apply nbr_keys_elem in Hx.
      apply (wf_adj_closed G HwfG) in Hx.
      rewrite <- Hk, Heq, fmap_app, fmap_cons in Hx. done. }
    split.
    + intros [_ Hpre]. apply elem_of_app in Hxn as [?|Hxn]; [done|].
      apply elem_of_cons in Hxn as [->|Hxn]; [apply str_leb_refl|].
      by apply Hpost.
    + intros Hle. split; [apply not_elem_of_nil|]. intros Hpre.
      assert (x = u) as ->.
      { apply str_leb_antisym; [|done]. apply Hcross; [done|left]. }
      apply (Hdisj u Hpre). left.
Qed.

(** Graphs of equal content stabilize to graphs that list the same edges in
    the same order. *)
Lemma stabilize_edges_deterministic H H' :
  wf H → wf H' → same_content H H' →
  nx.edges_data (NetworkXStorage._stabilize_graph H)
  = nx.edges_data (NetworkXStorage._stabilize_graph H').
Proof.
  intros Hwf Hwf' Hsc.
  destruct (stabilize_spec H Hwf) as (HwfG & Hd & Hn & He).
  destruct (stabilize_spec H' Hwf') as (HwfG' & Hd' & Hn' & He').
  pose proof (stabilize_edges_sorted H Hwf) as Hs.
  pose proof (stabilize_edges_sorted H' Hwf') as Hs'.
  set (G := NetworkXStorage._stabilize_graph H) in *.
  set (G' := NetworkXStorage._stabilize_graph H') in *.
  assert (Hnodes : nx.nodes G = nx.nodes G').
  { unfold nx.nodes. unfold nx.nodes_data in Hn, Hn'.
    by rewrite Hn, Hn', (sorted_nodes_same H H'). }
  destruct Hsc as (HdH & _ & HeH).
  assert (Hget : ∀ x y, nx.get_edge x y G = nx.get_edge x y G').
  { intros x y. by rewrite He, He', HeH. }
  assert (Hdir : nx.directed G = nx.directed G') by congruence.
  apply (StronglySorted_unique_strong edge_le); [|done|done|].
  - intros [[u v] d] [[u' v'] d'] Hx Hx' [Hu Hv] [Hu' Hv']. simpl in *.
    assert (u = u') as <- by exact (str_leb_antisym _ _ Hu Hu').
    assert (v = v') as <-
      by exact (str_leb_antisym _ _ (Hv eq_refl) (Hv' eq_refl)).
    apply edges_data_get_edge in Hx, Hx'; [|done..].
    rewrite Hget in Hx. congruence.
  - apply NoDup_Permutation; [by apply edges_data_NoDup..|].
    intros [[u v] d]. destruct (nx.directed G) eqn:HdG.
    + rewrite !edges_data_directed_elem by congruence. by rewrite Hget.
    + rewrite !edges_data_undirected_elem by congruence.
      by rewrite Hget, Hnodes.
Qed.

(** Graphs of equal content stabilize to graphs that read the same. *)
Lemma stabilize_same_sequences H H' :
  wf H → wf H' → same_content H H' →
  same_sequences (NetworkXStorage._stabilize_graph H)
    (NetworkXStorage._stabilize_graph H').
Proof.
  intros Hwf Hwf' Hsc.
  destruct (stabilize_spec H Hwf) as (_ & Hd & Hn & _).
  destruct (stabilize_spec H' Hwf') as (_ & Hd' & Hn' & _).
  split; [|split].
  - rewrite Hd, Hd'. apply Hsc.
  - by rewrite Hn, Hn', (sorted_nodes_same H H').
  - by apply stabilize_edges_deterministic.
Qed.
End stabilized_edges.

(** [G.edges(data=True)] of a stabilized [Graph] reports every edge from
    its lexicographically smaller endpoint. *)
Lemma stabilize_edges_oriented (H : nx.Graph) u v d :
  wf H → nx.directed H = false →
  (u, v, d) ∈ nx.edges_data (NetworkXStorage._stabilize_graph H) →
  str_le u v.
Proof.
  intros Hwf HdH Hin.
  destruct (stabilize_spec H Hwf) as (HwfG & Hd & _ & _).
  pose proof (stabilize_nodes_sorted H Hwf) as Hns.
  set (G := NetworkXStorage._stabilize_graph H) in *.
  apply edges_data_undirected_elem in Hin as [Hg Hnb]; [|done|congruence].
  destruct (get_edge_nodes G u v d HwfG Hg) as [Hu Hv].
  destruct (comes_before_total (nx.nodes G) u v Hu Hv) as [->|[Hb|Hb]].
  - apply str_leb_refl.
  - by destruct Hnb.
  - destruct Hb as (pre & post & Heq & Hpre). rewrite Heq in Hns.
    apply StronglySorted_app in Hns as (Hcross & _ & _).
    apply Hcross; [done|left].
Qed.




(** C7, the claim as amended.  When the normalization leaves every node id
    of a canonical form unchanged, canonicalizing it again returns a graph
    that reads the same: same directedness, same sequence of nodes with
    their properties, same sequence of edges with their properties. *)
Theorem C7_idempotent_on_normalized_ids (E : pyenv) (G R : nx.Graph) :
  NetworkXStorage.stable_largest_connected_component E G = ret R →
  (∀ n, n ∈ nx.nodes R → NetworkXStorage.normalize_id E n = ret n) →
  ∃ R', NetworkXStorage.stable_largest_connected_component E R = ret R'
        ∧ nx.directed R' = nx.directed R
        ∧ nx.nodes_data R' = nx.nodes_data R
        ∧ nx.edges_data R' = nx.edges_data R.
Proof.
  intros HR Hfix.
  destruct (canonicalize_twice_stages E G R HR Hfix)
    as (H0 & H & Hwf0 & HwfH & Hsc & -> & Hres).
  eexists. split; [exact Hres|].
  by apply stabilize_same_sequences.
Qed.


(** ** The statements above on concrete graphs *)

(** C4 on two paths of four nodes, [W - X - Y - Z] inserted first. *)
Lemma C4_largest_component_first_inserted_on_tie_witness :
  let E := env.reversed in
  let G := graphs.wxyz_then_abcd in
  ∃ C s,
    s ∈ nx.nodes G ∧ NoDup C ∧ (∀ v, v ∈ C ↔ connected G s v)
    ∧ (∀ v, v ∈ C → v = s ∨ comes_before (nx.nodes G) s v)
    ∧ ((∀ n, n ∈ C → ∃ id, NetworkXStorage.normalize_id E n = ret id) →
       ∃ R, NetworkXStorage.stable_largest_connected_component E G = ret R
         ∧ ∀ m, m ∈ nx.nodes R
                ↔ ∃ n, n ∈ C ∧ NetworkXStorage.normalize_id E n = ret m)
    ∧ (∀ s' C', s' ∈ nx.nodes G → NoDup C' →
                (∀ v, v ∈ C' ↔ connected G s' v) → length C' ≤ length C)
    ∧ (∀ s' C', s' ∈ nx.nodes G → NoDup C' →
                (∀ v, v ∈ C' ↔ connected G s' v) →
                ¬ connected G s s' → length C' = length C →
                comes_before (nx.nodes G) s s').
Proof.
  apply (C4_largest_component_first_inserted_on_tie env.reversed
           graphs.wxyz_then_abcd).
  - apply apply_updates_wf, wf_empty.
  - vm_compute. discriminate.
Defined.



(** C7 on the canonical form of a weighted edge [a - b] beside an isolated
    node. *)
Lemma C7_idempotent_on_normalized_ids_witness :
  ∃ R', NetworkXStorage.stable_largest_connected_component env.reversed
          graphs.AB_weighted = ret R'
        ∧ nx.directed R' = nx.directed graphs.AB_weighted
        ∧ nx.nodes_data R' = nx.nodes_data graphs.AB_weighted
        ∧ nx.edges_data R' = nx.edges_data graphs.AB_weighted.
Proof.
  apply (C7_idempotent_on_normalized_ids env.reversed graphs.ab_then_z).
  - vm_compute. reflexivity.
  - apply Forall_forall.
    change (nx.nodes graphs.AB_weighted) with [py "A"; py "B"].
    repeat (apply Forall_cons; split; [vm_compute; reflexivity|]).
    apply Forall_nil. done.
Defined.


(** * Further properties of the record stores *)

Section json_store.
Context {V : Type}.
Implicit Types data _data : gmap pystr V.

Lemma json_all_keys_elem _data k :
  k ∈ JsonKVStorage.all_keys _data ↔ k ∈ dom _data.
Proof.
  unfold JsonKVStorage.all_keys. rewrite elem_of_dom, list_elem_of_fmap. split.
  - intros ([k' v] & -> & Hin). apply elem_of_map_to_list in Hin. by eexists.
  - intros [v Hv]. exists (k, v). split; [done|]. by apply elem_of_map_to_list.
Qed.

Lemma json_filter_keys_elem (l : list pystr) _data s :
  s ∈ JsonKVStorage.filter_keys l _data ↔ s ∈ l ∧ s ∉ dom _data.
Proof.
  unfold JsonKVStorage.filter_keys.
  rewrite elem_of_list_to_set, list_elem_of_filter. tauto.
Qed.

Lemma json_upsert_state_dom data _data :
  dom (JsonKVStorage.upsert data _data).1 = dom data ∪ dom _data.
Proof.
  apply set_eq. intros k. rewrite elem_of_union, !elem_of_dom.
  rewrite json_upsert_stored. unfold is_Some.
  destruct (_data !! k), (data !! k); naive_solver.
Qed.

(** X1.  [filter_keys] tells beforehand which keys [upsert] will report as new;
    after the [upsert] none of its keys is reported any more, and the same
    [upsert] again stores and reports nothing. *)
Theorem JsonKVStorage_upsert_and_filter_keys data _data (l : list pystr) :
  dom (JsonKVStorage.upsert data _data).2
  = JsonKVStorage.filter_keys (JsonKVStorage.all_keys data) _data
  ∧ JsonKVStorage.filter_keys l (JsonKVStorage.upsert data _data).1
    = JsonKVStorage.filter_keys l _data ∖ dom data
  ∧ JsonKVStorage.filter_keys (JsonKVStorage.all_keys data)
      (JsonKVStorage.upsert data _data).1 = ∅
  ∧ JsonKVStorage.upsert data (JsonKVStorage.upsert data _data).1
    = ((JsonKVStorage.upsert data _data).1, ∅)
  ∧ (∀ k, k ∈ JsonKVStorage.all_keys (JsonKVStorage.upsert data _data).1
          ↔ k ∈ JsonKVStorage.all_keys _data ∨ k ∈ JsonKVStorage.all_keys data).
Proof.
  split; [|split; [|split; [|split]]].
  - rewrite json_upsert_dom. apply set_eq. intros k.
    rewrite json_filter_keys_elem, json_all_keys_elem. set_solver.
  - apply set_eq. intros k.
    rewrite elem_of_difference, !json_filter_keys_elem, json_upsert_state_dom.
    set_solver.
  - apply set_eq. intros k.
    rewrite json_filter_keys_elem, json_all_keys_elem, json_upsert_state_dom.
    set_solver.
  - set (S := (JsonKVStorage.upsert data _data).1).
    rewrite (surjective_pairing (JsonKVStorage.upsert data S)). f_equal.
    + apply map_eq. intros k. rewrite json_upsert_stored.
      destruct (S !! k) as [v|] eqn:HS; [done|].
      unfold S in HS. rewrite json_upsert_stored in HS.
      destruct (_data !! k); [done|]. done.
    + apply map_eq. intros k. rewrite json_upsert_returned, lookup_empty.
      destruct (decide (k ∈ dom S)) as [|Hk]; [done|].
      unfold S in Hk. rewrite json_upsert_state_dom in Hk.
      apply not_elem_of_dom. set_solver.
  - intros k. rewrite !json_all_keys_elem, json_upsert_state_dom. set_solver.
Qed.

End json_store.

Section json_get_by_ids.
Context {F : Type}.
Implicit Types record : odict pystr F.

Lemma odict_get_filter_fields (fields : list pystr) record k :
  odict_get k (filter (fun kv => kv.1 ∈ fields) record)
  = if decide (k ∈ fields) then odict_get k record else None.
Proof.
  induction record as [|[k1 v1] record IH]; simpl.
  - by destruct (decide (k ∈ fields)).
  - rewrite filter_cons. simpl.
    destruct (decide (k1 ∈ fields)) as [HP|HP]; simpl.
    + destruct (decide (k1 = k)) as [->|Hne].
      * by rewrite decide_True.
      * apply IH.
    + rewrite IH. destruct (decide (k1 = k)) as [->|Hne]; [|done].
      by destruct (decide (k ∈ fields)).
Qed.

(** X2.  [get_by_ids] answers position by position.  Without [fields] the
    answer at a position is what [get_by_id] gives for the id there.  With
    [fields], an id that is not stored and an id stored with an empty
    record both give [None]; any other record is given with the fields
    named in [fields], in their stored order, and no others. *)
Theorem JsonKVStorage_get_by_ids_answers (ids fields : list pystr)
    (_data : gmap pystr (odict pystr F)) :
  length (JsonKVStorage.get_by_ids ids None _data) = length ids
  ∧ length (JsonKVStorage.get_by_ids ids (Some fields) _data) = length ids
  ∧ (∀ i id, ids !! i = Some id →
       JsonKVStorage.get_by_ids ids None _data !! i
       = Some (JsonKVStorage.get_by_id id _data))
  ∧ (∀ i id, ids !! i = Some id →
       _data !! id = None ∨ _data !! id = Some [] →
       JsonKVStorage.get_by_ids ids (Some fields) _data !! i = Some None)
  ∧ (∀ i id record, ids !! i = Some id →
       _data !! id = Some record → record ≠ [] →
       ∃ r, JsonKVStorage.get_by_ids ids (Some fields) _data !! i
            = Some (Some r)
         ∧ sublist r record
         ∧ ∀ k, odict_get k r
                = if decide (k ∈ fields) then odict_get k record else None).
Proof.
  unfold JsonKVStorage.get_by_ids, JsonKVStorage.get_by_id.
  split; [by rewrite length_map|]. split; [by rewrite length_map|].
  split; [|split].
  - intros i id Hi. by rewrite list_lookup_fmap, Hi.
  - intros i id Hi Hd. rewrite list_lookup_fmap, Hi. simpl.
    by destruct Hd as [->| ->].
  - intros i id record Hi Hd Hne. rewrite list_lookup_fmap, Hi. simpl.
    rewrite Hd. destruct record as [|kv record]; [done|].
    eexists. split; [done|]. split; [apply sublist_filter|].
    intros k. apply odict_get_filter_fields.
Qed.
End json_get_by_ids.

Section duckdb_store.
Context {V : Type}.

(** X3.  [DuckDBStorage.filter_keys] compares the keys with the rows that
    [__post_init__] fetched, and a string equals no row: it returns every
    key it is given, and [upsert], which asks it for the keys that exist,
    returns an empty mapping whatever it wrote.  The fetched rows are not
    refreshed by [upsert]. *)
Theorem DuckDBStorage_upsert_reports_nothing (data : gmap pystr V)
    (l : list pystr) (s : DuckDBStorage.state V) :
  DuckDBStorage.filter_keys l s = list_to_set l
  ∧ (DuckDBStorage.upsert data s).2 = ∅
  ∧ DuckDBStorage._data (DuckDBStorage.upsert data s).1 = DuckDBStorage._data s
  ∧ DuckDBStorage.filter_keys l (DuckDBStorage.upsert data s).1 = list_to_set l
  ∧ (∀ k, k ∈ DuckDBStorage.all_keys (DuckDBStorage.upsert data s).1
          ↔ k ∈ DuckDBStorage.all_keys s ∨ k ∈ dom data).
Proof.
  split; [apply duckdb_filter_keys_all|]. split; [apply duckdb_upsert_returned|].
  split; [done|]. split; [apply duckdb_filter_keys_all|].
  intros k. unfold DuckDBStorage.all_keys, DuckDBStorage.upsert. simpl.
  assert (Hkeys : ∀ (m : gmap pystr V), k ∈ (map_to_list m).*1 ↔ is_Some (m !! k)).
  { intros m. rewrite list_elem_of_fmap. split.
    - intros ([k' v] & -> & Hin). apply elem_of_map_to_list in Hin. by eexists.
    - intros [v Hv]. exists (k, v). split; [done|]. by apply elem_of_map_to_list. }
  rewrite !Hkeys, duckdb_table_after, elem_of_dom. unfold is_Some.
  destruct (data !! k); naive_solver.
Qed.
End duckdb_store.

(** * Further properties of the vector stores *)

Section batch_sizes.
Context {F : Type}.

Lemma ceil_div_lt (n st j : nat) :
  0 < st → j < (n + st - 1) / st → j * st < n.
Proof.
  intros Hst Hj.
  pose proof (Nat.div_mod_eq (n + st - 1) st) as Hdm.
  pose proof (Nat.mod_upper_bound (n + st - 1) st) as Hmod.
  nia.
Qed.

Lemma ceil_div_full (n st j : nat) :
  0 < st → S j < (n + st - 1) / st → j * st + st ≤ n.
Proof.
  intros Hst Hj.
  pose proof (Nat.div_mod_eq (n + st - 1) st) as Hdm.
  pose proof (Nat.mod_upper_bound (n + st - 1) st) as Hmod.
  nia.
Qed.

(** X4.  With a positive batch size every batch handed to the embedding
    function is non-empty and holds at most that many strings, every batch
    but the last holds exactly that many, and there are
    [ceil(len(contents) / size)] batches: none when there are no
    contents. *)
Theorem batches_are_bounded (bs : Z) (contents : list F)
    (batches : list (list F)) :
  (0 < bs)%Z →
  make_batches bs contents = ret batches →
  length batches = (length contents + Z.to_nat bs - 1) / Z.to_nat bs
  ∧ Forall (fun b => 0 < length b ≤ Z.to_nat bs) batches
  ∧ (∀ j b, batches !! j = Some b → S j < length batches →
            length b = Z.to_nat bs)
  ∧ (contents = [] → batches = []).
Proof.
  intros Hbs Hb. rewrite make_batches_ok in Hb by done.
  injection Hb as <-.
  set (st := Z.to_nat bs). assert (Hst : 0 < st) by (unfold st; lia).
  set (k := (length contents + st - 1) / st).
  assert (Hlen : length (map (fun j => take st (drop (j * st) contents))
                           (seq 0 k)) = k)
    by (by rewrite length_map, length_seq).
  split; [done|]. split; [|split].
  - apply Forall_forall. intros b Hin.
    apply list_elem_of_fmap in Hin as (j & -> & Hj).
    apply elem_of_seq in Hj as [_ Hj]. simpl in Hj.
    pose proof (ceil_div_lt (length contents) st j Hst Hj).
    rewrite length_take, length_drop. lia.
  - intros j b Hjb Hlt. rewrite Hlen in Hlt.
    rewrite list_lookup_fmap in Hjb.
    destruct (seq 0 k !! j) as [j'|] eqn:Hs; [|done].
    apply lookup_seq in Hs as [-> _]. simpl in Hjb. injection Hjb as <-.
    pose proof (ceil_div_full (length contents) st j Hst Hlt).
    rewrite length_take, length_drop. lia.
  - intros Hc. assert (Hk : k = 0).
    { unfold k. rewrite Hc. simpl. apply Nat.div_small. lia. }
    by rewrite Hk.
Qed.

End batch_sizes.

(** Three strings in batches of two: a batch of two and a batch of one. *)
Lemma batches_are_bounded_witness :
  length [[py "a"; py "bb"]; [py "ccc"]]
  = (length [py "a"; py "bb"; py "ccc"] + Z.to_nat 2 - 1) / Z.to_nat 2
  ∧ Forall (fun b : list pystr => 0 < length b ≤ Z.to_nat 2)
      [[py "a"; py "bb"]; [py "ccc"]]
  ∧ (∀ j b, [[py "a"; py "bb"]; [py "ccc"]] !! j = Some b →
            S j < length [[py "a"; py "bb"]; [py "ccc"]] →
            length b = Z.to_nat 2)
  ∧ ([py "a"; py "bb"; py "ccc"] = [] → [[py "a"; py "bb"]; [py "ccc"]] = []).
Proof.
  apply (batches_are_bounded 2 [py "a"; py "bb"; py "ccc"]).
  - lia.
  - reflexivity.
Defined.

Section upsert_errors.
Context {F vec : Type}.
Implicit Types data : odict pystr (odict pystr F).

Lemma make_contents_KeyError data :
  (∃ kv, kv ∈ data ∧ odict_get (py "content") kv.2 = None) →
  make_contents data = raise KeyError.
Proof.
  unfold make_contents. intros (kv & Hin & Hkv).
  induction data as [|kv' data IH]; [by apply elem_of_nil in Hin|]. simpl.
  destruct (odict_get (py "content") kv'.2) as [c|] eqn:Hc; [|done]. simpl.
  apply elem_of_cons in Hin as [->|Hin]; [congruence|].
  by rewrite IH.
Qed.

Lemma nano_upsert_raises (embedding_func : list F → result (list vec))
    meta_fields bs data ex {client report : Type}
    (client_upsert : list (odict pystr (dval F vec)) → client →
                     report * client) (_client : client) :
  data ≠ [] →
  NanoVectorDBStorage.upsert_payload embedding_func meta_fields bs data
  = raise ex →
  NanoVectorDBStorage.upsert embedding_func meta_fields bs client_upsert
    data _client = (raise ex, _client).
Proof.
  intros Hne Hp. unfold NanoVectorDBStorage.upsert.
  rewrite bool_decide_eq_false_2 by (by destruct data).
  by rewrite Hp.
Qed.

(** X5.  A record without a [content] field makes [upsert] raise [KeyError]
    before anything is embedded or written: the client of
    [NanoVectorDBStorage] and the collection of [ChromaDBStorage] stay as
    they were, whatever the embedding function and the batch size. *)
Theorem upsert_without_content_raises_KeyError
    (embedding_func : list F → result (list vec)) (meta_fields : list pystr)
    (bs : Z) data :
  (∃ kv, kv ∈ data ∧ odict_get (py "content") kv.2 = None) →
  (∀ (client report : Type)
     (client_upsert : list (odict pystr (dval F vec)) → client →
                      report * client) (_client : client),
     NanoVectorDBStorage.upsert embedding_func meta_fields bs client_upsert
       data _client = (raise KeyError, _client))
  ∧ (∀ self : ChromaDBStorage.state F vec,
       ChromaDBStorage.reachable self = true →
       ChromaDBStorage.upsert embedding_func meta_fields bs data self
       = (raise KeyError, self)).
Proof.
  intros Hmiss.
  assert (Hne : data ≠ []).
  { destruct Hmiss as (kv & Hin & _). intros ->. by apply elem_of_nil in Hin. }
  pose proof (make_contents_KeyError data Hmiss) as Hc.
  split.
  - intros client report client_upsert _client.
    apply nano_upsert_raises; [done|].
    unfold NanoVectorDBStorage.upsert_payload, embed_contents.
    by rewrite Hc.
  - intros self Hr. unfold ChromaDBStorage.upsert.
    rewrite bool_decide_eq_false_2 by (by destruct data).
    rewrite Hr. simpl. unfold ChromaDBStorage.upsert_prepare.
    by rewrite Hc.
Qed.

(** X6.  [range(0, n, 0)] is an error, and with a negative step there are no
    batches and [np.concatenate] has nothing to concatenate: with a batch
    size that is not positive, an [upsert] of records that all have a
    [content] raises [ValueError] and writes nothing.
    [ChromaDBStorage.upsert] gets that far when the batch size is [0], or
    when some id of the call is not in the collection. *)
Theorem upsert_nonpositive_batch_size_raises_ValueError
    (embedding_func : list F → result (list vec)) (meta_fields : list pystr)
    (bs : Z) data :
  data ≠ [] →
  Forall (fun kv => is_Some (odict_get (py "content") kv.2)) data →
  (bs ≤ 0)%Z →
  (∀ (client report : Type)
     (client_upsert : list (odict pystr (dval F vec)) → client →
                      report * client) (_client : client),
     NanoVectorDBStorage.upsert embedding_func meta_fields bs client_upsert
       data _client = (raise ValueError, _client))
  ∧ (∀ self : ChromaDBStorage.state F vec,
       ChromaDBStorage.reachable self = true →
       bs = 0%Z
       ∨ (∃ id, id ∈ data.*1
                ∧ id ∉ ChromaDBStorage.existing_ids
                         (ChromaDBStorage.collection self)) →
       ChromaDBStorage.upsert embedding_func meta_fields bs data self
       = (raise ValueError, self)).
Proof.
  intros Hne Hall Hbs.
  destruct (make_contents_total data Hall) as [contents Hc].
  assert (Hb : make_batches bs contents = raise ValueError
               ∨ ((bs < 0)%Z ∧ make_batches bs contents = ret [])).
  { unfold make_batches, py_range0.
    destruct (decide (bs = 0%Z)) as [->|Hnz]; [by left|].
    right. split; [lia|].
    rewrite bool_decide_eq_false_2 by done.
    by rewrite bool_decide_eq_true_2 by lia. }
  split.
  - intros client report client_upsert _client.
    apply nano_upsert_raises; [done|].
    unfold NanoVectorDBStorage.upsert_payload, embed_contents.
    rewrite Hc. simpl. by destruct Hb as [-> |[_ ->]].
  - intros self Hr Hcase. unfold ChromaDBStorage.upsert.
    rewrite bool_decide_eq_false_2 by (by destruct data).
    rewrite Hr. simpl. unfold ChromaDBStorage.upsert_prepare.
    rewrite Hc. simpl. destruct Hb as [-> |[Hneg ->]]; [done|]. simpl.
    destruct Hcase as [->|(id & Hid & Hnew)]; [lia|].
    rewrite bool_decide_eq_false_2; [done|].
    intros Hlen. apply nil_length_inv in Hlen.
    assert (Hin : id ∈ filter
                    (fun id => id ∉ ChromaDBStorage.existing_ids
                                      (ChromaDBStorage.collection self))
                    data.*1) by (by apply list_elem_of_filter).
    rewrite Hlen in Hin. by apply elem_of_nil in Hin.
Qed.

Lemma attach_vectors_short i (list_data : list (odict pystr (dval F vec)))
    (embeddings : list vec) :
  i ≤ length embeddings < i + length list_data →
  attach_vectors i list_data embeddings = raise IndexError.
Proof.
  revert i. induction list_data as [|d ds IH]; intros i Hlen; simpl in *.
  - lia.
  - unfold row. destruct (embeddings !! i) as [e|] eqn:He; [|done]. simpl.
    apply lookup_lt_Some in He. rewrite IH by lia. done.
Qed.

(** X7.  The rows of the embeddings are given to the records by position over
    the concatenation of the batches, without a check that there is one
    row per record: with fewer rows than records
    [NanoVectorDBStorage.upsert] raises [IndexError] and the client is not
    called; with at least as many, record [i] gets row [i] and the rows
    beyond the last record are ignored. *)
Theorem upsert_assigns_rows_by_position
    (embedding_func : list F → result (list vec)) (meta_fields : list pystr)
    (bs : Z) data (embeddings : list vec) :
  data ≠ [] →
  embed_contents embedding_func bs data = ret embeddings →
  (length embeddings < length data →
   ∀ (client report : Type)
     (client_upsert : list (odict pystr (dval F vec)) → client →
                      report * client) (_client : client),
     NanoVectorDBStorage.upsert embedding_func meta_fields bs client_upsert
       data _client = (raise IndexError, _client))
  ∧ (length data ≤ length embeddings →
     ∃ list_data,
       NanoVectorDBStorage.upsert_payload embedding_func meta_fields bs data
       = ret list_data
       ∧ length list_data = length data
       ∧ ∀ i d, list_data !! i = Some d →
           ∃ e, embeddings !! i = Some e
                ∧ odict_get (py "__vector__") d = Some (DVector e)).
Proof.
  intros Hne He. split.
  - intros Hlen client report client_upsert _client.
    apply nano_upsert_raises; [done|].
    unfold NanoVectorDBStorage.upsert_payload. rewrite He. simpl.
    apply attach_vectors_short.
    unfold make_list_data. rewrite length_map. lia.
  - intros Hlen. unfold NanoVectorDBStorage.upsert_payload. rewrite He. simpl.
    destruct (attach_vectors_ok 0 (make_list_data (vec := vec) meta_fields data)
                embeddings) as (out & Hout & Hl & Hj).
    { unfold make_list_data. rewrite length_map. lia. }
    exists out. split; [done|].
    unfold make_list_data in Hl. rewrite length_map in Hl. split; [done|].
    intros i d Hd.
    destruct (lookup_lt_is_Some_2 (make_list_data (vec := vec) meta_fields data) i)
      as [d0 Hd0].
    { unfold make_list_data. rewrite length_map, <- Hl.
      by apply lookup_lt_Some in Hd. }
    destruct (Hj i d0 Hd0) as (e & Hei & Hoi). simpl in Hei.
    exists e. split; [done|]. rewrite Hoi in Hd. injection Hd as <-.
    apply odict_get_set_eq.
Qed.
End upsert_errors.

(** A call with a record that has no [content]. *)
Lemma upsert_without_content_raises_KeyError_witness :
  NanoVectorDBStorage.upsert examples.embed_len [] 2 examples.counting_upsert
    examples.records_no_content 0 = (raise KeyError, 0)
  ∧ ChromaDBStorage.upsert examples.embed_len [] 2
      examples.records_no_content examples.chroma_with_a
    = (raise KeyError, examples.chroma_with_a).
Proof.
  destruct (upsert_without_content_raises_KeyError examples.embed_len [] 2
              examples.records_no_content) as [Hn Hc].
  - exists (py "k2", [(py "entity_name", py "X")]). split; [|reflexivity].
    right. left.
  - split; [apply Hn|]. apply Hc. reflexivity.
Defined.

(** Batch sizes [0] and [-1]. *)
Lemma upsert_nonpositive_batch_size_raises_ValueError_witness :
  NanoVectorDBStorage.upsert examples.embed_len [] 0 examples.counting_upsert
    examples.records3 0 = (raise ValueError, 0)
  ∧ ChromaDBStorage.upsert examples.embed_len [] 0
      examples.records_ab examples.chroma_with_a
    = (raise ValueError, examples.chroma_with_a).
Proof.
  split.
  - refine (proj1 (upsert_nonpositive_batch_size_raises_ValueError
                     examples.embed_len [] 0 examples.records3 _ _ _)
              nat unit examples.counting_upsert 0).
    + done.
    + repeat constructor; by eexists.
    + lia.
  - refine (proj2 (upsert_nonpositive_batch_size_raises_ValueError
                     examples.embed_len [] 0 examples.records_ab _ _ _)
              examples.chroma_with_a _ _).
    + done.
    + repeat constructor; by eexists.
    + lia.
    + reflexivity.
    + by left.
Defined.

(** Three records and an embedding function that returns one row a
    batch: two rows in all. *)
Lemma upsert_assigns_rows_by_position_witness :
  NanoVectorDBStorage.upsert examples.embed_one_row [] 2
    examples.counting_upsert examples.records3 0 = (raise IndexError, 0).
Proof.
  refine (proj1 (upsert_assigns_rows_by_position examples.embed_one_row [] 2
                   examples.records3 [0; 0] _ _) _
            nat unit examples.counting_upsert 0).
  - done.
  - reflexivity.
  - simpl. lia.
Defined.

Section payload.
Context {F vec : Type}.
Implicit Types data : odict pystr (odict pystr F).

Lemma odict_get_map_values {A B} (g : A → B) (d : odict pystr A) k :
  odict_get k (map (fun kv => (kv.1, g kv.2)) d) = g <$> odict_get k d.
Proof.
  induction d as [|[k1 v1] d IH]; simpl; [done|].
  destruct (decide (k1 = k)); [done|apply IH].
Qed.

Lemma NoDup_filter_fst {A} (P : pystr * A → Prop) `{!∀ x, Decision (P x)}
    (d : odict pystr A) :
  NoDup d.*1 → NoDup (filter P d).*1.
Proof.
  intros Hnd. eapply sublist_NoDup; [exact Hnd|].
  apply fmap_sublist, sublist_filter.
Qed.

(** The fields of an entry of [list_data]. *)
Lemma list_data_entry_get (meta_fields : list pystr) (k : pystr)
    (v : odict pystr F) (k1 : pystr) :
  NoDup v.*1 →
  odict_get k1 (list_data_entry (vec := vec) meta_fields k v)
  = match (if decide (k1 ∈ meta_fields) then odict_get k1 v else None) with
    | Some f => Some (DField f)
    | None => if decide (k1 = py "__id__") then Some (DId k) else None
    end.
Proof.
  intros Hnd. unfold list_data_entry.
  rewrite odict_get_update.
  - rewrite (odict_get_map_values DField), odict_get_filter_fields.
    destruct (decide (k1 ∈ meta_fields)); simpl.
    + destruct (odict_get k1 v); simpl; [done|].
      destruct (decide (k1 = py "__id__")) as [->|Hne].
      * by rewrite decide_True.
      * by rewrite decide_False.
    + destruct (decide (k1 = py "__id__")) as [->|Hne].
      * by rewrite decide_True.
      * by rewrite decide_False.
  - assert (Hk : (map (fun kv : pystr * F => (kv.1, DField (vec := vec) kv.2))
                    (filter (fun kv => kv.1 ∈ meta_fields) v)).*1
                 = (filter (fun kv => kv.1 ∈ meta_fields) v).*1).
    { induction (filter _ v) as [|x l IH]; csimpl; [done|]. by rewrite IH. }
    rewrite Hk. by apply NoDup_filter_fst.
Qed.

(** X8.  What [NanoVectorDBStorage.upsert] hands to its client for the record
    at position [i]: the row [i] of the embeddings as [__vector__], and
    beside it the fields of the record that [meta_fields] names, and no
    others ([content] only when it is a meta field); the key of the record
    as [__id__], unless a meta field of that name takes its place. *)
Theorem upsert_payload_carries_meta_fields
    (embedding_func : list F → result (list vec)) (meta_fields : list pystr)
    (bs : Z) data (list_data : list (odict pystr (dval F vec))) :
  NanoVectorDBStorage.upsert_payload embedding_func meta_fields bs data
  = ret list_data →
  Forall (fun kv => NoDup kv.2.*1) data →
  length list_data = length data
  ∧ ∀ i k v, data !! i = Some (k, v) →
      ∃ d, list_data !! i = Some d
        ∧ is_Some (odict_get (py "__vector__") d)
        ∧ ∀ k1, k1 ≠ py "__vector__" →
            odict_get k1 d
            = match (if decide (k1 ∈ meta_fields) then odict_get k1 v
                     else None) with
              | Some f => Some (DField f)
              | None =>
                  if decide (k1 = py "__id__") then Some (DId k) else None
              end.
Proof.
  unfold NanoVectorDBStorage.upsert_payload. intros Hp Hnd.
  destruct (embed_contents embedding_func bs data) as [ex|embeddings] eqn:He;
    [done|]. simpl in Hp.
  assert (Hlen : length (make_list_data (vec := vec) meta_fields data)
                 = length data)
    by (unfold make_list_data; by rewrite length_map).
  destruct (decide (length embeddings < length data)) as [Hshort|Hlong].
  { rewrite attach_vectors_short in Hp by lia. done. }
  destruct (attach_vectors_ok 0 (make_list_data (vec := vec) meta_fields data)
              embeddings) as (out & Hout & Hl & Hj); [lia|].
  rewrite Hout in Hp. injection Hp as <-.
  split; [lia|]. intros i k v Hi.
  assert (Hd0 : make_list_data (vec := vec) meta_fields data !! i
                = Some (list_data_entry meta_fields k v)).
  { unfold make_list_data. by rewrite list_lookup_fmap, Hi. }
  destruct (Hj i _ Hd0) as (e & _ & Hoi).
  eexists. split; [exact Hoi|]. split.
  - rewrite odict_get_set_eq. by eexists.
  - intros k1 Hk1. rewrite odict_get_set_ne by done.
    apply list_data_entry_get.
    rewrite Forall_forall in Hnd. apply (Hnd (k, v)).
    by eapply list_elem_of_lookup_2.
Qed.
End payload.

(** A record with the fields [content], [entity_name] and [source_id],
    of which [entity_name] is a meta field. *)
Lemma upsert_payload_carries_meta_fields_witness :
  ∃ d,
    [[(py "__id__", DId (py "k1")); (py "entity_name", DField (py "X"));
      (py "__vector__", DVector 1)]] !! 0 = Some d
    ∧ odict_get (py "entity_name") d = Some (DField (py "X"))
    ∧ odict_get (py "content") d = None
    ∧ odict_get (py "source_id") d = None
    ∧ odict_get (py "__id__") d = Some (DId (py "k1")).
Proof.
  destruct (upsert_payload_carries_meta_fields examples.embed_len
              [py "entity_name"] 2 examples.records_meta
              [[(py "__id__", DId (py "k1"));
                (py "entity_name", DField (py "X"));
                (py "__vector__", DVector 1)]]) as [_ Hf].
  - reflexivity.
  - repeat constructor; vm_compute; intros H; inversion H; subst;
      repeat match goal with H : _ ∈ _ |- _ => inversion H; clear H; subst end.
  - destruct (Hf 0 (py "k1") _ eq_refl) as (d & Hd & _ & Hk).
    exists d. split; [exact Hd|].
    rewrite !Hk by (intros H; discriminate H). repeat split.
Defined.

Section nano_query.
Context {F vec client J threshold : Type}.
Variable embedding_func : list F → result (list vec).
Variable cosine_better_than_threshold : threshold.
Variable client_query : vec → Z → threshold → client → list (odict pystr J).



(** X9.  [query] embeds the one string [query] and asks the client with the
    first row.  It answers with the hits of the client, as many and in the
    same order; each hit keeps its keys and values and gets [id], its
    [__id__], and [distance], its [__metrics__].  It raises what the
    embedding function raises, [IndexError] when the embedding has no row,
    and [KeyError] when a hit has no [__id__] or no [__metrics__]. *)
Theorem NanoVectorDBStorage_query_answers (q : F) (top_k : Z)
    (_client : client) :
  (∀ e rest, embedding_func [q] = ret (e :: rest) →
     Forall (fun dp => is_Some (odict_get (py "__id__") dp)
                       ∧ is_Some (odict_get (py "__metrics__") dp))
       (client_query e top_k cosine_better_than_threshold _client) →
     ∃ out,
       NanoVectorDBStorage.query embedding_func cosine_better_than_threshold
         client_query q top_k _client = ret out
       ∧ length out
         = length (client_query e top_k cosine_better_than_threshold _client)
       ∧ ∀ i dp,
           client_query e top_k cosine_better_than_threshold _client !! i
           = Some dp →
           ∃ r, out !! i = Some r
             ∧ odict_get (py "id") r = odict_get (py "__id__") dp
             ∧ odict_get (py "distance") r = odict_get (py "__metrics__") dp
             ∧ ∀ k, k ≠ py "id" → k ≠ py "distance" →
                    odict_get k r = odict_get k dp)
  ∧ (∀ ex, embedding_func [q] = raise ex →
       NanoVectorDBStorage.query embedding_func cosine_better_than_threshold
         client_query q top_k _client = raise ex)
  ∧ (embedding_func [q] = ret [] →
     NanoVectorDBStorage.query embedding_func cosine_better_than_threshold
       client_query q top_k _client = raise IndexError)
  ∧ (∀ e rest dp, embedding_func [q] = ret (e :: rest) →
       dp ∈ client_query e top_k cosine_better_than_threshold _client →
       odict_get (py "__id__") dp = None
       ∨ odict_get (py "__metrics__") dp = None →
       NanoVectorDBStorage.query embedding_func cosine_better_than_threshold
         client_query q top_k _client = raise KeyError).
Proof.
  unfold NanoVectorDBStorage.query. split; [|split; [|split]].
  - intros e rest He Hhits. rewrite He. simpl.
    destruct (mapM_total NanoVectorDBStorage.query_result
                (client_query e top_k cosine_better_than_threshold _client))
      as (out & Hout & Hl & Hi).
    { eapply Forall_impl; [exact Hhits|]. intros dp [[i Hid] [m Hm]].
      unfold NanoVectorDBStorage.query_result. rewrite Hid, Hm. by eexists. }
    exists out. split; [done|]. split; [done|]. intros i dp Hdp.
    destruct (Hi i dp Hdp) as (r & Hr & Hq). exists r. split; [done|].
    unfold NanoVectorDBStorage.query_result in Hq.
    destruct (odict_get (py "__id__") dp) as [id|] eqn:Hid; [|done].
    destruct (odict_get (py "__metrics__") dp) as [m|] eqn:Hm; [|done].
    injection Hq as <-. split; [|split].
    + rewrite odict_get_set_ne by done. apply odict_get_set_eq.
    + apply odict_get_set_eq.
    + intros k Hk1 Hk2. by rewrite !odict_get_set_ne by done.
  - intros ex He. by rewrite He.
  - intros He. by rewrite He.
  - intros e rest dp He Hin Hmiss. rewrite He. simpl.
    apply (mapM_first_error _ _ dp); [done| |].
    + unfold NanoVectorDBStorage.query_result.
      destruct Hmiss as [-> | Hm]; [done|]. rewrite Hm.
      by destruct (odict_get (py "__id__") dp).
    + intros dp' ex'. unfold NanoVectorDBStorage.query_result.
      destruct (odict_get (py "__id__") dp'); [|by intros [= <-]].
      destruct (odict_get (py "__metrics__") dp'); [done|by intros [= <-]].
Qed.
End nano_query.

Section chroma_upsert.
Context {F vec : Type}.
Implicit Types data : odict pystr (odict pystr F).
Implicit Types c : gmap pystr (ChromaDBStorage.document F vec * vec).

Lemma chroma_upsert_steps (embedding_func : list F → result (list vec))
    meta_fields bs data (self : ChromaDBStorage.state F vec) :
  data ≠ [] → ChromaDBStorage.reachable self = true →
  ChromaDBStorage.upsert embedding_func meta_fields bs data self
  = match ChromaDBStorage.upsert_prepare embedding_func bs data
            (ChromaDBStorage.collection self) with
    | inl e => (raise e, self)
    | inr (inl ids) => (ret ids, self)
    | inr (inr (ids, contents, embeddings)) =>
        if bool_decide (0 < length meta_fields) then
          match ChromaDBStorage.upsert_each 0
                  (make_list_data (vec := vec) meta_fields data) ids embeddings
                  (ChromaDBStorage.collection self) with
          | (inl _, c') => (ret [], ChromaDBStorage.mk true c')
          | (inr _, c') => (ret ids, ChromaDBStorage.mk true c')
          end
        else
          match ChromaDBStorage.collection_upsert ids
                  (map ChromaDBStorage.DocContent contents) embeddings
                  (ChromaDBStorage.collection self) with
          | inl _ => (ret [], self)
          | inr c' => (ret ids, ChromaDBStorage.mk true c')
          end
    end.
Proof.
  intros Hne Hr. unfold ChromaDBStorage.upsert.
  rewrite bool_decide_eq_false_2 by (by destruct data).
  by rewrite Hr.
Qed.

(** X10.  When every id of the call is in the collection already,
    [ChromaDBStorage.upsert] returns the ids of the call and writes
    nothing: the stored documents and embeddings stay, whatever the
    records of the call hold now, and the embedding function is not
    consulted. *)
Theorem ChromaDBStorage_known_ids_are_not_rewritten
    (embedding_func : list F → result (list vec)) (meta_fields : list pystr)
    (bs : Z) data (self : ChromaDBStorage.state F vec) :
  data ≠ [] →
  ChromaDBStorage.reachable self = true →
  Forall (fun kv => is_Some (odict_get (py "content") kv.2)) data →
  bs ≠ 0%Z →
  (∀ id, id ∈ data.*1 →
         id ∈ ChromaDBStorage.existing_ids (ChromaDBStorage.collection self)) →
  ChromaDBStorage.upsert embedding_func meta_fields bs data self
  = (ret data.*1, self).
Proof.
  intros Hne Hr Hall Hbs Hknown.
  rewrite chroma_upsert_steps by done.
  destruct (make_contents_total data Hall) as [contents Hc].
  unfold ChromaDBStorage.upsert_prepare. rewrite Hc. simpl.
  assert (Hb : ∃ batches, make_batches bs contents = ret batches).
  { unfold make_batches, py_range0.
    rewrite bool_decide_eq_false_2 by done.
    destruct (bool_decide (bs < 0)%Z); by eexists. }
  destruct Hb as [batches ->]. simpl.
  rewrite bool_decide_eq_true_2; [done|].
  destruct (filter _ data.*1) as [|id l] eqn:Hf; [done|].
  assert (Hin : id ∈ filter
                  (fun id => id ∉ ChromaDBStorage.existing_ids
                                    (ChromaDBStorage.collection self))
                  data.*1) by (rewrite Hf; left).
  apply list_elem_of_filter in Hin as [Hnew Hin]. destruct Hnew. by apply Hknown.
Qed.

Lemma write_all_lookup_notin c (l : odict pystr (ChromaDBStorage.document F vec * vec)) k :
  k ∉ l.*1 → foldl (fun c idv => <[idv.1 := idv.2]> c) c l !! k = c !! k.
Proof.
  revert c. induction l as [|[k1 x1] l IH]; intros c Hk; simpl; [done|].
  csimpl in Hk. apply not_elem_of_cons in Hk as [Hne Hk].
  rewrite IH by done. by rewrite lookup_insert_ne.
Qed.

Lemma write_all_lookup_in c (l : odict pystr (ChromaDBStorage.document F vec * vec)) i k x :
  NoDup l.*1 → l !! i = Some (k, x) →
  foldl (fun c idv => <[idv.1 := idv.2]> c) c l !! k = Some x.
Proof.
  revert c i. induction l as [|[k1 x1] l IH]; intros c i Hnd Hi; [done|].
  csimpl in Hnd. apply NoDup_cons in Hnd as [Hk1 Hnd]. simpl.
  destruct i as [|i]; simpl in Hi.
  - injection Hi as -> ->. rewrite write_all_lookup_notin by done.
    apply lookup_insert_eq.
  - by apply (IH _ i).
Qed.

Lemma zip_nil_r {A B} (l : list A) : zip l ([] : list B) = [].
Proof. by destruct l. Qed.

Lemma upsert_each_ok (list_data : list (odict pystr (dval F vec))) i
    (ids : list pystr) (embeddings : list vec) c :
  i + length list_data ≤ length ids →
  i + length list_data ≤ length embeddings →
  ChromaDBStorage.upsert_each i list_data ids embeddings c
  = (ret tt,
     foldl (fun c idv => <[idv.1 := idv.2]> c) c
       (zip (drop i ids)
          (zip (map (fun d => ChromaDBStorage.DocJson
                                (ChromaDBStorage.pop_id d)) list_data)
             (drop i embeddings)))).
Proof.
  revert i c. induction list_data as [|d ds IH]; intros i c Hi He; simpl.
  - by rewrite zip_nil_r.
  - simpl in Hi, He.
    destruct (lookup_lt_is_Some_2 ids i) as [id Hid]; [lia|].
    destruct (lookup_lt_is_Some_2 embeddings i) as [emb Hemb]; [lia|].
    rewrite Hid. unfold row. rewrite Hemb. simpl.
    rewrite IH by lia.
    rewrite (drop_S ids id i Hid), (drop_S embeddings emb i Hemb). done.
Qed.

(** X11.  When no id of the call is in the collection yet, and the embedding
    function embeds every string of a batch by [e],
    [ChromaDBStorage.upsert] returns the ids of the call and stores every
    record under its id with the embedding of its own content; the
    document is the content when [meta_fields] is empty, else the meta
    fields of the record.  What the collection held stays. *)
Theorem ChromaDBStorage_fresh_ids_are_stored (e : F → vec)
    (embedding_func : list F → result (list vec)) (meta_fields : list pystr)
    (bs : Z) data (self : ChromaDBStorage.state F vec) :
  (0 < bs)%Z → data ≠ [] → NoDup data.*1 →
  ChromaDBStorage.reachable self = true →
  (∀ batch, embedding_func batch = ret (map e batch)) →
  Forall (fun kv => is_Some (odict_get (py "content") kv.2)) data →
  (∀ id, id ∈ data.*1 →
         id ∉ ChromaDBStorage.existing_ids (ChromaDBStorage.collection self)) →
  ∃ self',
    ChromaDBStorage.upsert embedding_func meta_fields bs data self
    = (ret data.*1, self')
    ∧ ChromaDBStorage.reachable self' = true
    ∧ (∀ i k v, data !! i = Some (k, v) →
         ∃ content, odict_get (py "content") v = Some content
           ∧ ChromaDBStorage.collection self' !! k
             = Some (if bool_decide (0 < length meta_fields)
                     then ChromaDBStorage.DocJson
                            (ChromaDBStorage.pop_id
                               (list_data_entry meta_fields k v))
                     else ChromaDBStorage.DocContent content,
                     e content))
    ∧ (∀ k, k ∉ data.*1 →
         ChromaDBStorage.collection self' !! k
         = ChromaDBStorage.collection self !! k).
Proof.
  intros Hbs Hne Hnd Hr He Hall Hnew.
  rewrite chroma_upsert_steps by done.
  destruct (make_contents_total data Hall) as [contents Hc].
  pose proof (proj1 (make_contents_Forall2 data contents) Hc) as Hf2.
  pose proof (Forall2_length _ _ _ Hf2) as Hlen.
  assert (Hprep : ChromaDBStorage.upsert_prepare embedding_func bs data
                    (ChromaDBStorage.collection self)
                  = ret (inr (data.*1, contents, map e contents))).
  { unfold ChromaDBStorage.upsert_prepare. rewrite Hc. simpl.
    rewrite make_batches_ok by done. simpl.
    rewrite (filter_all _ data.*1) by done.
    rewrite bool_decide_eq_false_2
      by (rewrite length_fmap; by destruct data).
    pose proof (embed_contents_ok e embedding_func bs data contents
                  Hbs Hne He Hc) as Hemb.
    unfold embed_contents in Hemb. rewrite Hc in Hemb. simpl in Hemb.
    rewrite make_batches_ok in Hemb by done. simpl in Hemb.
    destruct (gather_embeddings embedding_func _) as [ex|el]; [done|].
    simpl in *. by rewrite Hemb. }
  rewrite Hprep. unfold ret at 1. cbv beta iota.
  set (docs := if bool_decide (0 < length meta_fields)
               then map (fun d => ChromaDBStorage.DocJson
                                    (ChromaDBStorage.pop_id d))
                      (make_list_data (vec := vec) meta_fields data)
               else map ChromaDBStorage.DocContent contents).
  set (l := zip data.*1 (zip docs (map e contents))).
  assert (Hdl : length docs = length data).
  { unfold docs, make_list_data. destruct (bool_decide _);
      rewrite !length_map; lia. }
  assert (Hl1 : l.*1 = data.*1).
  { unfold l. apply fst_zip. rewrite length_zip, length_fmap, length_map. lia. }
  exists (ChromaDBStorage.mk true
            (foldl (fun c idv => <[idv.1 := idv.2]> c)
               (ChromaDBStorage.collection self) l)).
  split; [|split; [done|split]].
  - unfold l, docs. destruct (bool_decide (0 < length meta_fields)).
    + rewrite upsert_each_ok.
      * by rewrite !drop_0.
      * unfold make_list_data. rewrite length_map, length_fmap. simpl. lia.
      * unfold make_list_data. rewrite !length_map. simpl. lia.
    + unfold ChromaDBStorage.collection_upsert.
      rewrite bool_decide_eq_true_2; [done|].
      rewrite length_fmap, !length_map. lia.
  - intros i k v Hi. simpl.
    destruct (Forall2_lookup_l _ _ _ i (k, v) Hf2 Hi) as (content & Hci & Hcv).
    simpl in Hcv. exists content. split; [done|].
    apply (write_all_lookup_in _ l i); [by rewrite Hl1|].
    assert (H1 : data.*1 !! i = Some k) by (by rewrite list_lookup_fmap, Hi).
    assert (H2 : map e contents !! i = Some (e content))
      by (by rewrite list_lookup_fmap, Hci).
    assert (H3 : docs !! i
                 = Some (if bool_decide (0 < length meta_fields)
                         then ChromaDBStorage.DocJson
                                (ChromaDBStorage.pop_id
                                   (list_data_entry meta_fields k v))
                         else ChromaDBStorage.DocContent content)).
    { unfold docs. destruct (bool_decide (0 < length meta_fields)).
      - unfold make_list_data. by rewrite !list_lookup_fmap, Hi.
      - by rewrite list_lookup_fmap, Hci. }
    unfold l. rewrite !lookup_zip_with, H1, H2, H3. done.
  - intros k Hk. simpl. apply write_all_lookup_notin. by rewrite Hl1.
Qed.
End chroma_upsert.

(** The collection holds ["a"]; the call brings ["a"] again, with another
    content. *)
Lemma ChromaDBStorage_known_ids_are_not_rewritten_witness :
  ChromaDBStorage.upsert examples.embed_len [] 2
    [(py "a", [(py "content", py "changed")])] examples.chroma_with_a
  = (ret [(py "a", [(py "content", py "changed")])].*1,
     examples.chroma_with_a).
Proof.
  apply ChromaDBStorage_known_ids_are_not_rewritten.
  - done.
  - reflexivity.
  - repeat constructor; by eexists.
  - done.
  - intros id Hid. apply list_elem_of_singleton in Hid as ->.
    vm_compute. left.
Defined.

(** The collection holds ["a"]; the call brings ["k1"], ["k2"] and
    ["k3"]. *)
Lemma ChromaDBStorage_fresh_ids_are_stored_witness :
  ∃ self',
    ChromaDBStorage.upsert examples.embed_len [] 2 examples.records3
      examples.chroma_with_a = (ret examples.records3.*1, self')
    ∧ ChromaDBStorage.collection self' !! py "k3"
      = Some (ChromaDBStorage.DocContent (py "ccc"), 3)
    ∧ ChromaDBStorage.collection self' !! py "a"
      = Some (ChromaDBStorage.DocContent (py "x"), 1).
Proof.
  destruct (ChromaDBStorage_fresh_ids_are_stored length examples.embed_len []
              2 examples.records3 examples.chroma_with_a)
    as (self' & Hu & _ & Hs & Ho).
  - lia.
  - done.
  - apply (bool_decide_unpack _). vm_compute. exact I.
  - reflexivity.
  - done.
  - repeat constructor; by eexists.
  - intros id Hid. apply (bool_decide_unpack _).
    repeat (apply elem_of_cons in Hid as [->|Hid]); [vm_compute; exact I..|].
    by apply elem_of_nil in Hid.
  - exists self'. split; [exact Hu|]. split.
    + destruct (Hs 2 (py "k3") [(py "content", py "ccc")] eq_refl)
        as (content & Hc & Hk). vm_compute in Hc. injection Hc as <-.
      exact Hk.
    + rewrite Ho; [reflexivity|].
      apply (bool_decide_unpack _). vm_compute. exact I.
Defined.

(** * Further properties of the graph store *)

Section graph_upserts.
Implicit Types G : nx.Graph.

(** X12.  [upsert_node] and [get_node].  With properties named neither
    [self] nor [node_for_adding] the call returns, and the node has
    afterwards the properties it had, updated by those of the call, a
    property of the call winning over one of the same name; the other
    nodes and all edges are as they were.  With a property of one of these
    names the call raises [TypeError]. *)
Theorem upsert_node_then_get_node (n : pystr) (node_data : attrs) G :
  wf G → NoDup node_data.*1 →
  ((∀ k, k ∈ [py "self"; py "node_for_adding"] → k ∉ node_data.*1) →
   ∃ G', NetworkXStorage.upsert_node n node_data G = ret G'
     ∧ (∃ props,
          NetworkXStorage.get_node n G' = Some props
          ∧ ∀ k, odict_get k props
                 = match odict_get k node_data with
                   | Some v => Some v
                   | None =>
                       odict_get k (default [] (NetworkXStorage.get_node n G))
                   end)
     ∧ (∀ m, m ≠ n →
          NetworkXStorage.get_node m G' = NetworkXStorage.get_node m G)
     ∧ (∀ m, NetworkXStorage.has_node m G' = true
             ↔ m = n ∨ NetworkXStorage.has_node m G = true)
     ∧ (∀ u v, NetworkXStorage.get_edge u v G'
               = NetworkXStorage.get_edge u v G))
  ∧ ((∃ k, k ∈ [py "self"; py "node_for_adding"] ∧ k ∈ node_data.*1) →
     NetworkXStorage.upsert_node n node_data G = raise TypeError).
Proof.
  intros Hwf Hnd. split.
  - intros Hfree. exists (nx.add_node n node_data G).
    split; [by apply upsert_node_accepted, keyword_clash_false|].
    unfold NetworkXStorage.get_node, NetworkXStorage.has_node,
      NetworkXStorage.get_edge.
    split; [|split; [|split]].
    + eexists. rewrite add_node_get_node, decide_True by done.
      split; [done|]. intros k. by apply odict_get_update.
    + intros m Hm. by rewrite add_node_get_node, decide_False.
    + intros m. rewrite !has_node_true, add_node_nodes. apply new_node_elem.
    + intros u v. by apply add_node_get_edge.
  - intros Hk. by apply upsert_node_refused, keyword_clash_true.
Qed.

(** X13.  [upsert_edge] and [get_edge].  With properties named neither
    [self], [u_of_edge] nor [v_of_edge] the call returns, and the edge has
    afterwards the properties it had, updated by those of the call; in a
    [Graph] it is read the same from either end; every other edge is as it
    was.  With a property of one of these names the call raises
    [TypeError]. *)
Theorem upsert_edge_then_get_edge (a b : pystr) (edge_data : attrs) G :
  wf G → NoDup edge_data.*1 →
  ((∀ k, k ∈ [py "self"; py "u_of_edge"; py "v_of_edge"] →
         k ∉ edge_data.*1) →
   ∃ G', NetworkXStorage.upsert_edge a b edge_data G = ret G'
     ∧ (∃ props,
          NetworkXStorage.get_edge a b G' = Some props
          ∧ (nx.is_directed G = false →
             NetworkXStorage.get_edge b a G' = Some props)
          ∧ ∀ k, odict_get k props
                 = match odict_get k edge_data with
                   | Some v => Some v
                   | None =>
                       odict_get k
                         (default [] (NetworkXStorage.get_edge a b G))
                   end)
     ∧ (∀ x y, ¬ (x = a ∧ y = b) →
          ¬ (nx.is_directed G = false ∧ x = b ∧ y = a) →
          NetworkXStorage.get_edge x y G' = NetworkXStorage.get_edge x y G)
     ∧ (∀ m, NetworkXStorage.has_node m G' = true
             ↔ m = a ∨ m = b ∨ NetworkXStorage.has_node m G = true))
  ∧ ((∃ k, k ∈ [py "self"; py "u_of_edge"; py "v_of_edge"]
           ∧ k ∈ edge_data.*1) →
     NetworkXStorage.upsert_edge a b edge_data G = raise TypeError).
Proof.
  intros Hwf Hnd. split.
  - intros Hfree. exists (nx.add_edge a b edge_data G).
    split; [by apply upsert_edge_accepted, keyword_clash_false|].
    unfold NetworkXStorage.get_edge, NetworkXStorage.has_node,
      nx.is_directed.
    split; [|split].
    + eexists. rewrite add_edge_get_edge, decide_True by (done || by left).
      split; [done|]. split.
      * intros Hd. rewrite add_edge_get_edge by done.
        by rewrite decide_True by (by right).
      * intros k. by apply odict_get_update.
    + intros x y H1 H2. rewrite add_edge_get_edge by done.
      by rewrite decide_False by tauto.
    + intros m. rewrite !has_node_true, add_edge_nodes, !new_node_elem.
      tauto.
  - intros Hk. by apply upsert_edge_refused, keyword_clash_true.
Qed.
End graph_upserts.

(** On the empty graph. *)
Lemma upsert_node_then_get_node_witness :
  ∃ G', NetworkXStorage.upsert_node (py "A") [(py "id", py "A")]
          (nx.empty false) = ret G'
    ∧ (∃ props,
         NetworkXStorage.get_node (py "A") G' = Some props
         ∧ ∀ k, odict_get k props
                = match odict_get k [(py "id", py "A")] with
                  | Some v => Some v
                  | None =>
                      odict_get k
                        (default [] (NetworkXStorage.get_node (py "A")
                                       (nx.empty false)))
                  end)
    ∧ (∀ m, m ≠ py "A" →
         NetworkXStorage.get_node m G'
         = NetworkXStorage.get_node m (nx.empty false))
    ∧ (∀ m, NetworkXStorage.has_node m G' = true
            ↔ m = py "A" ∨ NetworkXStorage.has_node m (nx.empty false) = true)
    ∧ (∀ u v, NetworkXStorage.get_edge u v G'
              = NetworkXStorage.get_edge u v (nx.empty false)).
Proof.
  refine (proj1 (upsert_node_then_get_node (py "A") [(py "id", py "A")]
                   (nx.empty false) _ _) _).
  - apply wf_empty.
  - apply NoDup_singleton.
  - apply keyword_clash_false. vm_compute. reflexivity.
Defined.

Lemma upsert_edge_then_get_edge_witness :
  ∃ G' props,
    NetworkXStorage.upsert_edge (py "A") (py "B") [(py "weight", py "1")]
      (nx.empty false) = ret G'
    ∧ NetworkXStorage.get_edge (py "A") (py "B") G' = Some props
    ∧ NetworkXStorage.get_edge (py "B") (py "A") G' = Some props
    ∧ odict_get (py "weight") props = Some (py "1").
Proof.
  destruct (upsert_edge_then_get_edge (py "A") (py "B")
              [(py "weight", py "1")] (nx.empty false))
    as [Hok _].
  - apply wf_empty.
  - apply NoDup_singleton.
  - destruct Hok as (G' & HG' & (props & Hab & Hba & Hk) & _).
    + apply keyword_clash_false. vm_compute. reflexivity.
    + exists G', props. split; [exact HG'|]. split; [exact Hab|].
      split; [by apply Hba|]. by rewrite Hk.
Defined.

Section histories.
Implicit Types G : nx.Graph.
Implicit Types cs : list graph_update.

Lemma apply_update_directed G c :
  nx.directed (apply_update G c) = nx.directed G.
Proof.
  destruct (accepted c) eqn:Hc.
  - rewrite apply_update_accepted by done. destruct c as [n d|u v d].
    + exact (add_node_directed n d G).
    + exact (add_edge_directed u v d G).
  - by rewrite (proj1 (apply_update_refused G c Hc)).
Qed.

Lemma apply_update_nodes G c m :
  m ∈ nx.nodes (apply_update G c)
  ↔ (accepted c = true ∧ m ∈ update_ids c) ∨ m ∈ nx.nodes G.
Proof.
  destruct (accepted c) eqn:Hc.
  - rewrite apply_update_accepted by done. destruct c as [n d|u v d]; simpl.
    + rewrite add_node_nodes, new_node_elem, list_elem_of_singleton. tauto.
    + rewrite add_edge_nodes, !new_node_elem, !elem_of_cons, elem_of_nil.
      tauto.
  - rewrite (proj1 (apply_update_refused G c Hc)). naive_solver.
Qed.

Lemma apply_update_has_edge G c x y :
  wf G →
  is_Some (nx.get_edge x y (apply_update G c))
  ↔ is_Some (nx.get_edge x y G)
    ∨ ∃ u v d, c = UpsertEdge u v d ∧ accepted c = true
               ∧ ((x = u ∧ y = v) ∨ (nx.directed G = false ∧ x = v ∧ y = u)).
Proof.
  intros Hwf. destruct (accepted c) eqn:Hc.
  - rewrite apply_update_accepted by done. destruct c as [n d|u v d].
    + rewrite add_node_get_edge by done.
      split; [by left|]. intros [?|(? & ? & ? & ? & _)]; done.
    + rewrite add_edge_get_edge by done.
      destruct (decide _) as [Hd|Hd].
      * split; [|by eexists]. intros _. right. by exists u, v, d.
      * split; [by left|].
        intros [?|(u' & v' & d' & [= -> -> ->] & _ & ?)]; done.
  - rewrite (proj1 (apply_update_refused G c Hc)).
    split; [by left|]. intros [?|(? & ? & ? & _ & ? & _)]; done.
Qed.

Lemma apply_updates_directed cs G :
  nx.directed (apply_updates cs G) = nx.directed G.
Proof.
  unfold apply_updates. revert G.
  induction cs as [|c cs IH]; intros G; simpl; [done|].
  by rewrite IH, apply_update_directed.
Qed.

Lemma apply_updates_nodes cs G m :
  m ∈ nx.nodes (apply_updates cs G)
  ↔ m ∈ nx.nodes G ∨ ∃ c, c ∈ cs ∧ accepted c = true ∧ m ∈ update_ids c.
Proof.
  unfold apply_updates. revert G.
  induction cs as [|c cs IH]; intros G; simpl.
  - split; [by left|]. intros [?|(c & ?%elem_of_nil & _)]; done.
  - rewrite IH, apply_update_nodes. split.
    + intros [[[Hc Hm]|HG]|(c' & Hin & Hc' & Hm)].
      * right. exists c. split; [left|done].
      * by left.
      * right. exists c'. split; [by right|done].
    + intros [HG|(c' & Hin & Hc' & Hm)]; [left; by right|].
      apply elem_of_cons in Hin as [->|Hin]; [left; by left|].
      right. by exists c'.
Qed.

Lemma apply_updates_has_edge cs G x y :
  wf G →
  is_Some (nx.get_edge x y (apply_updates cs G))
  ↔ is_Some (nx.get_edge x y G)
    ∨ ∃ u v d, UpsertEdge u v d ∈ cs ∧ accepted (UpsertEdge u v d) = true
               ∧ ((x = u ∧ y = v) ∨ (nx.directed G = false ∧ x = v ∧ y = u)).
Proof.
  unfold apply_updates. revert G.
  induction cs as [|c cs IH]; intros G Hwf; simpl.
  - split; [by left|]. intros [?|(u & v & d & ?%elem_of_nil & _)]; done.
  - rewrite IH by (by apply apply_update_wf).
    rewrite apply_update_has_edge, apply_update_directed by done. split.
    + intros [[HG|(u & v & d & -> & Ha & Hc)]|(u & v & d & Hin & Ha & Hc)].
      * by left.
      * right. exists u, v, d. split; [left|done].
      * right. exists u, v, d. split; [by right|done].
    + intros [HG|(u & v & d & Hin & Ha & Hc)]; [left; by left|].
      apply elem_of_cons in Hin as [<-|Hin].
      * left. right. by exists u, v, d.
      * right. by exists u, v, d.
Qed.

(** X14.  Whatever calls of [upsert_node] and [upsert_edge] were made on a new
    [nx.Graph()], the graph is undirected, an edge is read the same from
    either end, and the endpoints of every edge are nodes. *)
Theorem upserts_keep_the_graph_consistent cs (u v : pystr) :
  nx.is_directed (apply_updates cs (nx.empty false)) = false
  ∧ NetworkXStorage.get_edge u v (apply_updates cs (nx.empty false))
    = NetworkXStorage.get_edge v u (apply_updates cs (nx.empty false))
  ∧ NetworkXStorage.has_edge u v (apply_updates cs (nx.empty false))
    = NetworkXStorage.has_edge v u (apply_updates cs (nx.empty false))
  ∧ (NetworkXStorage.has_edge u v (apply_updates cs (nx.empty false)) = true →
     NetworkXStorage.has_node u (apply_updates cs (nx.empty false)) = true
     ∧ NetworkXStorage.has_node v (apply_updates cs (nx.empty false)) = true)
  ∧ (∀ n props,
       NetworkXStorage.get_node n (apply_updates cs (nx.empty false))
       = Some props → NoDup props.*1).
Proof.
  pose proof (apply_updates_wf cs (nx.empty false) (wf_empty false)) as Hwf.
  pose proof (apply_updates_directed cs (nx.empty false)) as Hd. simpl in Hd.
  set (G := apply_updates cs (nx.empty false)) in *.
  pose proof (proj1 (wf_undirected G Hwf Hd)) as Hsym.
  unfold NetworkXStorage.get_edge, NetworkXStorage.has_edge,
    NetworkXStorage.has_node, NetworkXStorage.get_node, nx.has_edge,
    nx.is_directed.
  split; [done|]. split; [by rewrite Hsym|]. split; [by rewrite Hsym|]. split.
  - intros He. apply bool_decide_eq_true in He as [d Hg].
    apply get_edge_nodes in Hg as [? ?]; [|done].
    by rewrite !has_node_true.
  - intros n props. apply (wf_node_attrs G Hwf).
Qed.

(** X15.  The nodes of the graph are the ids that were upserted as a node or
    named as an endpoint of an upserted edge, and its edges are the pairs
    that were upserted as an edge, in either order, counting the calls
    that returned: nothing is lost and nothing else appears.  A call
    returns when its properties name no parameter of the networkx
    method. *)
Theorem graph_holds_what_was_upserted cs (n u v : pystr) :
  (NetworkXStorage.has_node n (apply_updates cs (nx.empty false)) = true
   ↔ ∃ c, c ∈ cs ∧ accepted c = true ∧ n ∈ update_ids c)
  ∧ (NetworkXStorage.has_edge u v (apply_updates cs (nx.empty false)) = true
     ↔ ∃ d, accepted (UpsertEdge u v d) = true
            ∧ (UpsertEdge u v d ∈ cs ∨ UpsertEdge v u d ∈ cs))
  ∧ (∀ c G, accepted c = true ↔ ∃ G', run_update c G = ret G')
  ∧ (∀ c G, accepted c = false
            ↔ run_update c G = raise TypeError ∧ apply_update G c = G).
Proof.
  unfold NetworkXStorage.has_node, NetworkXStorage.has_edge, nx.has_edge.
  split; [|split; [|split]].
  - rewrite has_node_true, apply_updates_nodes. simpl. rewrite elem_of_nil.
    tauto.
  - rewrite bool_decide_eq_true, apply_updates_has_edge by apply wf_empty.
    simpl. split.
    + intros [[? ?]|(a & b & d & Hin & Ha & [[-> ->]|(_ & -> & ->)])];
        [done|..]; exists d; tauto.
    + intros (d & Ha & [Hin|Hin]); right.
      * exists u, v, d. tauto.
      * exists v, u, d. tauto.
  - intros c G. destruct (accepted c) eqn:Hc.
    + split; [intros _|done]. unfold run_update.
      destruct c as [m d|a b d]; apply negb_true_iff in Hc.
      * rewrite upsert_node_accepted by done. by eexists.
      * rewrite upsert_edge_accepted by done. by eexists.
    + split; [done|]. intros [G' HG'].
      rewrite (proj2 (apply_update_refused G c Hc)) in HG'. done.
  - intros c G. destruct (accepted c) eqn:Hc.
    + split; [done|]. intros [Hr _]. unfold run_update in Hr.
      destruct c as [m d|a b d]; apply negb_true_iff in Hc.
      * rewrite upsert_node_accepted in Hr by done. done.
      * rewrite upsert_edge_accepted in Hr by done. done.
    + split; [intros _|done]. destruct (apply_update_refused G c Hc). done.
Qed.
End histories.

Section incident_edges.
Implicit Types G : nx.Graph.

Lemma adj_mem_has_node G n : wf G → odict_mem n (nx._adj G) = nx.has_node n G.
Proof.
  intros Hwf. unfold nx.has_node, odict_mem.
  by rewrite (wf_adj_keys G Hwf).
Qed.

Lemma edges_of_nbr_keys G n :
  nx.edges_of n G = map (pair n) (nbr_keys (nx._adj G) n).
Proof.
  unfold nx.edges_of, nbr_keys.
  induction (default [] (odict_get n (nx._adj G))) as [|x l IH]; csimpl;
    [done|]. by rewrite IH.
Qed.

Lemma nbr_keys_NoDup G n : wf G → NoDup (nbr_keys (nx._adj G) n).
Proof.
  intros Hwf. unfold nbr_keys.
  destruct (odict_get n (nx._adj G)) as [nbrs|] eqn:Hn; simpl.
  - exact (wf_adj_inner G Hwf n nbrs Hn).
  - constructor.
Qed.

(** X16.  [get_node_edges] gives [None] for an id that is no node; for a node,
    the list of its edges, each once and each told from that node: [(n, v)]
    is in the list exactly when [has_edge(n, v)].  A node without edges
    has the empty list. *)
Theorem get_node_edges_lists_the_edges_of_a_node (n : pystr) G :
  wf G →
  (NetworkXStorage.has_node n G = false →
   NetworkXStorage.get_node_edges n G = None)
  ∧ (NetworkXStorage.has_node n G = true →
     ∃ l, NetworkXStorage.get_node_edges n G = Some l
       ∧ NoDup l
       ∧ (∀ u v, (u, v) ∈ l
                 ↔ u = n ∧ NetworkXStorage.has_edge n v G = true)
       ∧ (l = [] ↔ ∀ v, NetworkXStorage.has_edge n v G = false)).
Proof.
  intros Hwf.
  unfold NetworkXStorage.has_node, NetworkXStorage.get_node_edges,
    NetworkXStorage.has_edge, nx.has_edge.
  split; [by intros ->|]. intros ->. eexists. split; [done|].
  rewrite edges_of_nbr_keys.
  assert (Hel : ∀ u v, (u, v) ∈ map (pair n) (nbr_keys (nx._adj G) n)
            ↔ u = n ∧ bool_decide (is_Some (nx.get_edge n v G)) = true).
  { intros u v. rewrite list_elem_of_fmap, bool_decide_eq_true. split.
    - intros (v' & [= -> ->] & Hv). split; [done|]. by apply nbr_keys_elem.
    - intros [-> Hv]. exists v. split; [done|]. by apply nbr_keys_elem. }
  split; [|split; [done|]].
  - apply NoDup_fmap_2_strong; [|by apply nbr_keys_NoDup].
    by intros x y _ _ [= ->].
  - split.
    + intros Hnil v. apply bool_decide_eq_false. intros Hv.
      assert (Hin : (n, v) ∈ map (pair n) (nbr_keys (nx._adj G) n)).
      { apply Hel. split; [done|]. by apply bool_decide_eq_true. }
      rewrite Hnil in Hin. by apply elem_of_nil in Hin.
    + intros Hno.
      destruct (map (pair n) (nbr_keys (nx._adj G) n)) as [|[u v] l];
        [done|].
      destruct (proj1 (Hel u v)) as [_ Hv]; [left|]. by rewrite Hno in Hv.
Qed.

(** X17.  [node_degree] of a node of a [Graph] is the number of its edges as
    [get_node_edges] lists them, a self-loop counted twice. *)
Theorem node_degree_counts_the_edges_of_a_node (n : pystr) G :
  wf G → nx.is_directed G = false →
  NetworkXStorage.has_node n G = true →
  ∃ l, NetworkXStorage.get_node_edges n G = Some l
    ∧ NetworkXStorage.node_degree n G
      = nx.Degree (length l
                   + (if NetworkXStorage.has_edge n n G then 1 else 0)).
Proof.
  intros Hwf Hd Hn.
  unfold NetworkXStorage.has_node, NetworkXStorage.get_node_edges,
    NetworkXStorage.node_degree, NetworkXStorage.has_edge, nx.degree,
    nx.is_directed in *.
  rewrite Hn, adj_mem_has_node, Hn by done. eexists. split; [done|].
  assert (Hlen : length (nx.edges_of n G) = length (nbr_keys (nx._adj G) n))
    by (rewrite edges_of_nbr_keys; apply length_map).
  rewrite Hlen. unfold nx.degree_of. rewrite Hd.
  fold (nbr_keys (nx._adj G) n). f_equal. f_equal.
  unfold nx.has_edge.
  destruct (decide (n ∈ nbr_keys (nx._adj G) n)) as [Hin|Hout].
  - by rewrite bool_decide_eq_true_2 by (by apply nbr_keys_elem).
  - by rewrite bool_decide_eq_false_2 by (by rewrite <- nbr_keys_elem).
Qed.

(** X18.  [edge_degree] is the sum of the two degrees when both ids are nodes.
    For an id that is no node [G.degree] gives a view, not a number, and
    [edge_degree] raises [TypeError]. *)
Theorem edge_degree_needs_both_nodes (src_id tgt_id : pystr) G :
  wf G →
  (NetworkXStorage.has_node src_id G = true →
   NetworkXStorage.has_node tgt_id G = true →
   NetworkXStorage.node_degree src_id G = nx.Degree (nx.degree_of src_id G)
   ∧ NetworkXStorage.node_degree tgt_id G = nx.Degree (nx.degree_of tgt_id G)
   ∧ NetworkXStorage.edge_degree src_id tgt_id G
     = ret (nx.degree_of src_id G + nx.degree_of tgt_id G))
  ∧ (NetworkXStorage.has_node src_id G = false
     ∨ NetworkXStorage.has_node tgt_id G = false →
     NetworkXStorage.edge_degree src_id tgt_id G = raise TypeError)
  ∧ (NetworkXStorage.has_node src_id G = false →
     ∃ nbunch, NetworkXStorage.node_degree src_id G = nx.DegreeView nbunch).
Proof.
  intros Hwf.
  unfold NetworkXStorage.has_node, NetworkXStorage.node_degree,
    NetworkXStorage.edge_degree, nx.degree.
  rewrite !adj_mem_has_node by done.
  split; [|split].
  - intros -> ->. done.
  - intros [-> | ->]; [done|]. by destruct (nx.has_node src_id G).
  - intros ->. by eexists.
Qed.
End incident_edges.

(** The edge [A - B]: [A] has the one edge [(A, B)] and degree 1; [C] is
    no node. *)
Lemma get_node_edges_lists_the_edges_of_a_node_witness :
  NetworkXStorage.get_node_edges (py "C")
    (apply_updates [UpsertEdge (py "A") (py "B") []] (nx.empty false)) = None.
Proof.
  refine (proj1 (get_node_edges_lists_the_edges_of_a_node (py "C")
                   (apply_updates [UpsertEdge (py "A") (py "B") []]
                      (nx.empty false)) _) _).
  - apply apply_updates_wf, wf_empty.
  - reflexivity.
Defined.

Lemma node_degree_counts_the_edges_of_a_node_witness :
  ∃ l, NetworkXStorage.get_node_edges (py "A")
         (apply_updates [UpsertEdge (py "A") (py "B") []] (nx.empty false))
       = Some l
    ∧ NetworkXStorage.node_degree (py "A")
        (apply_updates [UpsertEdge (py "A") (py "B") []] (nx.empty false))
      = nx.Degree
          (length l
           + (if NetworkXStorage.has_edge (py "A") (py "A")
                   (apply_updates [UpsertEdge (py "A") (py "B") []]
                      (nx.empty false))
              then 1 else 0)).
Proof.
  apply node_degree_counts_the_edges_of_a_node.
  - apply apply_updates_wf, wf_empty.
  - reflexivity.
  - reflexivity.
Defined.

Lemma edge_degree_needs_both_nodes_witness :
  NetworkXStorage.edge_degree (py "A") (py "C")
    (apply_updates [UpsertEdge (py "A") (py "B") []] (nx.empty false))
  = raise TypeError.
Proof.
  refine (proj1 (proj2 (edge_degree_needs_both_nodes (py "A") (py "C")
                          (apply_updates [UpsertEdge (py "A") (py "B") []]
                             (nx.empty false)) _)) _).
  - apply apply_updates_wf, wf_empty.
  - right. reflexivity.
Defined.

Section degrees_and_upserts.
Implicit Types G : nx.Graph.

Lemma degree_of_undirected G x :
  nx.directed G = false →
  nx.degree_of x G
  = length (nbr_keys (nx._adj G) x)
    + (if decide (x ∈ nbr_keys (nx._adj G) x) then 1 else 0).
Proof. intros Hd. unfold nx.degree_of, nbr_keys. by rewrite Hd. Qed.

Lemma degree_set_add (v x : pystr) (l : list pystr) :
  length (set_add v l) + (if decide (x ∈ set_add v l) then 1 else 0)
  = length l + (if decide (x ∈ l) then 1 else 0)
    + (if decide (v ∈ l) then 0
       else 1 + (if decide (x = v) then 1 else 0)).
Proof.
  unfold set_add. destruct (decide (v ∈ l)) as [Hv|Hv]; [lia|].
  rewrite length_app. simpl.
  destruct (decide (x = v)) as [->|Hne].
  - rewrite decide_True by (apply elem_of_app; right; left).
    rewrite decide_False by done. lia.
  - destruct (decide (x ∈ l)) as [Hx|Hx].
    + rewrite decide_True by (apply elem_of_app; by left). lia.
    + rewrite decide_False; [lia|].
      rewrite elem_of_app, list_elem_of_singleton. tauto.
Qed.

(** X19.  In a [Graph], an [upsert_edge] that returns leaves every degree
    as it was when the edge is there already; for a new edge it raises the
    degree of each endpoint by one, and the degree of the node of a new
    self-loop by two.  Both endpoints have a degree afterwards.  The call
    returns when no property is named [self], [u_of_edge] or [v_of_edge],
    and raises [TypeError] otherwise. *)
Theorem upsert_edge_raises_the_degrees (a b : pystr) (edge_data : attrs) G :
  wf G → nx.is_directed G = false →
  ((∀ k, k ∈ [py "self"; py "u_of_edge"; py "v_of_edge"] →
         k ∉ edge_data.*1) →
   ∃ G', NetworkXStorage.upsert_edge a b edge_data G = ret G'
     ∧ (∀ x, nx.degree_of x G'
             = nx.degree_of x G
               + (if NetworkXStorage.has_edge a b G then 0
                  else (if decide (x = a) then 1 else 0)
                       + (if decide (x = b) then 1 else 0)))
     ∧ NetworkXStorage.node_degree a G' = nx.Degree (nx.degree_of a G')
     ∧ NetworkXStorage.node_degree b G' = nx.Degree (nx.degree_of b G'))
  ∧ ((∃ k, k ∈ [py "self"; py "u_of_edge"; py "v_of_edge"]
           ∧ k ∈ edge_data.*1) →
     NetworkXStorage.upsert_edge a b edge_data G = raise TypeError).
Proof.
  intros Hwf Hd. unfold nx.is_directed in Hd.
  split; [|intros Hk; by apply upsert_edge_refused, keyword_clash_true].
  intros Hfree. exists (nx.add_edge a b edge_data G).
  split; [by apply upsert_edge_accepted, keyword_clash_false|].
  unfold NetworkXStorage.has_edge, NetworkXStorage.node_degree.
  pose proof (add_edge_wf a b edge_data G Hwf) as Hwf'.
  assert (Hd' : nx.directed (nx.add_edge a b edge_data G) = false)
    by (by rewrite add_edge_directed).
  split; [|split].
  - intros x. rewrite !degree_of_undirected by done.
    rewrite nbr_keys_add_edge, Hd by done.
    assert (Hab : nx.has_edge a b G
                  = bool_decide (b ∈ nbr_keys (nx._adj G) a)).
    { unfold nx.has_edge. apply bool_decide_ext. by rewrite nbr_keys_elem. }
    assert (Hba : b ∈ nbr_keys (nx._adj G) a ↔ a ∈ nbr_keys (nx._adj G) b).
    { rewrite !nbr_keys_elem. by rewrite (proj1 (wf_undirected G Hwf Hd) a b). }
    rewrite Hab.
    destruct (decide (x = b)) as [->|Hxb];
      [destruct (decide (b = a)) as [->|Hne]
      |destruct (decide (x = a)) as [->|Hxa]];
      rewrite ?degree_set_add;
      repeat case_decide; repeat case_bool_decide; try lia;
      exfalso; rewrite ?set_add_elem in *; tauto.
  - unfold nx.degree. rewrite adj_mem_has_node by done.
    assert (Hin : nx.has_node a (nx.add_edge a b edge_data G) = true).
    { rewrite has_node_true, add_edge_nodes, !new_node_elem. tauto. }
    by rewrite Hin.
  - unfold nx.degree. rewrite adj_mem_has_node by done.
    assert (Hin : nx.has_node b (nx.add_edge a b edge_data G) = true).
    { rewrite has_node_true, add_edge_nodes, !new_node_elem. tauto. }
    by rewrite Hin.
Qed.
End degrees_and_upserts.

(** A second edge at [A]. *)
Lemma upsert_edge_raises_the_degrees_witness :
  ∃ G', NetworkXStorage.upsert_edge (py "A") (py "C") []
          (apply_updates [UpsertEdge (py "A") (py "B") []] (nx.empty false))
        = ret G'
    ∧ nx.degree_of (py "A") G' = 2
    ∧ NetworkXStorage.node_degree (py "A") G' = nx.Degree 2.
Proof.
  destruct (upsert_edge_raises_the_degrees (py "A") (py "C") []
              (apply_updates [UpsertEdge (py "A") (py "B") []]
                 (nx.empty false))) as [Hok _].
  - apply apply_updates_wf, wf_empty.
  - reflexivity.
  - destruct Hok as (G' & HG' & Hdeg & Ha & _).
    + apply keyword_clash_false. vm_compute. reflexivity.
    + exists G'. split; [exact HG'|].
      assert (H2 : nx.degree_of (py "A") G' = 2).
      { rewrite Hdeg. vm_compute. reflexivity. }
      split; [exact H2|]. by rewrite Ha, H2.
Defined.

Section embed_nodes.
Context {embeddings : Type}.
Variable node2vec_embed : nx.Graph → result (embeddings * list pystr).

Lemma node_id_property_error G n ex :
  NetworkXStorage.node_id_property G n = raise ex → ex = KeyError.
Proof.
  unfold NetworkXStorage.node_id_property.
  destruct (nx.get_node n G) as [p|]; [|by intros [= <-]].
  destruct (odict_get (py "id") p); [done|by intros [= <-]].
Qed.

(** X20.  [embed_nodes] raises [ValueError] for every algorithm but
    ["node2vec"].  For ["node2vec"] it answers with the embeddings and,
    for each node that the embedding lists, the property [id] of the node;
    it raises [KeyError] when a listed node has no property [id] - as a
    node has that [upsert_edge] created for an endpoint - or is no
    node. *)
Theorem embed_nodes_needs_the_id_property (algorithm : pystr)
    (G : nx.Graph) (r : embeddings * list pystr) :
  (algorithm ≠ py "node2vec" →
   NetworkXStorage.embed_nodes node2vec_embed algorithm G = raise ValueError)
  ∧ (node2vec_embed G = ret r →
     Forall (fun n => ∃ props id, NetworkXStorage.get_node n G = Some props
                                  ∧ odict_get (py "id") props = Some id) r.2 →
     ∃ ids, NetworkXStorage.embed_nodes node2vec_embed (py "node2vec") G
            = ret (r.1, ids)
       ∧ length ids = length r.2
       ∧ ∀ i n, r.2 !! i = Some n →
           ∃ props id, NetworkXStorage.get_node n G = Some props
                       ∧ odict_get (py "id") props = Some id
                       ∧ ids !! i = Some id)
  ∧ (node2vec_embed G = ret r →
     (∃ n, n ∈ r.2
           ∧ (NetworkXStorage.get_node n G = None
              ∨ ∃ props, NetworkXStorage.get_node n G = Some props
                         ∧ odict_get (py "id") props = None)) →
     NetworkXStorage.embed_nodes node2vec_embed (py "node2vec") G
     = raise KeyError)
  ∧ (∀ a b edge_data G0,
       G = apply_update G0 (UpsertEdge a b edge_data) →
       NetworkXStorage.has_node a G0 = false →
       node2vec_embed G = ret r → a ∈ r.2 →
       NetworkXStorage.embed_nodes node2vec_embed (py "node2vec") G
       = raise KeyError).
Proof.
  assert (Hrun : NetworkXStorage.embed_nodes node2vec_embed (py "node2vec") G
                 = NetworkXStorage._node2vec_embed node2vec_embed G).
  { unfold NetworkXStorage.embed_nodes.
    rewrite bool_decide_eq_false_2; [done|]. intros Hn. apply Hn. left. }
  assert (Hkey : node2vec_embed G = ret r →
            (∃ n, n ∈ r.2
                  ∧ (NetworkXStorage.get_node n G = None
                     ∨ ∃ props, NetworkXStorage.get_node n G = Some props
                                ∧ odict_get (py "id") props = None)) →
            NetworkXStorage.embed_nodes node2vec_embed (py "node2vec") G
            = raise KeyError).
  { intros Hr (n & Hin & Hn). rewrite Hrun.
    unfold NetworkXStorage._node2vec_embed. rewrite Hr. simpl.
    rewrite (mapM_first_error _ _ n KeyError); [done|done| |].
    - unfold NetworkXStorage.node_id_property, NetworkXStorage.get_node in *.
      destruct Hn as [-> |(props & -> & ->)]; done.
    - intros n' ex' Hn'. by apply node_id_property_error in Hn'. }
  split; [|split; [|split]].
  - intros Hne. unfold NetworkXStorage.embed_nodes.
    rewrite bool_decide_eq_true_2; [done|].
    intros Hin. apply list_elem_of_singleton in Hin. done.
  - intros Hr Hall. rewrite Hrun.
    unfold NetworkXStorage._node2vec_embed. rewrite Hr. simpl.
    destruct (mapM_total (NetworkXStorage.node_id_property G) r.2)
      as (ids & Hids & Hl & Hi).
    { eapply Forall_impl; [exact Hall|]. intros n (props & id & Hp & Hid).
      exists id. unfold NetworkXStorage.node_id_property.
      unfold NetworkXStorage.get_node in Hp. by rewrite Hp, Hid. }
    rewrite Hids. simpl. exists ids. split; [done|]. split; [done|].
    intros i n Hn. destruct (Hi i n Hn) as (id & Hid & Hq).
    unfold NetworkXStorage.node_id_property in Hq.
    unfold NetworkXStorage.get_node.
    destruct (nx.get_node n G) as [props|]; [|done].
    destruct (odict_get (py "id") props) as [id'|] eqn:Hp; [|done].
    injection Hq as ->. by exists props, id.
  - exact Hkey.
  - intros a b edge_data G0 -> Ha Hr Hin. apply Hkey; [done|].
    exists a. split; [done|].
    unfold NetworkXStorage.get_node, NetworkXStorage.has_node in *.
    destruct (accepted (UpsertEdge a b edge_data)) eqn:Hc.
    + right. exists []. split; [|done].
      rewrite apply_update_accepted by done.
      rewrite add_edge_get_node. apply new_node_get_old.
      by apply new_node_get_new.
    + left. rewrite (proj1 (apply_update_refused G0 _ Hc)).
      apply has_node_false in Ha. unfold nx.get_node.
      destruct (odict_get a (nx._node G0)) eqn:Hg; [|done].
      exfalso. apply Ha. apply odict_get_is_Some. by eexists.
Qed.
End embed_nodes.

(** * Further properties of the canonicalizer *)

(** ** Normalizing plain ids *)

Section normalize_plain.
Variable E : pyenv.

Lemma upper_plain_ascii s : upper_plain s → plain_ascii s.
Proof. intros H. eapply Forall_impl; [exact H|]. naive_solver. Qed.

Lemma upper_of_plain s : plain_ascii s → upper_plain (str.upper E s).
Proof.
  unfold str.upper. induction 1 as [|c s [Hc Hamp] _ IH]; simpl; [constructor|].
  apply Forall_app. split; [|done].
  unfold str.upper_cp. repeat case_bool_decide; try lia.
  - repeat constructor; lia.
  - repeat constructor; lia.
Qed.

Lemma upper_of_upper_plain s : upper_plain s → str.upper E s = s.
Proof.
  unfold str.upper. induction 1 as [|c s (Hc & Hamp & Hlow) _ IH]; simpl; [done|].
  rewrite IH. unfold str.upper_cp.
  repeat case_bool_decide; try lia; done.
Qed.

Lemma lstrip_Forall (P : N → Prop) s : Forall P s → Forall P (str.lstrip s).
Proof.
  induction 1 as [|c s Hc Hs IH]; simpl; [constructor|].
  destruct (str.isspace c); [done|by constructor].
Qed.

Lemma strip_Forall (P : N → Prop) s : Forall P s → Forall P (str.strip s).
Proof.
  intros Hs. unfold str.strip, str.rstrip.
  apply Forall_reverse, lstrip_Forall, Forall_reverse, lstrip_Forall, Hs.
Qed.

Lemma lstrip_head s :
  str.lstrip s = []
  ∨ ∃ c t, str.lstrip s = c :: t ∧ str.isspace c = false.
Proof.
  induction s as [|c s IH]; simpl; [by left|].
  destruct (str.isspace c) eqn:Hc; [done|]. right. by exists c, s.
Qed.

Lemma lstrip_lstrip s : str.lstrip (str.lstrip s) = str.lstrip s.
Proof.
  destruct (lstrip_head s) as [->|(c & t & -> & Hc)]; [done|].
  simpl. by rewrite Hc.
Qed.

Lemma lstrip_snoc s c :
  str.isspace c = false → str.lstrip (s ++ [c]) = str.lstrip s ++ [c].
Proof.
  intros Hc. induction s as [|x s IH]; simpl; [by rewrite Hc|].
  by destruct (str.isspace x).
Qed.

Lemma rstrip_rstrip s : str.rstrip (str.rstrip s) = str.rstrip s.
Proof. unfold str.rstrip. by rewrite reverse_involutive, lstrip_lstrip. Qed.

Lemma lstrip_rstrip_lstrip s :
  str.lstrip (str.rstrip (str.lstrip s)) = str.rstrip (str.lstrip s).
Proof.
  destruct (lstrip_head s) as [->|(c & t & -> & Hc)]; [done|].
  unfold str.rstrip. rewrite reverse_cons, lstrip_snoc by done.
  rewrite reverse_app. simpl. by rewrite Hc.
Qed.

Lemma strip_strip s : str.strip (str.strip s) = str.strip s.
Proof.
  unfold str.strip. by rewrite lstrip_rstrip_lstrip, rstrip_rstrip.
Qed.

Lemma unescape_plain s : plain_ascii s → html.unescape E s = ret s.
Proof.
  intros Hs. unfold html.unescape. rewrite bool_decide_eq_false_2; [done|].
  intros Hin. apply (proj1 (Forall_forall _ _) Hs) in Hin. naive_solver.
Qed.

Lemma normalize_id_plain s :
  plain_ascii s →
  NetworkXStorage.normalize_id E s = ret (str.strip (str.upper E s))
  ∧ upper_plain (str.strip (str.upper E s)).
Proof.
  intros Hs. unfold NetworkXStorage.normalize_id.
  assert (Hu : upper_plain (str.strip (str.upper E s))).
  { by apply strip_Forall, upper_of_plain. }
  by rewrite unescape_plain by by apply upper_plain_ascii.
Qed.

Lemma normalize_id_fixed s t :
  plain_ascii s → NetworkXStorage.normalize_id E s = ret t →
  NetworkXStorage.normalize_id E t = ret t.
Proof.
  intros Hs Ht. destruct (normalize_id_plain s Hs) as [Heq Hu].
  rewrite Heq in Ht. injection Ht as <-.
  destruct (normalize_id_plain _ (upper_plain_ascii _ Hu)) as [Heq' _].
  by rewrite Heq', (upper_of_upper_plain _ Hu), strip_strip.
Qed.

Lemma bind_raise_inv {A B} (m : result A) (k : A → result B) ex :
  (let* x := m in k x) = raise ex
  → m = raise ex ∨ ∃ a, m = ret a ∧ k a = raise ex.
Proof.
  destruct m as [e|a]; simpl; [intros [= ->]; by left|].
  intros Hk. right. by exists a.
Qed.

Lemma int_decimal_raises digits ex :
  html.int_decimal E digits = raise ex → ex = ValueError.
Proof.
  unfold html.int_decimal. case_bool_decide; [by intros [= <-]|done].
Qed.

Lemma replace_charref_raises g ex :
  html._replace_charref E g = raise ex → ex = ValueError.
Proof.
  unfold html._replace_charref. intros Hr.
  repeat case_match; try done;
    apply bind_raise_inv in Hr as [Hr|(num & _ & Hr)]; try done;
    repeat case_match; try done; by eapply int_decimal_raises.
Qed.

Lemma sub_charref_raises skip s ex :
  html.sub_charref E skip s = raise ex → ex = ValueError.
Proof.
  revert skip. induction s as [|c s IH]; intros skip; simpl; [done|].
  destruct skip as [|k]; [|by apply IH].
  intros Hr. repeat case_match.
  - apply bind_raise_inv in Hr as [Hr|(r & _ & Hr)];
      [by eapply replace_charref_raises|].
    apply bind_raise_inv in Hr as [Hr|(rest & _ & Hr)]; [by eapply IH|done].
  - apply bind_raise_inv in Hr as [Hr|(rest & _ & Hr)]; [by eapply IH|done].
  - apply bind_raise_inv in Hr as [Hr|(rest & _ & Hr)]; [by eapply IH|done].
Qed.

(** [normalize_id] raises nothing but [ValueError]. *)
Lemma normalize_id_raises n ex :
  NetworkXStorage.normalize_id E n = raise ex → ex = ValueError.
Proof.
  unfold NetworkXStorage.normalize_id, html.unescape.
  case_bool_decide; [apply sub_charref_raises|done].
Qed.

(** X21.  On an id of ASCII characters without [&], the normalization of
    [stable_largest_connected_component] returns [id.upper().strip()], an
    id of ASCII characters without [&] and without lower-case letters, and
    it leaves its own result as it is. *)
Theorem normalize_id_settles_on_plain_ascii (s : pystr) :
  plain_ascii s →
  NetworkXStorage.normalize_id E s = ret (str.strip (str.upper E s))
  ∧ plain_ascii (str.strip (str.upper E s))
  ∧ Forall (fun c => ¬ (97 ≤ c ≤ 122)%N) (str.strip (str.upper E s))
  ∧ (let* t := NetworkXStorage.normalize_id E s in
     NetworkXStorage.normalize_id E t)
    = NetworkXStorage.normalize_id E s.
Proof.
  intros Hs. destruct (normalize_id_plain s Hs) as [Heq Hu].
  split; [done|]. split; [by apply upper_plain_ascii|]. split.
  - eapply Forall_impl; [exact Hu|]. naive_solver.
  - rewrite Heq. simpl. by apply (normalize_id_fixed s).
Qed.
End normalize_plain.

Lemma normalize_id_settles_on_plain_ascii_witness :
  NetworkXStorage.normalize_id env.reversed (py " Alan Turing ")
  = ret (str.strip (str.upper env.reversed (py " Alan Turing ")))
  ∧ plain_ascii (str.strip (str.upper env.reversed (py " Alan Turing ")))
  ∧ Forall (fun c => ¬ (97 ≤ c ≤ 122)%N)
      (str.strip (str.upper env.reversed (py " Alan Turing ")))
  ∧ (let* t := NetworkXStorage.normalize_id env.reversed (py " Alan Turing ") in
     NetworkXStorage.normalize_id env.reversed t)
    = NetworkXStorage.normalize_id env.reversed (py " Alan Turing ").
Proof.
  apply (normalize_id_settles_on_plain_ascii env.reversed (py " Alan Turing ")).
  unfold plain_ascii. vm_compute py.
  repeat (apply Forall_cons; split; [split; [lia|discriminate]|]).
  apply Forall_nil. done.
Defined.

(** ** [_stabilize_graph] *)

Section stabilize.
Implicit Types H : nx.Graph.

(** X22.  [_stabilize_graph] changes nothing that the graph holds: the result is
    of the same kind (directed or not), and has the same nodes, the same
    edges and the same properties on both. *)
Theorem stabilize_graph_keeps_what_the_graph_holds H :
  wf H →
  wf (NetworkXStorage._stabilize_graph H)
  ∧ nx.is_directed (NetworkXStorage._stabilize_graph H) = nx.is_directed H
  ∧ (∀ n, NetworkXStorage.has_node n (NetworkXStorage._stabilize_graph H)
          = NetworkXStorage.has_node n H
          ∧ NetworkXStorage.get_node n (NetworkXStorage._stabilize_graph H)
            = NetworkXStorage.get_node n H)
  ∧ (∀ u v, NetworkXStorage.has_edge u v (NetworkXStorage._stabilize_graph H)
            = NetworkXStorage.has_edge u v H
            ∧ NetworkXStorage.get_edge u v (NetworkXStorage._stabilize_graph H)
              = NetworkXStorage.get_edge u v H).
Proof.
  intros Hwf. destruct (stabilize_same_content H Hwf) as (Hd & Hn & He).
  split; [by apply stabilize_wf|]. split; [done|]. split.
  - intros n. split; [|apply Hn].
    unfold NetworkXStorage.has_node.
    destruct (nx.has_node n H) eqn:Hh.
    + apply has_node_true. apply has_node_true in Hh.
      by apply (same_content_nodes _ _ _ (stabilize_same_content H Hwf)).
    + apply has_node_false. apply has_node_false in Hh. intros Hin.
      by apply (same_content_nodes _ _ _ (stabilize_same_content H Hwf)) in Hin.
  - intros u v. split; [|apply He].
    unfold NetworkXStorage.has_edge, nx.has_edge. by rewrite He.
Qed.

(** X23.  The graph that [_stabilize_graph] returns lists its nodes in ascending
    order of id, each once, and its edges in ascending order of source and,
    for one source, of target; when the graph is undirected, every edge is
    listed from its smaller endpoint. *)
Theorem stabilize_graph_reads_in_ascending_order H :
  wf H →
  StronglySorted str_le (nx.nodes (NetworkXStorage._stabilize_graph H))
  ∧ NoDup (nx.nodes (NetworkXStorage._stabilize_graph H))
  ∧ StronglySorted edge_le (nx.edges_data (NetworkXStorage._stabilize_graph H))
  ∧ (nx.is_directed H = false →
     ∀ u v d, (u, v, d) ∈ nx.edges_data (NetworkXStorage._stabilize_graph H) →
              str_le u v).
Proof.
  intros Hwf. split; [by apply stabilize_nodes_sorted|].
  split; [apply (wf_nodes _ (stabilize_wf H Hwf))|].
  split; [by apply stabilize_edges_sorted|].
  intros Hd u v d. by apply stabilize_edges_oriented.
Qed.

(** X24.  Two graphs with the same nodes, edges and properties are read the same
    way after [_stabilize_graph], whatever the order in which each was
    built; and stabilizing a stabilized graph changes nothing in how it is
    read. *)
Theorem stabilize_graph_reads_equal_graphs_the_same H H' :
  wf H → wf H' → same_content H H' →
  same_sequences (NetworkXStorage._stabilize_graph H)
    (NetworkXStorage._stabilize_graph H')
  ∧ same_sequences
      (NetworkXStorage._stabilize_graph (NetworkXStorage._stabilize_graph H))
      (NetworkXStorage._stabilize_graph H).
Proof.
  intros Hwf Hwf' Hsc. split; [by apply stabilize_same_sequences|].
  apply stabilize_same_sequences;
    [by apply stabilize_wf|done|by apply stabilize_same_content].
Qed.
End stabilize.

Lemma stabilize_graph_keeps_what_the_graph_holds_witness :
  let H := graphs.z_then_ab in
  wf (NetworkXStorage._stabilize_graph H)
  ∧ nx.is_directed (NetworkXStorage._stabilize_graph H) = nx.is_directed H
  ∧ (∀ n, NetworkXStorage.has_node n (NetworkXStorage._stabilize_graph H)
          = NetworkXStorage.has_node n H
          ∧ NetworkXStorage.get_node n (NetworkXStorage._stabilize_graph H)
            = NetworkXStorage.get_node n H)
  ∧ (∀ u v, NetworkXStorage.has_edge u v (NetworkXStorage._stabilize_graph H)
            = NetworkXStorage.has_edge u v H
            ∧ NetworkXStorage.get_edge u v (NetworkXStorage._stabilize_graph H)
              = NetworkXStorage.get_edge u v H).
Proof.
  apply (stabilize_graph_keeps_what_the_graph_holds graphs.z_then_ab).
  apply apply_updates_wf, wf_empty.
Defined.

Lemma stabilize_graph_reads_in_ascending_order_witness :
  let H := graphs.z_then_ab in
  StronglySorted str_le (nx.nodes (NetworkXStorage._stabilize_graph H))
  ∧ NoDup (nx.nodes (NetworkXStorage._stabilize_graph H))
  ∧ StronglySorted edge_le (nx.edges_data (NetworkXStorage._stabilize_graph H))
  ∧ (nx.is_directed H = false →
     ∀ u v d, (u, v, d) ∈ nx.edges_data (NetworkXStorage._stabilize_graph H) →
              str_le u v).
Proof.
  apply (stabilize_graph_reads_in_ascending_order graphs.z_then_ab).
  apply apply_updates_wf, wf_empty.
Defined.

Lemma stabilize_graph_reads_equal_graphs_the_same_witness :
  same_sequences (NetworkXStorage._stabilize_graph graphs.ab_then_z)
    (NetworkXStorage._stabilize_graph graphs.z_then_ab)
  ∧ same_sequences
      (NetworkXStorage._stabilize_graph
         (NetworkXStorage._stabilize_graph graphs.ab_then_z))
      (NetworkXStorage._stabilize_graph graphs.ab_then_z).
Proof.
  assert (H1 : wf graphs.ab_then_z).
  { apply apply_updates_wf, wf_empty. }
  assert (H2 : wf graphs.z_then_ab).
  { apply apply_updates_wf, wf_empty. }
  apply (stabilize_graph_reads_equal_graphs_the_same
           graphs.ab_then_z graphs.z_then_ab H1 H2).
  apply same_content_b_sound; [done..|]. vm_compute. reflexivity.
Defined.

(** ** [stable_largest_connected_component] *)

Section canonical.
Variable E : pyenv.
Implicit Types G R : nx.Graph.

Lemma canonicalize_nodes G R m :
  wf G →
  NetworkXStorage.stable_largest_connected_component E G = ret R →
  m ∈ nx.nodes R →
  ∃ n, n ∈ nx.nodes G ∧ NetworkXStorage.normalize_id E n = ret m.
Proof.
  intros Hwf HR Hm.
  destruct (canonicalize_inv E G R HR) as (C & mp & Hmax & Hmp & ->).
  destruct (canonicalize_stages E G C Hmax) as (HC & Hsub & _ & _).
  destruct (subgraph_copy_spec E C (nx.copy G) (copy_wf G) HC) as (Hwfl & _).
  apply (stabilized_relabel_nodes E _ mp m Hwfl Hmp) in Hm as (n & Hn & Hid).
  exists n. split; [|done].
  apply (subgraph_copy_nodes E C (nx.copy G) n (copy_wf G) HC) in Hn as [_ Hn].
  by rewrite copy_nodes in Hn.
Qed.

(** X25.  [stable_largest_connected_component] raises nothing but
    [ValueError], and raises it in two cases only: on a graph without
    nodes, where there is no component to take the largest of, and when
    [html.unescape] fails on an id of the largest component, as it does on
    a decimal character reference longer than the digits that [int]
    converts.  It returns on every other graph. *)
Theorem canonicalize_raises_only_ValueError G :
  wf G →
  (nx.nodes G = [] →
   NetworkXStorage.stable_largest_connected_component E G = raise ValueError)
  ∧ (nx.nodes G ≠ [] →
     ∃ C, graspologic.py_max_len (nx.connected_components (nx.copy G))
          = ret C)
  ∧ (∀ C,
       graspologic.py_max_len (nx.connected_components (nx.copy G)) = ret C →
       ((∃ n, n ∈ C ∧ NetworkXStorage.normalize_id E n = raise ValueError) →
        NetworkXStorage.stable_largest_connected_component E G
        = raise ValueError)
       ∧ ((∀ n, n ∈ C → ∃ id, NetworkXStorage.normalize_id E n = ret id) →
          ∃ R, NetworkXStorage.stable_largest_connected_component E G
               = ret R))
  ∧ (∀ ex,
       NetworkXStorage.stable_largest_connected_component E G = raise ex →
       ex = ValueError
       ∧ (nx.nodes G = []
          ∨ ∃ C n,
              graspologic.py_max_len (nx.connected_components (nx.copy G))
              = ret C
              ∧ n ∈ C
              ∧ NetworkXStorage.normalize_id E n = raise ValueError))
  ∧ NetworkXStorage.normalize_id env.reversed
      (py "&#" ++ replicate 4301 57%N ++ py ";") = raise ValueError.
Proof.
  intros Hwf.
  assert (Hempty : nx.nodes G = [] →
            NetworkXStorage.stable_largest_connected_component E G
            = raise ValueError).
  { intros Hn.
    unfold NetworkXStorage.stable_largest_connected_component,
      graspologic.largest_connected_component, nx.connected_components.
    by rewrite (copy_nodes G Hwf), Hn. }
  assert (Hmax : nx.nodes G ≠ [] →
            ∃ C, graspologic.py_max_len
                   (nx.connected_components (nx.copy G)) = ret C).
  { intros Hn. apply py_max_len_total, connected_components_nonempty.
    by rewrite copy_nodes. }
  split; [done|]. split; [done|]. split; [|split].
  - intros C HC.
    destruct (canonicalize_stages E G C HC) as (HnC & Hsub & _ & Heq).
    split.
    + intros (n & Hn & Hr). rewrite Heq.
      destruct (node_mapping_raises E (nx.subgraph_copy E C (nx.copy G)) n
                  ValueError) as [ex Hex]; [|done|].
      { apply subgraph_copy_nodes; [apply copy_wf|done|].
        split; [done|by apply Hsub]. }
      rewrite Hex. simpl.
      apply node_mapping_raise_inv in Hex as (n' & _ & Hn').
      by rewrite (normalize_id_raises E n' ex Hn').
    + intros Hnorm.
      destruct (canonicalize_returns E G C HC Hnorm) as (mp & _ & Hret).
      by eexists.
  - intros ex Hr. destruct (decide (nx.nodes G = [])) as [Hnil|Hne].
    + rewrite Hempty in Hr by done. injection Hr as <-. split; [done|by left].
    + destruct Hmax as [C HC]; [done|].
      destruct (canonicalize_stages E G C HC) as (HnC & Hsub & _ & Heq).
      rewrite Heq in Hr.
      apply bind_raise_inv in Hr as [Hr|(mp & _ & Hr)]; [|done].
      apply node_mapping_raise_inv in Hr as (n & Hn & Hr).
      pose proof (normalize_id_raises E n ex Hr) as ->.
      split; [done|]. right. exists C, n. split; [done|]. split; [|done].
      by apply (subgraph_copy_nodes E C (nx.copy G) n (copy_wf G) HnC) in Hn
        as [HnC' _].
  - vm_compute. reflexivity.
Qed.

(** X26.  The graph that [stable_largest_connected_component] returns has a node
    and is one component: a path leads from every node to every other. *)
Theorem canonical_form_is_one_component G R :
  NetworkXStorage.stable_largest_connected_component E G = ret R →
  nx.nodes R ≠ []
  ∧ ∀ x y, x ∈ nx.nodes R → y ∈ nx.nodes R → connected R x y.
Proof.
  intros HR.
  destruct (canonicalize_connected E G R HR) as (Hwf & r & Hr & Hall).
  split.
  - intros Hn. rewrite Hn in Hr. by apply elem_of_nil in Hr.
  - intros x y Hx Hy.
    apply (connected_trans R x r y); [|by apply Hall].
    apply connected_sym; [done|by apply Hall].
Qed.

(** X27.  When normalization maps no two node ids of the graph to one id, every
    node that [stable_largest_connected_component] keeps has, under its
    normalized id, the properties it had, and two kept nodes have between
    them the edge they had, with its properties, or no edge when they had
    none.  The result is of the same kind, directed or not. *)
Theorem canonical_form_keeps_the_properties G R :
  wf G →
  NetworkXStorage.stable_largest_connected_component E G = ret R →
  (∀ n n' id, n ∈ nx.nodes G → n' ∈ nx.nodes G →
              NetworkXStorage.normalize_id E n = ret id →
              NetworkXStorage.normalize_id E n' = ret id → n = n') →
  nx.is_directed R = nx.is_directed G
  ∧ (∀ n id, n ∈ nx.nodes G →
             NetworkXStorage.normalize_id E n = ret id →
             NetworkXStorage.has_node id R = true →
             NetworkXStorage.get_node id R = NetworkXStorage.get_node n G)
  ∧ (∀ u v idu idv, u ∈ nx.nodes G → v ∈ nx.nodes G →
            NetworkXStorage.normalize_id E u = ret idu →
            NetworkXStorage.normalize_id E v = ret idv →
            NetworkXStorage.has_node idu R = true →
            NetworkXStorage.has_node idv R = true →
            NetworkXStorage.get_edge idu idv R
            = NetworkXStorage.get_edge u v G).
Proof.
  intros Hwf HR Hinj.
  destruct (canonicalize_inv E G R HR) as (C & m & Hmax & Hmp & ->).
  destruct (canonicalize_stages E G C Hmax) as (HC & Hsub & _ & _).
  pose proof (copy_wf G) as Hwfc.
  destruct (copy_same_content G Hwf) as (Hcd & Hcn & Hce).
  destruct (subgraph_copy_spec E C (nx.copy G) Hwfc HC)
    as (Hwfl & Hld & Hln & Hle).
  set (lcc := nx.subgraph_copy E C (nx.copy G)) in *.
  assert (Hnodes : ∀ n, n ∈ nx.nodes lcc ↔ n ∈ C).
  { intros n. unfold lcc. rewrite (subgraph_copy_nodes E C (nx.copy G) n Hwfc HC).
    split; [by intros [? _]|]. intros Hn. split; [done|by apply Hsub]. }
  assert (HCG : ∀ n, n ∈ C → n ∈ nx.nodes G).
  { intros n Hn. rewrite <- (copy_nodes G Hwf). by apply Hsub. }
  assert (Hm : ∀ n, n ∈ C →
            NetworkXStorage.normalize_id E n = ret (mapping_get m n)).
  { intros n Hn. apply (node_mapping_get E lcc); [done..|by apply Hnodes]. }
  assert (Hminj : ∀ n n', n ∈ nx.nodes lcc → n' ∈ nx.nodes lcc →
            mapping_get m n = mapping_get m n' → n = n').
  { intros n n' Hn Hn' Heq. apply Hnodes in Hn, Hn'.
    apply (Hinj n n' (mapping_get m n)); [by apply HCG..|by apply Hm|].
    rewrite Heq. by apply Hm. }
  destruct (relabel_nodes_content m lcc Hwfl Hminj) as (Hrn & Hre).
  destruct (relabel_nodes_spec m lcc Hwfl) as (Hwfh & Hhd & Hnh).
  destruct (stabilize_same_content _ Hwfh) as (Hsd & Hsn & Hse).
  assert (Hkept : ∀ n id, n ∈ nx.nodes G →
            NetworkXStorage.normalize_id E n = ret id →
            NetworkXStorage.has_node id
              (NetworkXStorage._stabilize_graph (nx.relabel_nodes m lcc)) = true →
            n ∈ C ∧ id = mapping_get m n).
  { intros n id Hn Hid Hh. apply has_node_true in Hh.
    apply (same_content_nodes _ _ _
             (stabilize_same_content _ Hwfh)) in Hh.
    apply Hnh in Hh as (n' & Hn' & Heq). apply Hnodes in Hn'.
    pose proof (Hm n' Hn') as Hid'. rewrite <- Heq in Hid'.
    rewrite (Hinj n n' id Hn (HCG n' Hn') Hid Hid'). by split. }
  split; [|split].
  - unfold nx.is_directed. by rewrite Hsd, Hhd, Hld.
  - intros n id Hn Hid Hh. destruct (Hkept n id Hn Hid Hh) as [HnC ->].
    unfold NetworkXStorage.get_node. rewrite Hsn, <- Hcn.
    apply option_eq_Some_iff. intros a. rewrite Hrn. split.
    + intros (n' & Heq & Hg).
      assert (Hn' : n' ∈ C) by (by apply Hnodes, (get_node_elem lcc n' a)).
      rewrite (Hminj n n'); [|by apply Hnodes..|done].
      rewrite Hln in Hg. by destruct (decide (n' ∈ C)).
    + intros Hg. exists n. split; [done|].
      rewrite Hln. by destruct (decide (n ∈ C)).
  - intros u v idu idv Hu Hv Hidu Hidv Hhu Hhv.
    destruct (Hkept u idu Hu Hidu Hhu) as [HuC ->].
    destruct (Hkept v idv Hv Hidv Hhv) as [HvC ->].
    unfold NetworkXStorage.get_edge. rewrite Hse, <- Hce.
    apply option_eq_Some_iff. intros d. rewrite Hre. split.
    + intros (u' & v' & Hequ & Heqv & Hg).
      rewrite Hle in Hg. destruct (decide (u' ∈ C ∧ v' ∈ C)) as [[Hu' Hv']|];
        [|done].
      rewrite (Hminj u u'); [|by apply Hnodes..|done].
      by rewrite (Hminj v v'); [|by apply Hnodes..|done].
    + intros Hg. exists u, v. split; [done|]. split; [done|].
      rewrite Hle. by destruct (decide (u ∈ C ∧ v ∈ C)) as [|[]].
Qed.

(** X28.  On a graph whose node ids are all ASCII without [&],
    [stable_largest_connected_component] applied to its own result returns
    a graph that reads the same: the same nodes and edges with the same
    properties, in the same order. *)
Theorem canonicalize_twice_on_plain_ascii_ids G R :
  wf G → Forall plain_ascii (nx.nodes G) →
  NetworkXStorage.stable_largest_connected_component E G = ret R →
  Forall upper_plain (nx.nodes R)
  ∧ ∃ R', NetworkXStorage.stable_largest_connected_component E R = ret R'
          ∧ same_sequences R' R.
Proof.
  intros Hwf Hplain HR.
  assert (Hfrom : ∀ m, m ∈ nx.nodes R →
            ∃ n, plain_ascii n ∧ NetworkXStorage.normalize_id E n = ret m).
  { intros m Hm.
    destruct (canonicalize_nodes G R m Hwf HR Hm) as (n & Hn & Hid).
    exists n. split; [|done]. by apply (proj1 (Forall_forall _ _) Hplain). }
  split.
  - apply Forall_forall. intros m Hm.
    destruct (Hfrom m Hm) as (n & Hn & Hid).
    destruct (normalize_id_plain E n Hn) as [Heq Hu].
    rewrite Heq in Hid. by injection Hid as <-.
  - assert (Hfix : ∀ m, m ∈ nx.nodes R →
              NetworkXStorage.normalize_id E m = ret m).
    { intros m Hm. destruct (Hfrom m Hm) as (n & Hn & Hid).
      by apply (normalize_id_fixed E n). }
    destruct (canonicalize_twice_stages E G R HR Hfix)
      as (H0 & H & Hwf0 & HwfH & Hsc & -> & Hres).
    eexists. split; [exact Hres|]. by apply stabilize_same_sequences.
Qed.
End canonical.

Lemma canonicalize_raises_only_ValueError_witness :
  NetworkXStorage.stable_largest_connected_component env.reversed
    (nx.empty false) = raise ValueError.
Proof.
  refine (proj1 (canonicalize_raises_only_ValueError env.reversed
                   (nx.empty false) _) _).
  - apply wf_empty.
  - reflexivity.
Defined.

Lemma canonical_form_is_one_component_witness :
  nx.nodes graphs.AB_weighted ≠ []
  ∧ ∀ x y, x ∈ nx.nodes graphs.AB_weighted → y ∈ nx.nodes graphs.AB_weighted →
           connected graphs.AB_weighted x y.
Proof.
  apply (canonical_form_is_one_component env.reversed graphs.ab_then_z).
  vm_compute. reflexivity.
Defined.

Lemma canonical_form_keeps_the_properties_witness :
  let E := env.reversed in
  let G := graphs.ab_then_z in
  let R := graphs.AB_weighted in
  nx.is_directed R = nx.is_directed G
  ∧ (∀ n id, n ∈ nx.nodes G →
             NetworkXStorage.normalize_id E n = ret id →
             NetworkXStorage.has_node id R = true →
             NetworkXStorage.get_node id R = NetworkXStorage.get_node n G)
  ∧ (∀ u v idu idv, u ∈ nx.nodes G → v ∈ nx.nodes G →
            NetworkXStorage.normalize_id E u = ret idu →
            NetworkXStorage.normalize_id E v = ret idv →
            NetworkXStorage.has_node idu R = true →
            NetworkXStorage.has_node idv R = true →
            NetworkXStorage.get_edge idu idv R
            = NetworkXStorage.get_edge u v G).
Proof.
  apply (canonical_form_keeps_the_properties env.reversed graphs.ab_then_z
           graphs.AB_weighted).
  - apply apply_updates_wf, wf_empty.
  - vm_compute. reflexivity.
  - change (nx.nodes graphs.ab_then_z) with [py "a"; py "b"; py "z"].
    intros n n' id Hn Hn' Hid Hid'.
    repeat (apply elem_of_cons in Hn as [->|Hn]);
      repeat (apply elem_of_cons in Hn' as [->|Hn']);
      try (by apply elem_of_nil in Hn); try (by apply elem_of_nil in Hn');
      try reflexivity; vm_compute in Hid; vm_compute in Hid'; congruence.
Defined.

Lemma canonicalize_twice_on_plain_ascii_ids_witness :
  Forall upper_plain (nx.nodes graphs.AB_weighted)
  ∧ ∃ R', NetworkXStorage.stable_largest_connected_component env.reversed
            graphs.AB_weighted = ret R'
          ∧ same_sequences R' graphs.AB_weighted.
Proof.
  apply (canonicalize_twice_on_plain_ascii_ids env.reversed graphs.ab_then_z).
  - apply apply_updates_wf, wf_empty.
  - change (nx.nodes graphs.ab_then_z) with [py "a"; py "b"; py "z"].
    unfold plain_ascii. vm_compute py.
    repeat (apply Forall_cons; split;
            [repeat (apply Forall_cons; split; [split; [lia|discriminate]|]);
             by apply Forall_nil|]).
    by apply Forall_nil.
  - vm_compute. reflexivity.
Defined.
